(** * Dependency resolution of the Fabric mod downloader (app.py)

    A shallow embedding of the registry client ([fetch_fabric_mods],
    [fetch_mod_versions]), of the dependency walk ([resolve_dependencies])
    and of the part of the download endpoint ([api_download]) that builds
    the filename-to-URL mapping handed to the archive step.

    Conventions of the embedding.
    - A JSON object whose fields the code reads is a record; a field read
      with [.get(key, default)] is an [option].
    - [requests.get] either answers with a response (a status code and a
      decoded body) or raises; the registry is a snapshot: the same request
      always has the same outcome.
    - A computation is a pair of the events it performed, in execution
      order, and its outcome: a value, a raised exception, or an exhausted
      iteration budget of the [while] loop. The events are the calls of
      [requests.get] and two marks that make the walk observable: the
      insertion of a project into [processed_projects] and the write of a
      file into [files_to_download]. No function reads the events.
    - A Python [dict] from strings to strings is a [gmap string string]
      and a Python [set] of strings is a [gset string].
    - In the part that handles files ([download_file] and the loop that
      writes the archive) every library call that can fail is a parameter
      that gives either its effect or the exception it raises: the
      request, the reads of a streamed body, [open], [f.write], [print]
      and [zipf.writestr]. *)

From Stdlib Require Import ZArith List.
From stdpp Require Import base option gmap strings list fin_maps.

Local Open Scope string_scope.
Local Open Scope list_scope.
Local Open Scope Z_scope.

(** ** Registry data *)

(** One entry of ["files"] in a version record. *)
Record File := { filename : string; url : string }.

(** One entry of ["dependencies"] in a version record. *)
Record Dependency := { dependency_type : string; dep_project_id : string }.

(** A version record of the registry. ["dependencies"] is read with
    [ver.get("dependencies", [])]: [None] is the missing key. *)
Record Version := {
  project_id : string;
  files : list File;
  dependencies : option (list Dependency)
}.

(** A search hit ([mod["slug"]], [mod["title"]]) and the entry built
    from it ([{"slug": ..., "name": ...}]). *)
Record Hit := { hit_slug : string; hit_title : string }.
Record ModEntry := { slug : string; name : string }.

(** The body of [GET /project/{id}], of which only ["slug"] is read. *)
Record Project := { project_slug : string }.

(** ** The transport *)

Record Response (A : Type) := { status_code : Z; json : A }.
Arguments status_code {A} _.
Arguments json {A} _.

(** What [requests.get] does: it returns a response or raises. *)
Inductive reply (A : Type) :=
  | Replied (r : Response A)
  | ConnectionError.
Arguments Replied {A} r.
Arguments ConnectionError {A}.

(** A registry snapshot, one function per URL shape the code requests. *)
Record Registry := {
  get_search : Z -> reply (list Hit);
  get_versions : string -> string -> reply (list Version);
  get_project : string -> reply Project
}.

Inductive request :=
  | Search (limit : Z)
  | Versions (slug mc_version : string)
  | ProjectInfo (proj_id : string).

(** ** Events, exceptions and the computation monad *)

Inductive event :=
  | Get (rq : request)                (* a call of requests.get *)
  | Expand (proj : string)            (* processed_projects.add(project_id) *)
  | Store (fname furl : string).      (* files_to_download[filename] = url *)

Inductive exn :=
  | RequestException                          (* raised by requests.get *)
  | HTTPException (code : Z) (description : string).  (* raised by abort *)

Inductive outcome (A : Type) :=
  | Ret (a : A)
  | Raise (e : exn)
  | OutOfFuel.
Arguments Ret {A} a.
Arguments Raise {A} e.
Arguments OutOfFuel {A}.

Definition M (A : Type) : Type := list event * outcome A.

Definition ret {A} (a : A) : M A := ([], Ret a).

Definition bind {A B} (m : M A) (f : A -> M B) : M B :=
  match m with
  | (t, Ret a) => let '(t', o) := f a in (t ++ t', o)
  | (t, Raise e) => (t, Raise e)
  | (t, OutOfFuel) => (t, OutOfFuel)
  end.

Definition tell (e : event) : M unit := ([e], Ret tt).
Definition raise {A} (e : exn) : M A := ([], Raise e).
Definition out_of_fuel {A} : M A := ([], OutOfFuel).

Definition trace {A} (m : M A) : list event := fst m.
Definition result {A} (m : M A) : outcome A := snd m.

Declare Scope comp_scope.
Delimit Scope comp_scope with comp.
Notation "x <- m ;; k" := (bind m (fun x => k))
  (at level 100, m at next level, right associativity) : comp_scope.
Notation "m ;;; k" := (bind m (fun _ => k))
  (at level 100, right associativity) : comp_scope.
Local Open Scope comp_scope.

(** [requests.get(url)]: the request is issued, then the registry's
    answer comes back or the call raises. *)
Definition requests_get {A} (rq : request) (r : reply A) : M (Response A) :=
  tell (Get rq) ;;;
  match r with
  | Replied resp => ret resp
  | ConnectionError => raise RequestException
  end.

Section Client.

Variable registry : Registry.

(** ** The registry client *)

Definition fetch_fabric_mods (limit : Z) : M (list ModEntry) :=
  resp <- requests_get (Search limit) (get_search registry limit) ;;
  if status_code resp =? 200 then
    ret (map (fun mod_ => {| slug := hit_slug mod_; name := hit_title mod_ |})
             (json resp))
  else ret [].

Definition fetch_mod_versions (slug mc_version : string) : M (list Version) :=
  resp <- requests_get (Versions slug mc_version)
                       (get_versions registry slug mc_version) ;;
  if negb (status_code resp =? 200) then ret []
  else ret (json resp).

(** ** The dependency walk *)

(** [add_version_files]: the loop [for f in ver["files"]] over the
    remaining files. *)
Fixpoint add_files (fs : list File) (files_to_download : gmap string string)
  : M (gmap string string) :=
  match fs with
  | [] => ret files_to_download
  | f :: fs' =>
      tell (Store (filename f) (url f)) ;;;
      add_files fs' (<[filename f := url f]> files_to_download)
  end.

Definition add_version_files (ver : Version)
    (files_to_download : gmap string string) : M (gmap string string) :=
  add_files (files ver) files_to_download.

(** The loop [for dep in ver.get("dependencies", [])]. [to_process] is
    used by the code only through [pop()] and [append(x)], both at the end
    of the Python list: the head of the list here is that end. *)
Fixpoint check_dependencies (deps : list Dependency) (mc_version : string)
    (to_process : list Version) : M (list Version) :=
  match deps with
  | [] => ret to_process
  | dep :: deps' =>
      if String.eqb (dependency_type dep) "required" then
        let dep_proj_id := dep_project_id dep in
        proj_resp <- requests_get (ProjectInfo dep_proj_id)
                                  (get_project registry dep_proj_id) ;;
        if negb (status_code proj_resp =? 200) then
          check_dependencies deps' mc_version to_process
        else
          let slug := project_slug (json proj_resp) in
          dep_versions <- fetch_mod_versions slug mc_version ;;
          match dep_versions with
          | [] => check_dependencies deps' mc_version to_process
          | latest :: _ =>
              check_dependencies deps' mc_version (latest :: to_process)
          end
      else check_dependencies deps' mc_version to_process
  end.

(** The loop [while to_process], one unit of [fuel] per iteration. *)
Fixpoint process (fuel : nat) (mc_version : string)
    (to_process : list Version) (processed_projects : gset string)
    (files_to_download : gmap string string) : M (gmap string string) :=
  match to_process with
  | [] => ret files_to_download
  | ver :: rest =>
      match fuel with
      | O => out_of_fuel
      | S fuel' =>
          let project_id := project_id ver in
          if decide (project_id ∈ processed_projects) then
            process fuel' mc_version rest processed_projects files_to_download
          else
            tell (Expand project_id) ;;;
            files' <- add_version_files ver files_to_download ;;
            to_process' <- check_dependencies
                             (default [] (dependencies ver)) mc_version rest ;;
            process fuel' mc_version to_process'
                    ({[project_id]} ∪ processed_projects) files'
      end
  end.

Definition resolve_dependencies (fuel : nat) (version_data : Version)
    (mc_version : string) : M (gmap string string) :=
  process fuel mc_version [version_data] ∅ ∅.

(** ** The download endpoint, up to the mapping handed to the archive

    [api_download] is embedded up to the second [abort]: its value is the
    mapping [files_to_download] from which the archive is then written. *)

(** The JSON body of the request: [data.get('mc_version')] and
    [data.get('mods', [])]; [None] is a missing (or null) key. *)
Record DownloadRequest := {
  req_mc_version : option string;
  req_mods : option (list string)
}.

(** The loop [for slug in mod_slugs]. *)
Fixpoint collect (fuel : nat) (mod_slugs : list string) (mc_version : string)
    (files_to_download : gmap string string) : M (gmap string string) :=
  match mod_slugs with
  | [] => ret files_to_download
  | slug :: slugs' =>
      versions <- fetch_mod_versions slug mc_version ;;
      match versions with
      | [] => collect fuel slugs' mc_version files_to_download
      | latest_ver :: _ =>
          deps_files <- resolve_dependencies fuel latest_ver mc_version ;;
          (* files_to_download.update(deps_files) *)
          collect fuel slugs' mc_version (deps_files ∪ files_to_download)
      end
  end.

(** Python truthiness of the two request fields: [None] and the empty
    string, [None] and the empty list are false. *)
Definition truthy_str (o : option string) : bool :=
  match o with
  | Some s => negb (String.eqb s EmptyString)
  | None => false
  end.

Definition truthy_list {A} (l : list A) : bool :=
  match l with
  | [] => false
  | _ :: _ => true
  end.

Definition api_download (fuel : nat) (data : DownloadRequest)
  : M (gmap string string) :=
  let mc_version := req_mc_version data in
  let mod_slugs := default [] (req_mods data) in
  if negb (truthy_str mc_version) || negb (truthy_list mod_slugs) then
    raise (HTTPException 400 "Minecraft version and mod list required")
  else
    files_to_download <- collect fuel mod_slugs (default EmptyString mc_version) ∅ ;;
    if bool_decide (files_to_download = ∅) then
      raise (HTTPException 404
        "No compatible mods found for the specified Minecraft version")
    else ret files_to_download.

End Client.


(** ** Observations on a trace *)

(** The projects expanded, in order. *)
Fixpoint expansions (tr : list event) : list string :=
  match tr with
  | [] => []
  | Expand p :: tr' => p :: expansions tr'
  | _ :: tr' => expansions tr'
  end.

(** The registry requests issued, in order. *)
Fixpoint requests (tr : list event) : list request :=
  match tr with
  | [] => []
  | Get rq :: tr' => rq :: requests tr'
  | _ :: tr' => requests tr'
  end.

(** The mapping writes performed, in order. *)
Fixpoint stores (tr : list event) : list (string * string) :=
  match tr with
  | [] => []
  | Store k u :: tr' => (k, u) :: stores tr'
  | _ :: tr' => stores tr'
  end.

(** The URL written last under [k], if [k] was written at all. *)
Fixpoint last_write (k : string) (ws : list (string * string)) : option string :=
  match ws with
  | [] => None
  | (k', u) :: ws' =>
      match last_write k ws' with
      | Some u' => Some u'
      | None => if String.eqb k' k then Some u else None
      end
  end.

(** The mapping obtained from [m] by performing the writes [ws] in order. *)
Definition replay (ws : list (string * string)) (m : gmap string string)
  : gmap string string :=
  foldl (fun acc w => <[w.1 := w.2]> acc) m ws.

#[global] Instance request_eq_dec : EqDecision request.
Proof. solve_decision. Defined.

#[global] Instance event_eq_dec : EqDecision event.
Proof. solve_decision. Defined.

(** How many times an event occurs in a trace. *)
Definition occurrences (e : event) (tr : list event) : nat :=
  length (filter (fun x => x = e) tr).

(** ** Properties of a registry *)

(** Every version the client can choose (element 0 of a version list
    for [mc_version]) belongs to a project of the finite set [universe]. *)
Definition heads_within (registry : Registry) (mc_version : string)
    (universe : gset string) : Prop :=
  forall slug v vs,
    result (fetch_mod_versions registry slug mc_version) = Ret (v :: vs) ->
    project_id v ∈ universe.

(** The transport never raises for the requests of a walk. *)
Definition answers (registry : Registry) (mc_version : string) : Prop :=
  (forall slug, get_versions registry slug mc_version <> ConnectionError)
  /\ (forall proj_id, get_project registry proj_id <> ConnectionError).

(** A version record without its non-required edges, and a registry
    serving only such records. *)
Definition required_edges (deps : list Dependency) : list Dependency :=
  List.filter (fun dep => String.eqb (dependency_type dep) "required") deps.

Definition strip (ver : Version) : Version := {|
  project_id := project_id ver;
  files := files ver;
  dependencies := option_map required_edges (dependencies ver)
|}.

Definition map_reply {A B} (f : A -> B) (r : reply A) : reply B :=
  match r with
  | Replied resp =>
      Replied {| status_code := status_code resp; json := f (json resp) |}
  | ConnectionError => ConnectionError
  end.

Definition required_only (registry : Registry) : Registry := {|
  get_search := get_search registry;
  get_versions := fun slug mc_version =>
    map_reply (map strip) (get_versions registry slug mc_version);
  get_project := get_project registry
|}.

(** ** A finite registry snapshot, for concrete scenarios *)

Record Snapshot := {
  snap_projects : list (string * string);              (* project id, slug *)
  snap_versions : list (string * string * list Version) (* slug, release, versions *)
}.

Fixpoint find_project (ps : list (string * string)) (proj_id : string)
  : option string :=
  match ps with
  | [] => None
  | (p, s) :: ps' =>
      if String.eqb p proj_id then Some s else find_project ps' proj_id
  end.

Fixpoint find_versions (vs : list (string * string * list Version))
    (slug mc_version : string) : option (list Version) :=
  match vs with
  | [] => None
  | (s, g, l) :: vs' =>
      if String.eqb s slug && String.eqb g mc_version then Some l
      else find_versions vs' slug mc_version
  end.

(** The registry that answers 200 for what the snapshot holds and 404
    for everything else. *)
Definition serve (s : Snapshot) : Registry := {|
  get_search := fun _ => Replied {| status_code := 200; json := [] |};
  get_versions := fun slug mc_version =>
    match find_versions (snap_versions s) slug mc_version with
    | Some l => Replied {| status_code := 200; json := l |}
    | None => Replied {| status_code := 404; json := [] |}
    end;
  get_project := fun proj_id =>
    match find_project (snap_projects s) proj_id with
    | Some sl =>
        Replied {| status_code := 200; json := {| project_slug := sl |} |}
    | None =>
        Replied {| status_code := 404; json := {| project_slug := EmptyString |} |}
    end
|}.

(** The project ids of the versions a snapshot can hand out first. *)
Fixpoint snapshot_ids (vs : list (string * string * list Version))
  : gset string :=
  match vs with
  | [] => ∅
  | (_, _, l) :: vs' =>
      match l with
      | [] => snapshot_ids vs'
      | v :: _ => {[project_id v]} ∪ snapshot_ids vs'
      end
  end.

(** A registry whose transport is down. *)
Definition unreachable : Registry := {|
  get_search := fun _ => ConnectionError;
  get_versions := fun _ _ => ConnectionError;
  get_project := fun _ => ConnectionError
|}.

(** A snapshot served normally, except that project lookups fail at the
    transport. *)
Definition lookup_down (s : Snapshot) : Registry := {|
  get_search := get_search (serve s);
  get_versions := get_versions (serve s);
  get_project := fun _ => ConnectionError
|}.

Definition one_file (fname furl : string) : File :=
  {| filename := fname; url := furl |}.

Definition edge (kind proj_id : string) : Dependency :=
  {| dependency_type := kind; dep_project_id := proj_id |}.

(** *** The sodium scenario *)

Definition sodium_ver (url1 : string) : Version := {|
  project_id := "P-sodium";
  files := [one_file "sodium.jar" url1];
  dependencies := Some [edge "required" "P-fabric-api"]
|}.

Definition fabric_api_ver (url2 : string) : Version := {|
  project_id := "P-fabric-api";
  files := [one_file "fabric-api.jar" url2];
  dependencies := Some []
|}.

Definition sodium_registry (url1 url2 : string) : Snapshot := {|
  snap_projects := [("P-sodium", "sodium"); ("P-fabric-api", "fabric-api")];
  snap_versions := [("sodium", "1.20.1", [sodium_ver url1]);
                    ("fabric-api", "1.20.1", [fabric_api_ver url2])]
|}.

(** The same registry where "fabric-api" has no version for "1.20.1". *)
Definition sodium_registry_broken (url1 : string) : Snapshot := {|
  snap_projects := [("P-sodium", "sodium"); ("P-fabric-api", "fabric-api")];
  snap_versions := [("sodium", "1.20.1", [sodium_ver url1]);
                    ("fabric-api", "1.20.1", [])]
|}.

Definition download (mc_version : string) (mods : list string)
  : DownloadRequest :=
  {| req_mc_version := Some mc_version; req_mods := Some mods |}.

(** *** A cycle: A requires B and B requires A *)

Definition cycle_a : Version := {|
  project_id := "P-a";
  files := [one_file "a.jar" "url-a"];
  dependencies := Some [edge "required" "P-b"]
|}.

Definition cycle_b : Version := {|
  project_id := "P-b";
  files := [one_file "b.jar" "url-b"];
  dependencies := Some [edge "required" "P-a"]
|}.

Definition cycle_registry : Snapshot := {|
  snap_projects := [("P-a", "a"); ("P-b", "b")];
  snap_versions := [("a", "1.20.1", [cycle_a]); ("b", "1.20.1", [cycle_b])]
|}.

(** *** Two roots that require the same library *)

Definition lib_ver : Version := {|
  project_id := "P-lib";
  files := [one_file "lib.jar" "url-lib"];
  dependencies := None
|}.

Definition left_ver : Version := {|
  project_id := "P-left";
  files := [one_file "left.jar" "url-left"];
  dependencies := Some [edge "required" "P-lib"]
|}.

Definition right_ver : Version := {|
  project_id := "P-right";
  files := [one_file "right.jar" "url-right"];
  dependencies := Some [edge "optional" "P-a"; edge "required" "P-lib"]
|}.

Definition shared_registry : Snapshot := {|
  snap_projects := [("P-left", "left"); ("P-right", "right"); ("P-lib", "lib")];
  snap_versions := [("left", "1.20.1", [left_ver]);
                    ("right", "1.20.1", [right_ver]);
                    ("lib", "1.20.1", [lib_ver])]
|}.

(** *** A root whose only matching version ships no file *)

Definition hollow_ver : Version := {|
  project_id := "P-hollow";
  files := [];
  dependencies := Some []
|}.

Definition hollow_registry : Snapshot := {|
  snap_projects := [("P-hollow", "hollow")];
  snap_versions := [("hollow", "1.20.1", [hollow_ver])]
|}.

(** *** Two packages that ship a file of the same name *)




(** ** The closure of a seed *)

(** The walk follows the edge [dep] to the version [v']: the edge is
    required, its project lookup is answered with 200, and [v'] is
    element 0 of the version list of the slug found. *)
Definition follows (registry : Registry) (mc_version : string)
    (dep : Dependency) (v' : Version) : Prop :=
  String.eqb (dependency_type dep) "required" = true
  /\ exists resp vs,
       get_project registry (dep_project_id dep) = Replied resp
       /\ status_code resp = 200
       /\ result (fetch_mod_versions registry (project_slug (json resp))
                    mc_version) = Ret (v' :: vs).

Definition requires (registry : Registry) (mc_version : string)
    (v v' : Version) : Prop :=
  exists dep, dep ∈ default [] (dependencies v)
              /\ follows registry mc_version dep v'.

(** The versions that can be reached from [seed] along such edges. *)
Inductive reachable (registry : Registry) (mc_version : string)
    (seed : Version) : Version -> Prop :=
  | reach_seed : reachable registry mc_version seed seed
  | reach_edge v v' :
      reachable registry mc_version seed v ->
      requires registry mc_version v v' ->
      reachable registry mc_version seed v'.

(** [v] is element 0 of some version list of the registry. *)
Definition chosen (registry : Registry) (mc_version : string)
    (v : Version) : Prop :=
  exists slug vs,
    result (fetch_mod_versions registry slug mc_version) = Ret (v :: vs).

(** A project has one version in play: the versions on the stack [q] and
    the versions the registry can hand out first are told apart by their
    project id. *)
Definition consistent (registry : Registry) (mc_version : string)
    (q : list Version) : Prop :=
  forall v v',
    v ∈ q \/ chosen registry mc_version v ->
    v' ∈ q \/ chosen registry mc_version v' ->
    project_id v = project_id v' -> v = v'.

(** ** Shape of the requests *)

(** What a resolution may ask the registry: version lists for the
    requested release and project lookups, never a search. *)
Definition resolution_request (mc_version : string) (rq : request) : Prop :=
  match rq with
  | Search _ => False
  | Versions _ g => g = mc_version
  | ProjectInfo _ => True
  end.

(** The transport did not raise on [rq]. *)
Definition answered (registry : Registry) (rq : request) : Prop :=
  match rq with
  | Search limit => get_search registry limit <> ConnectionError
  | Versions slug g => get_versions registry slug g <> ConnectionError
  | ProjectInfo proj_id => get_project registry proj_id <> ConnectionError
  end.

#[global] Instance File_eq_dec : EqDecision File.
Proof. solve_decision. Defined.

#[global] Instance Dependency_eq_dec : EqDecision Dependency.
Proof. solve_decision. Defined.

#[global] Instance Version_eq_dec : EqDecision Version.
Proof. solve_decision. Defined.

(** The versions a snapshot can hand out first, whatever the release. *)
Fixpoint snapshot_heads (vs : list (string * string * list Version))
  : list Version :=
  match vs with
  | [] => []
  | (_, _, l) :: vs' =>
      match l with
      | [] => snapshot_heads vs'
      | v :: _ => v :: snapshot_heads vs'
      end
  end.

(** No two different versions of [l] belong to the same project. *)
Definition one_version_per_project (l : list Version) : Prop :=
  Forall (fun v => Forall (fun v' => project_id v = project_id v' -> v = v') l) l.

(** ** Roots that share a dependency *)

(** The root [slug] depends on the project [p]: the walk that starts from
    element 0 of the root's version list can reach a version of [p]
    along required edges that the registry resolves. *)
Definition depends_on (registry : Registry) (mc_version : string)
    (slug p : string) : Prop :=
  exists v vs w,
    result (fetch_mod_versions registry slug mc_version) = Ret (v :: vs)
    /\ reachable registry mc_version v w
    /\ project_id w = p.

(** What the loop over the roots does for the root [slug]: it fetches
    the version list and, when the list is not empty, walks from its
    element 0, with a processed set of that walk's own. *)
Definition root_trace (registry : Registry) (fuel : nat)
    (mc_version slug : string) : list event :=
  Get (Versions slug mc_version)
  :: match result (fetch_mod_versions registry slug mc_version) with
     | Ret (latest_ver :: _) =>
         trace (resolve_dependencies registry fuel latest_ver mc_version)
     | _ => []
     end.

(** The call has run the walks of all its roots: it ends with a mapping
    or with the 404 of an empty mapping. *)
Definition walked (registry : Registry) (fuel : nat) (data : DownloadRequest)
  : Prop :=
  (exists m, result (api_download registry fuel data) = Ret m)
  \/ result (api_download registry fuel data)
     = Raise (HTTPException 404
         "No compatible mods found for the specified Minecraft version").

(** *** The two roots again, when "lib" has no version for the release *)

Definition shared_registry_broken : Snapshot := {|
  snap_projects := [("P-left", "left"); ("P-right", "right"); ("P-lib", "lib")];
  snap_versions := [("left", "1.20.1", [left_ver]);
                    ("right", "1.20.1", [right_ver]);
                    ("lib", "1.20.1", [])]
|}.

(** *** A diamond: "top" requires "west" and "east", which both require
    "base" *)

Definition diamond_base : Version := {|
  project_id := "P-base";
  files := [one_file "base.jar" "url-base"];
  dependencies := Some []
|}.

Definition diamond_west : Version := {|
  project_id := "P-west";
  files := [one_file "west.jar" "url-west"];
  dependencies := Some [edge "required" "P-base"]
|}.

Definition diamond_east : Version := {|
  project_id := "P-east";
  files := [one_file "east.jar" "url-east"];
  dependencies := Some [edge "required" "P-base"]
|}.

Definition diamond_top : Version := {|
  project_id := "P-top";
  files := [one_file "top.jar" "url-top"];
  dependencies := Some [edge "required" "P-west"; edge "required" "P-east"]
|}.

Definition diamond_registry : Snapshot := {|
  snap_projects := [("P-top", "top"); ("P-west", "west"); ("P-east", "east");
                    ("P-base", "base")];
  snap_versions := [("top", "1.20.1", [diamond_top]);
                    ("west", "1.20.1", [diamond_west]);
                    ("east", "1.20.1", [diamond_east]);
                    ("base", "1.20.1", [diamond_base])]
|}.

(** ** Downloads of files *)

(** An exception raised in this part of the program, by the name of its
    class: an instance of [Exception], what [except Exception] catches.
    Interrupts of the interpreter are not modelled. *)
Inductive fault := Fault (class : string).

(** A value, or the exception of the read that should have given it. *)
Inductive attempt (A : Type) :=
  | Done (a : A)
  | Thrown (e : fault).
Arguments Done {A} a.
Arguments Thrown {A} e.

(** What [requests.get(url, stream=True)] answers for a file: the status
    code; the body [r.content], whose read may raise; and what
    [r.iter_content(n)] yields: some chunks, and then either the end of
    the stream ([None]) or an exception. *)
Record Download := {
  dl_status_code : Z;
  dl_content : attempt string;
  dl_iter_content : Z -> list string * option fault
}.

(** The call answers, or raises the exception [e]. *)
Inductive fetched :=
  | Fetched (r : Download)
  | FetchError (e : fault).

(** What the operating system refuses, on the disk [d] for the file at
    [path]: the exception of [open(path, "wb")], which then leaves the
    disk as it is; the exception of [f.write(chunk)] and the exception of
    the [close] at the end of the [with] block, each with what the file
    holds afterwards. [None] is a call that succeeds. The disk maps a path
    to the content of the file there. *)
Record Os := {
  open_fault : gmap string string -> string -> option fault;
  write_fault : gmap string string -> string -> string
                -> option (fault * string);
  close_fault : gmap string string -> string -> option (fault * string)
}.

(** [f.write(chunk)] on the file opened at [save_path], when it
    succeeds. *)
Definition file_write (save_path chunk : string) (disk : gmap string string)
  : gmap string string :=
  <[save_path := String.append (default EmptyString (disk !! save_path)) chunk]>
    disk.

(** [for chunk in chunks: f.write(chunk)]: the disk afterwards, and the
    exception of the first write that fails. *)
Fixpoint write_chunks (os : Os) (save_path : string) (chunks : list string)
    (disk : gmap string string) : gmap string string * option fault :=
  match chunks with
  | [] => (disk, None)
  | chunk :: chunks' =>
      match write_fault os disk save_path chunk with
      | Some (e, remains) => (<[save_path := remains]> disk, Some e)
      | None => write_chunks os save_path chunks' (file_write save_path chunk disk)
      end
  end.

(** [download_file]: the state is the disk. [open(save_path, "wb")]
    creates the file or empties it; the chunks are written as they come,
    so that a stream that breaks leaves what was written before; the
    [with] block closes the file however it is left, and an exception of
    that [close] is the one that propagates. *)
Definition download_file (os : Os) (get : string -> fetched)
    (url save_path : string) (disk : gmap string string)
  : gmap string string * attempt bool :=
  match get url with
  | FetchError e => (disk, Thrown e)
  | Fetched resp =>
      if dl_status_code resp =? 200 then
        match open_fault os disk save_path with
        | Some e => (disk, Thrown e)
        | None =>
            let opened := <[save_path := EmptyString]> disk in
            let '(chunks, broken) := dl_iter_content resp (1024 * 10) in
            let '(written, failed) := write_chunks os save_path chunks opened in
            let raised := match failed with
                          | Some e => Some e
                          | None => broken
                          end in
            match close_fault os written save_path with
            | Some (e, remains) => (<[save_path := remains]> written, Thrown e)
            | None =>
                match raised with
                | Some e => (written, Thrown e)
                | None => (written, Done true)
                end
            end
        end
      else (disk, Done false)
  end.

(** An operating system that refuses nothing. *)
Definition willing : Os := {|
  open_fault := fun _ _ => None;
  write_fault := fun _ _ _ => None;
  close_fault := fun _ _ => None
|}.

(** An operating system whose disk is full after one chunk: the second
    write fails and leaves what the first one wrote. *)
Definition cramped : Os := {|
  open_fault := fun _ _ => None;
  write_fault := fun d path chunk =>
    match d !! path with
    | Some EmptyString | None => None
    | Some content => Some (Fault "OSError", content)
    end;
  close_fault := fun _ _ => None
|}.

(** ** Writing the archive (the second half of [api_download]) *)

(** The lines printed while the archive is written. *)
Inductive printed :=
  | Downloading (filename : string)
  | FailedToDownload (filename : string)
  | ErrorDownloading (filename : string) (e : fault).

(** What the libraries do: the exception, if any, of [print(line)]; and
    for [zipf.writestr(name, data)] on an archive that holds [entries],
    the entries afterwards and the exception, if it raises. *)
Record Runtime := {
  print_fault : printed -> option fault;
  zip_write : list (string * string) -> string -> string
              -> list (string * string) * option fault
}.

(** The state of the loop: the entries of the archive, in order, and
    the lines that were printed, in order. *)
Record Packaging := {
  zip_entries : list (string * string);
  console : list printed
}.

(** The state with one more line on the console. *)
Definition say (line : printed) (st : Packaging) : Packaging :=
  {| zip_entries := zip_entries st; console := console st ++ [line] |}.

(** Each step gives the state afterwards and the exception it raises, if
    any. *)
Definition print (rt : Runtime) (line : printed) (st : Packaging)
  : Packaging * option fault :=
  match print_fault rt line with
  | Some e => (st, Some e)
  | None => (say line st, None)
  end.

Definition writestr (rt : Runtime) (filename content : string) (st : Packaging)
  : Packaging * option fault :=
  let '(entries, failure) := zip_write rt (zip_entries st) filename content in
  ({| zip_entries := entries; console := console st |}, failure).

(** The body of the [try]: the request, then [zipf.writestr(filename,
    r.content)] or the line of a failed download. *)
Definition fetch_into_archive (rt : Runtime) (get : string -> fetched)
    (filename url : string) (st : Packaging) : Packaging * option fault :=
  match get url with
  | FetchError e => (st, Some e)
  | Fetched r =>
      if dl_status_code r =? 200 then
        match dl_content r with
        | Thrown e => (st, Some e)
        | Done content => writestr rt filename content st
        end
      else print rt (FailedToDownload filename) st
  end.

(** The body of [for filename, url in files_to_download.items()]: the
    first [print] stands before the [try], the last one in the handler of
    [except Exception as e]. *)
Definition archive_file (rt : Runtime) (get : string -> fetched)
    (item : string * string) (st : Packaging) : Packaging * option fault :=
  let '(filename, url) := item in
  match print rt (Downloading filename) st with
  | (st1, Some e) => (st1, Some e)
  | (st1, None) =>
      match fetch_into_archive rt get filename url st1 with
      | (st2, None) => (st2, None)
      | (st2, Some e) => print rt (ErrorDownloading filename e) st2
      end
  end.

(** The loop over the items of the mapping, in the order [items]. *)
Fixpoint write_archive (rt : Runtime) (get : string -> fetched)
    (items : list (string * string)) (st : Packaging)
  : Packaging * option fault :=
  match items with
  | [] => (st, None)
  | item :: items' =>
      match archive_file rt get item st with
      | (st', None) => write_archive rt get items' st'
      | (st', Some e) => (st', Some e)
      end
  end.

Definition empty_archive : Packaging := {| zip_entries := []; console := [] |}.

(** The entry that the loop hands to [zipf.writestr] for an item, if it
    gets that far: the host answers 200 and the body can be read. *)
Definition delivered (get : string -> fetched) (item : string * string)
  : option (string * string) :=
  let '(filename, url) := item in
  match get url with
  | Fetched r =>
      if dl_status_code r =? 200 then
        match dl_content r with
        | Done content => Some (filename, content)
        | Thrown _ => None
        end
      else None
  | FetchError _ => None
  end.

(** Libraries that refuse nothing: every line is printed and every entry
    is stored under the name given. *)
Definition obliging : Runtime := {|
  print_fault := fun _ => None;
  zip_write := fun entries filename content =>
                 (entries ++ [(filename, content)], None)
|}.

(** Libraries that refuse the empty entry name and cannot print the name
    "bad.jar". *)
Definition fussy : Runtime := {|
  print_fault := fun line =>
    match line with
    | Downloading filename =>
        if String.eqb filename "bad.jar" then Some (Fault "UnicodeEncodeError")
        else None
    | _ => None
    end;
  zip_write := fun entries filename content =>
    if String.eqb filename EmptyString then (entries, Some (Fault "IndexError"))
    else (entries ++ [(filename, content)], None)
|}.

(** A file host that knows two URLs, answers 404 for a third, breaks off
    the body of a fourth and is unreachable for the others. *)
Definition host (url : string) : fetched :=
  if String.eqb url "url1" then
    Fetched {| dl_status_code := 200; dl_content := Done "sodium-bytes";
               dl_iter_content := fun _ => (["sodium"; "-"; "bytes"], None) |}
  else if String.eqb url "url2" then
    Fetched {| dl_status_code := 200; dl_content := Done "fabric-bytes";
               dl_iter_content := fun _ => (["fabric-bytes"], None) |}
  else if String.eqb url "url3" then
    Fetched {| dl_status_code := 404; dl_content := Done "not found";
               dl_iter_content := fun _ => (["not found"], None) |}
  else if String.eqb url "url4" then
    Fetched {| dl_status_code := 200;
               dl_content := Thrown (Fault "ChunkedEncodingError");
               dl_iter_content := fun _ =>
                 (["half"], Some (Fault "ChunkedEncodingError")) |}
  else FetchError (Fault "ConnectionError").


(** * Properties *)

#[local] Set Warnings "-clear-no-such-hyp".

(** ** The computation monad *)

Lemma bind_Ret {A B} (t : list event) (a : A) (f : A -> M B) :
  bind (t, Ret a) f = (t ++ trace (f a), result (f a)).
Proof. unfold bind, trace, result. by destruct (f a). Qed.

Lemma bind_ret_inv {A B} (m : M A) (f : A -> M B) tr b :
  bind m f = (tr, Ret b) ->
  exists t1 a t2, m = (t1, Ret a) /\ f a = (t2, Ret b) /\ tr = t1 ++ t2.
Proof.
  destruct m as [t1 [a|e|]]; simpl; try discriminate.
  destruct (f a) as [t2 o] eqn:Hf. intros [= <- ->]. by exists t1, a, t2.
Qed.

Lemma bind_trace_result {A B} (m : M A) (f : A -> M B) :
  bind m f =
  match result m with
  | Ret a => (trace m ++ trace (f a), result (f a))
  | Raise e => (trace m, Raise e)
  | OutOfFuel => (trace m, OutOfFuel)
  end.
Proof. destruct m as [t [a|e|]]; simpl; try done. by destruct (f a). Qed.

Lemma surjective_comp {A} (m : M A) : m = (trace m, result m).
Proof. by destruct m. Qed.

(** ** Traces *)

Lemma expansions_app t1 t2 : expansions (t1 ++ t2) = expansions t1 ++ expansions t2.
Proof. induction t1 as [|[]]; simpl; congruence. Qed.

Lemma requests_app t1 t2 : requests (t1 ++ t2) = requests t1 ++ requests t2.
Proof. induction t1 as [|[]]; simpl; congruence. Qed.

Lemma stores_app t1 t2 : stores (t1 ++ t2) = stores t1 ++ stores t2.
Proof. induction t1 as [|[]]; simpl; congruence. Qed.

Lemma occurrences_app e t1 t2 :
  occurrences e (t1 ++ t2) = (occurrences e t1 + occurrences e t2)%nat.
Proof. unfold occurrences. by rewrite filter_app, length_app. Qed.

Lemma occurrences_nil e : occurrences e [] = 0%nat.
Proof. done. Qed.

Lemma occurrences_cons e x tr :
  occurrences e (x :: tr)
  = ((if decide (x = e) then 1 else 0) + occurrences e tr)%nat.
Proof.
  unfold occurrences. rewrite filter_cons. by destruct (decide (x = e)).
Qed.

Lemma occurrences_expand p tr :
  occurrences (Expand p) tr = length (filter (fun q => q = p) (expansions tr)).
Proof.
  induction tr as [|e tr IH]; [done|].
  rewrite occurrences_cons, IH. destruct e as [rq|q|k u]; simpl expansions.
  - by destruct (decide (Get rq = Expand p)).
  - rewrite filter_cons.
    destruct (decide (Expand q = Expand p)) as [[= ->]|Hne].
    + by rewrite decide_True.
    + rewrite decide_False by congruence. done.
  - by destruct (decide (Store k u = Expand p)).
Qed.


(** ** The registry client, in closed form *)

Lemma requests_get_eq {A} rq (r : reply A) :
  requests_get rq r
  = ([Get rq], match r with
               | Replied resp => Ret resp
               | ConnectionError => Raise RequestException
               end).
Proof. by destruct r. Qed.

Lemma fetch_mod_versions_eq registry slug mc_version :
  fetch_mod_versions registry slug mc_version
  = ([Get (Versions slug mc_version)],
     match get_versions registry slug mc_version with
     | Replied resp => Ret (if status_code resp =? 200 then json resp else [])
     | ConnectionError => Raise RequestException
     end).
Proof.
  unfold fetch_mod_versions. rewrite requests_get_eq.
  destruct (get_versions registry slug mc_version) as [resp|]; [|done].
  simpl. by destruct (status_code resp =? 200).
Qed.

Lemma fetch_fabric_mods_eq registry limit :
  fetch_fabric_mods registry limit
  = ([Get (Search limit)],
     match get_search registry limit with
     | Replied resp =>
         Ret (if status_code resp =? 200
              then map (fun h => {| slug := hit_slug h; name := hit_title h |})
                       (json resp)
              else [])
     | ConnectionError => Raise RequestException
     end).
Proof.
  unfold fetch_fabric_mods. rewrite requests_get_eq.
  destruct (get_search registry limit) as [resp|]; [|done].
  simpl. by destruct (status_code resp =? 200).
Qed.

Lemma fetch_mod_versions_trace registry slug mc_version :
  trace (fetch_mod_versions registry slug mc_version)
  = [Get (Versions slug mc_version)].
Proof. by rewrite fetch_mod_versions_eq. Qed.

Lemma fetch_mod_versions_fuel registry slug mc_version :
  result (fetch_mod_versions registry slug mc_version) <> OutOfFuel.
Proof.
  rewrite fetch_mod_versions_eq. simpl.
  by destruct (get_versions registry slug mc_version).
Qed.

(** ** Writing files into the mapping *)

Lemma replay_app ws1 ws2 m : replay (ws1 ++ ws2) m = replay ws2 (replay ws1 m).
Proof. apply foldl_app. Qed.

Lemma replay_lookup ws m k :
  replay ws m !! k
  = match last_write k ws with
    | Some u => Some u
    | None => m !! k
    end.
Proof.
  revert m. induction ws as [|[k' u] ws IH]; intros m; simpl; [done|].
  unfold replay in *. simpl. rewrite IH.
  destruct (last_write k ws) as [u'|]; [done|].
  destruct (String.eqb_spec k' k) as [->|Hne].
  - by rewrite lookup_insert_eq.
  - by rewrite lookup_insert_ne.
Qed.

Lemma replay_dom ws m : dom m ⊆ dom (replay ws m).
Proof.
  intros k. rewrite !elem_of_dom, replay_lookup.
  destruct (last_write k ws); eauto.
Qed.

Lemma replay_empty_inv ws : replay ws ∅ = ∅ -> ws = [].
Proof.
  destruct ws as [|[k u] ws] using rev_ind; [done|].
  rewrite replay_app. simpl. unfold replay at 1. simpl. intros H.
  by apply insert_non_empty in H.
Qed.

Lemma add_files_eq fs m :
  add_files fs m
  = (map (fun f => Store (filename f) (url f)) fs,
     Ret (replay (map (fun f => (filename f, url f)) fs) m)).
Proof.
  revert m. induction fs as [|f fs IH]; intros m; [done|].
  cbn [add_files]. unfold tell. rewrite bind_Ret, IH. done.
Qed.

Lemma stores_map_Store fs :
  stores (map (fun f => Store (filename f) (url f)) fs)
  = map (fun f => (filename f, url f)) fs.
Proof. induction fs; simpl; congruence. Qed.

Lemma expansions_map_Store fs :
  expansions (map (fun f => Store (filename f) (url f)) fs) = [].
Proof. induction fs; simpl; congruence. Qed.

Lemma requests_map_Store fs :
  requests (map (fun f => Store (filename f) (url f)) fs) = [].
Proof. induction fs; simpl; congruence. Qed.

(** ** One dependency edge *)

Section Edge.

Variable registry : Registry.
Variable mc_version : string.

Implicit Types (dep : Dependency) (deps : list Dependency)
               (to_process : list Version).

Lemma check_dependencies_other_kind dep deps to_process :
  String.eqb (dependency_type dep) "required" = false ->
  check_dependencies registry (dep :: deps) mc_version to_process
  = check_dependencies registry deps mc_version to_process.
Proof. intros H. cbn [check_dependencies]. by rewrite H. Qed.

Lemma check_dependencies_lookup_raises dep deps to_process :
  String.eqb (dependency_type dep) "required" = true ->
  get_project registry (dep_project_id dep) = ConnectionError ->
  check_dependencies registry (dep :: deps) mc_version to_process
  = ([Get (ProjectInfo (dep_project_id dep))], Raise RequestException).
Proof.
  intros Hk Hp. cbn [check_dependencies]. rewrite Hk, requests_get_eq, Hp. done.
Qed.

Lemma check_dependencies_lookup_absent dep deps to_process resp :
  String.eqb (dependency_type dep) "required" = true ->
  get_project registry (dep_project_id dep) = Replied resp ->
  status_code resp <> 200 ->
  check_dependencies registry (dep :: deps) mc_version to_process
  = (Get (ProjectInfo (dep_project_id dep))
       :: trace (check_dependencies registry deps mc_version to_process),
     result (check_dependencies registry deps mc_version to_process)).
Proof.
  intros Hk Hp Hs. cbn [check_dependencies].
  rewrite Hk, requests_get_eq, Hp, bind_Ret.
  apply Z.eqb_neq in Hs. rewrite Hs. done.
Qed.

Lemma check_dependencies_lookup_found dep deps to_process resp :
  String.eqb (dependency_type dep) "required" = true ->
  get_project registry (dep_project_id dep) = Replied resp ->
  status_code resp = 200 ->
  let slug := project_slug (json resp) in
  let seen := [Get (ProjectInfo (dep_project_id dep));
               Get (Versions slug mc_version)] in
  check_dependencies registry (dep :: deps) mc_version to_process
  = match result (fetch_mod_versions registry slug mc_version) with
    | Ret dep_versions =>
        let rest :=
          check_dependencies registry deps mc_version
            match dep_versions with
            | [] => to_process
            | latest :: _ => latest :: to_process
            end in
        (seen ++ trace rest, result rest)
    | Raise e => (seen, Raise e)
    | OutOfFuel => (seen, OutOfFuel)
    end.
Proof.
  intros Hk Hp Hs slug seen. cbn [check_dependencies].
  rewrite Hk, requests_get_eq, Hp, bind_Ret. rewrite Hs. simpl negb. cbv iota.
  rewrite bind_trace_result, fetch_mod_versions_trace.
  fold slug.
  destruct (result (fetch_mod_versions registry slug mc_version))
    as [[|latest ?]|e|]; done.
Qed.

End Edge.

(** Case analysis on what the loop body does with the edge [dep]. *)
Ltac edge_cases registry mc_version dep deps q :=
  let Hk := fresh "Hkind" in
  let Hp := fresh "Hproj" in
  let Hs := fresh "Hstatus" in
  let resp := fresh "resp" in
  destruct (String.eqb (dependency_type dep) "required") eqn:Hk;
  [ destruct (get_project registry (dep_project_id dep)) as [resp|] eqn:Hp;
    [ destruct (decide (status_code resp = 200)) as [Hs|Hs];
      [ rewrite (check_dependencies_lookup_found
                   registry mc_version dep deps q resp Hk Hp Hs); cbv zeta
      | rewrite (check_dependencies_lookup_absent
                   registry mc_version dep deps q resp Hk Hp Hs) ]
    | rewrite (check_dependencies_lookup_raises
                 registry mc_version dep deps q Hk Hp) ]
  | rewrite (check_dependencies_other_kind registry mc_version dep deps q Hk) ].

(** ** The dependency loop of one version *)

Section Walk.

Variable registry : Registry.
Variable mc_version : string.

Abbreviation fetch := (fetch_mod_versions registry).
Abbreviation check := (check_dependencies registry).

Lemma check_dependencies_fuel deps q :
  result (check deps mc_version q) <> OutOfFuel.
Proof.
  revert q. induction deps as [|dep deps IH]; intros q; [done|].
  edge_cases registry mc_version dep deps q; simpl; try done.
  pose proof (fetch_mod_versions_fuel registry
                (project_slug (json resp)) mc_version) as Hf.
  destruct (result (fetch _ mc_version)) as [dv|e|]; simpl; done.
Qed.

Lemma check_dependencies_quiet deps q :
  expansions (trace (check deps mc_version q)) = []
  /\ stores (trace (check deps mc_version q)) = [].
Proof.
  revert q. induction deps as [|dep deps IH]; intros q; [done|].
  edge_cases registry mc_version dep deps q; simpl; try done.
  destruct (result (fetch _ mc_version)) as [dv|e|]; simpl; try done.
Qed.

(** What a completed dependency loop leaves on the stack: the versions
    chosen for its edges on top of what was there, and every version list
    it fetched that was not empty has its element 0 among them. *)
Lemma check_dependencies_pushes deps q q' :
  result (check deps mc_version q) = Ret q' ->
  exists pushed,
    q' = pushed ++ q
    /\ (forall v, v ∈ pushed ->
          exists slug vs, result (fetch slug mc_version) = Ret (v :: vs))
    /\ (forall rq, rq ∈ requests (trace (check deps mc_version q)) ->
          forall slug g, rq = Versions slug g ->
          g = mc_version
          /\ forall v vs, result (fetch slug mc_version) = Ret (v :: vs) ->
                          v ∈ pushed).
Proof.
  revert q q'. induction deps as [|dep deps IH]; intros q q'.
  - simpl. intros [= <-]. exists []. split_and!; [done| |].
    + intros v Hv. by apply elem_of_nil in Hv.
    + intros rq Hrq. by apply elem_of_nil in Hrq.
  - edge_cases registry mc_version dep deps q; simpl; try done.
    + destruct (result (fetch _ mc_version)) as [dv|e|] eqn:Hf; simpl; try done.
      intros Hq'. apply IH in Hq' as (pushed & -> & Hin & Hreq).
      destruct dv as [|latest dv].
      * exists pushed. split_and!; [done|done|].
        intros rq Hrq slug g ->.
        apply elem_of_cons in Hrq as [[=]|Hrq].
        apply elem_of_cons in Hrq as [[= -> ->]|Hrq].
        { split; [done|]. intros v vs Hv. congruence. }
        eauto.
      * exists (pushed ++ [latest]). split_and!.
        { by rewrite <- app_assoc. }
        { intros v [Hv|Hv%list_elem_of_singleton]%elem_of_app; [eauto|].
          subst v. eauto. }
        intros rq Hrq slug g ->.
        apply elem_of_cons in Hrq as [[=]|Hrq].
        apply elem_of_cons in Hrq as [[= -> ->]|Hrq].
        { split; [done|]. intros v vs Hv. rewrite Hf in Hv.
          injection Hv as <- <-. apply elem_of_app. right.
          by apply list_elem_of_singleton. }
        destruct (Hreq _ Hrq slug g eq_refl) as [-> Hall]. split; [done|].
        intros v vs Hv. apply elem_of_app. left. eauto.
    + intros Hq'. apply IH in Hq' as (pushed & -> & Hin & Hreq).
      exists pushed. split_and!; [done|done|].
      intros rq Hrq slug g ->.
      apply elem_of_cons in Hrq as [[=]|Hrq]. eauto.
    + intros Hq'. apply IH in Hq' as (pushed & -> & Hin & Hreq).
      exists pushed. split_and!; [done|done|]. eauto.
Qed.

End Walk.

(** ** One iteration of the walk *)

Section Iteration.

Variable registry : Registry.
Variable mc_version : string.

Abbreviation walk := (process registry).
Abbreviation deps_of ver := (default [] (dependencies ver)).

Lemma process_nil fuel processed m :
  walk fuel mc_version [] processed m = ([], Ret m).
Proof. by destruct fuel. Qed.

Lemma process_discard fuel ver rest processed m :
  project_id ver ∈ processed ->
  walk (S fuel) mc_version (ver :: rest) processed m
  = walk fuel mc_version rest processed m.
Proof. intros Hin. cbn [process]. by rewrite decide_True. Qed.

Lemma process_expand fuel ver rest processed m :
  project_id ver ∉ processed ->
  let written := map (fun f => Store (filename f) (url f)) (files ver) in
  let m' := replay (map (fun f => (filename f, url f)) (files ver)) m in
  let edges := check_dependencies registry (deps_of ver) mc_version rest in
  walk (S fuel) mc_version (ver :: rest) processed m
  = match result edges with
    | Ret to_process' =>
        let next := walk fuel mc_version to_process'
                         ({[project_id ver]} ∪ processed) m' in
        (Expand (project_id ver) :: written ++ trace edges ++ trace next,
         result next)
    | Raise e => (Expand (project_id ver) :: written ++ trace edges, Raise e)
    | OutOfFuel => (Expand (project_id ver) :: written ++ trace edges, OutOfFuel)
    end.
Proof.
  intros Hin written m' edges. cbn [process]. rewrite decide_False by done.
  unfold tell, add_version_files. rewrite bind_Ret, add_files_eq, bind_Ret.
  fold written m' edges. rewrite bind_trace_result. fold edges.
  cbn [trace result fst snd].
  destruct (result edges) as [q'|e|]; simpl; done.
Qed.

End Iteration.

(** Case analysis on what an iteration does with the popped version. *)
Ltac walk_step registry mc_version fuel ver rest processed m :=
  let Hseen := fresh "Hseen" in
  let Hnew := fresh "Hnew" in
  destruct (decide (project_id ver ∈ processed)) as [Hseen|Hnew];
  [ rewrite (process_discard registry mc_version fuel ver rest processed m Hseen)
  | rewrite (process_expand registry mc_version fuel ver rest processed m Hnew);
    cbv zeta ].

(** ** Invariants of the walk *)

Section Invariants.

Variable registry : Registry.
Variable mc_version : string.

Abbreviation walk := (process registry).
Abbreviation fetch := (fetch_mod_versions registry).
Abbreviation deps_of ver := (default [] (dependencies ver)).
Abbreviation written ver :=
  (map (fun f => Store (filename f) (url f)) (files ver)).

Lemma expansions_iteration ver (t1 t2 : list event) :
  expansions (Expand (project_id ver) :: written ver ++ t1 ++ t2)
  = project_id ver :: expansions t1 ++ expansions t2.
Proof.
  cbn [expansions]. by rewrite !expansions_app, expansions_map_Store.
Qed.

Lemma expansions_iteration_stop ver (t1 : list event) :
  expansions (Expand (project_id ver) :: written ver ++ t1)
  = project_id ver :: expansions t1.
Proof.
  cbn [expansions]. by rewrite expansions_app, expansions_map_Store.
Qed.

Lemma stores_iteration ver (t1 t2 : list event) :
  stores (Expand (project_id ver) :: written ver ++ t1 ++ t2)
  = map (fun f => (filename f, url f)) (files ver) ++ stores t1 ++ stores t2.
Proof.
  cbn [stores]. by rewrite !stores_app, stores_map_Store.
Qed.

Lemma requests_iteration ver (t1 t2 : list event) :
  requests (Expand (project_id ver) :: written ver ++ t1 ++ t2)
  = requests t1 ++ requests t2.
Proof.
  cbn [requests]. by rewrite !requests_app, requests_map_Store.
Qed.

(** No project is expanded twice, and none that was already processed. *)
Lemma process_expansions fuel to_process processed m :
  NoDup (expansions (trace (walk fuel mc_version to_process processed m)))
  /\ forall p,
       p ∈ expansions (trace (walk fuel mc_version to_process processed m)) ->
       p ∉ processed.
Proof.
  revert to_process processed m.
  induction fuel as [|fuel IH]; intros [|ver rest] processed m;
    try (split; [apply NoDup_nil_2 | by intros p Hp%elem_of_nil]).
  walk_step registry mc_version fuel ver rest processed m; [apply IH|].
  destruct (check_dependencies_quiet registry mc_version (deps_of ver) rest)
    as [Hq _].
  destruct (result (check_dependencies _ _ _ _)) as [q'|e|]; cbn [trace fst].
  - rewrite expansions_iteration, Hq. cbn [app].
    destruct (IH q' ({[project_id ver]} ∪ processed)
                (replay (map (fun f => (filename f, url f)) (files ver)) m))
      as [Hnd Hout].
    split.
    + apply NoDup_cons. split; [|done].
      intros Hin. apply Hout in Hin. set_solver.
    + intros p [->|Hp]%elem_of_cons; [done|].
      apply Hout in Hp. set_solver.
  - rewrite expansions_iteration_stop, Hq.
    split; [apply NoDup_singleton|].
    by intros p ->%list_elem_of_singleton.
  - rewrite expansions_iteration_stop, Hq.
    split; [apply NoDup_singleton|].
    by intros p ->%list_elem_of_singleton.
Qed.

(** The returned mapping is the initial one with the writes of the
    trace performed in order. *)
Lemma process_replay fuel to_process processed m tr m' :
  walk fuel mc_version to_process processed m = (tr, Ret m') ->
  m' = replay (stores tr) m.
Proof.
  revert to_process processed m tr.
  induction fuel as [|fuel IH]; intros [|ver rest] processed m tr;
    try (by intros [= <- <-]).
  walk_step registry mc_version fuel ver rest processed m; [apply IH|].
  destruct (check_dependencies_quiet registry mc_version (deps_of ver) rest)
    as [_ Hq].
  destruct (result (check_dependencies _ _ _ _)) as [q'|e|]; try done.
  intros [= <- Hres].
  rewrite stores_iteration, Hq, replay_app. cbn [app].
  eapply IH. rewrite <- Hres. apply surjective_comp.
Qed.

(** When the walk returns, every version that was on the stack, and
    element 0 of every non-empty version list it fetched, belongs to a
    project that was processed before or has been expanded. *)
Lemma process_covers fuel to_process processed m tr m' :
  walk fuel mc_version to_process processed m = (tr, Ret m') ->
  (forall v, v ∈ to_process ->
     project_id v ∈ processed \/ project_id v ∈ expansions tr)
  /\ (forall slug g, Versions slug g ∈ requests tr ->
        g = mc_version
        /\ forall v vs, result (fetch slug mc_version) = Ret (v :: vs) ->
             project_id v ∈ processed \/ project_id v ∈ expansions tr).
Proof.
  revert to_process processed m tr.
  induction fuel as [|fuel IH]; intros [|ver rest] processed m tr;
    try (intros [= <- <-]; split;
         [by intros v Hv%elem_of_nil | by intros s g Hg%elem_of_nil]);
    try discriminate.
  walk_step registry mc_version fuel ver rest processed m.
  { intros Hw. destruct (IH _ _ _ _ Hw) as [Hq Hr]. split; [|done].
    intros v [->|Hv]%elem_of_cons; eauto. }
  destruct (result (check_dependencies _ _ _ _)) as [q'|e|] eqn:Hedges;
    try done.
  intros [= <- Hres].
  destruct (check_dependencies_pushes _ _ _ _ _ Hedges)
    as (pushed & -> & _ & Hreq).
  edestruct IH as [Hq Hr]; [rewrite <- Hres; apply surjective_comp|].
  rewrite expansions_iteration, requests_iteration.
  assert (forall v, v ∈ pushed ++ rest ->
            project_id v ∈ processed
            \/ project_id v ∈ project_id ver :: expansions
                 (trace (check_dependencies registry (deps_of ver)
                           mc_version rest)) ++ expansions
                 (trace (walk fuel mc_version (pushed ++ rest)
                    ({[project_id ver]} ∪ processed)
                    (replay (map (fun f => (filename f, url f)) (files ver)) m))))
    as Hall.
  { intros v Hv. destruct (Hq v Hv) as [Hin|Hin].
    - apply elem_of_union in Hin as [->%elem_of_singleton|Hin]; [|by left].
      right. apply list_elem_of_here.
    - right. apply list_elem_of_further, elem_of_app. by right. }
  split.
  - intros v [->|Hv]%elem_of_cons.
    + right. apply list_elem_of_here.
    + apply Hall, elem_of_app. by right.
  - intros slug g [Hg|Hg]%elem_of_app.
    + destruct (Hreq _ Hg slug g eq_refl) as [-> Hhead]. split; [done|].
      intros v vs Hv. apply Hall, elem_of_app. left. eauto.
    + destruct (Hr slug g Hg) as [-> Hhead]. split; [done|].
      intros v vs Hv. destruct (Hhead v vs Hv) as [Hin|Hin].
      * apply elem_of_union in Hin as [->%elem_of_singleton|Hin]; [|by left].
        right. apply list_elem_of_here.
      * right. apply list_elem_of_further, elem_of_app. by right.
Qed.

(** More fuel does not change a walk that did not run out of it. *)
Lemma process_more_fuel fuel to_process processed m :
  result (walk fuel mc_version to_process processed m) <> OutOfFuel ->
  walk (S fuel) mc_version to_process processed m
  = walk fuel mc_version to_process processed m.
Proof.
  revert to_process processed m.
  induction fuel as [|fuel IH]; intros [|ver rest] processed m; try done.
  walk_step registry mc_version (S fuel) ver rest processed m;
    walk_step registry mc_version fuel ver rest processed m;
    try done; [apply IH|].
  destruct (result (check_dependencies _ _ _ _)) as [q'|e|]; try done.
  cbn [result snd]. intros Hr. by rewrite IH.
Qed.

Lemma process_fuel_le fuel fuel' to_process processed m :
  (fuel <= fuel')%nat ->
  result (walk fuel mc_version to_process processed m) <> OutOfFuel ->
  walk fuel' mc_version to_process processed m
  = walk fuel mc_version to_process processed m.
Proof.
  intros Hle Hr. induction Hle as [|fuel' Hle IH]; [done|].
  rewrite process_more_fuel; [done|]. by rewrite IH.
Qed.

(** The walk reaches the end of its loop when the versions the registry
    hands out belong to finitely many projects. *)
Lemma process_terminates (universe : gset string) :
  heads_within registry mc_version universe ->
  forall n processed, (size (universe ∖ processed) <= n)%nat ->
  forall to_process, (forall v, v ∈ to_process -> project_id v ∈ universe) ->
  exists fuel, forall m,
    result (walk fuel mc_version to_process processed m) <> OutOfFuel.
Proof.
  intros Hheads n. induction n as [|n IHn]; intros processed Hsize.
  - intros to_process. induction to_process as [|ver rest IHq]; intros Hin.
    + by exists 0%nat.
    + destruct (IHq (fun v Hv => Hin v (list_elem_of_further _ _ _ Hv)))
        as [fuel Hfuel].
      exists (S fuel). intros m. rewrite process_discard; [done|].
      assert (universe ∖ processed ≡ ∅) as Hempty.
      { apply size_empty_inv. lia. }
      pose proof (Hin ver (list_elem_of_here _ _)). set_solver.
  - intros to_process. induction to_process as [|ver rest IHq]; intros Hin.
    + by exists 0%nat.
    + destruct (decide (project_id ver ∈ processed)) as [Hseen|Hnew].
      * destruct (IHq (fun v Hv => Hin v (list_elem_of_further _ _ _ Hv)))
          as [fuel Hfuel].
        exists (S fuel). intros m. by rewrite process_discard.
      * pose proof (check_dependencies_fuel registry mc_version
                      (deps_of ver) rest) as Hedges.
        destruct (result (check_dependencies registry (deps_of ver)
                            mc_version rest)) as [q'|e|] eqn:Hres; [| |done].
        -- destruct (check_dependencies_pushes _ _ _ _ _ Hres)
             as (pushed & -> & Hpushed & _).
           destruct (IHn ({[project_id ver]} ∪ processed)) with
             (to_process := pushed ++ rest) as [fuel Hfuel].
           { pose proof (Hin ver (list_elem_of_here _ _)) as Hver.
             assert (universe ∖ processed
                     = {[project_id ver]}
                       ∪ universe ∖ ({[project_id ver]} ∪ processed)) as Heq.
             { apply set_eq. intros x.
               destruct (decide (x = project_id ver)); set_solver. }
             rewrite Heq, size_union in Hsize by set_solver.
             rewrite size_singleton in Hsize. lia. }
           { intros v [Hv|Hv]%elem_of_app.
             - destruct (Hpushed v Hv) as (slug & vs & Hf). eauto.
             - apply Hin. by apply list_elem_of_further. }
           exists (S fuel). intros m. rewrite process_expand by done.
           cbv zeta. rewrite Hres. apply Hfuel.
        -- exists 1%nat. intros m. rewrite process_expand by done. cbv zeta.
           by rewrite Hres.
Qed.

(** With a transport that answers, neither the dependency loop nor the
    walk raises. *)
Lemma check_dependencies_answers deps q :
  answers registry mc_version ->
  exists q', result (check_dependencies registry deps mc_version q) = Ret q'.
Proof.
  intros [Hv Hp]. revert q.
  induction deps as [|dep deps IH]; intros q; [by exists q|].
  edge_cases registry mc_version dep deps q; cbn [result snd]; try done.
  - rewrite fetch_mod_versions_eq. cbn [result snd].
    destruct (get_versions registry _ mc_version) eqn:Hg; [|by apply Hv in Hg].
    cbn [result snd]. apply IH.
  - by apply Hp in Hproj.
Qed.

Lemma process_answers fuel to_process processed m :
  answers registry mc_version ->
  result (walk fuel mc_version to_process processed m) <> OutOfFuel ->
  exists m', result (walk fuel mc_version to_process processed m) = Ret m'.
Proof.
  intros Hans. revert to_process processed m.
  induction fuel as [|fuel IH]; intros [|ver rest] processed m; try done;
    try (by exists m).
  walk_step registry mc_version fuel ver rest processed m; [apply IH|].
  destruct (check_dependencies_answers (deps_of ver) rest Hans) as [q' ->].
  cbn [result snd]. apply IH.
Qed.

End Invariants.

(** ** Edges that are not required *)

Section RequiredOnly.

Variable registry : Registry.
Variable mc_version : string.

Lemma required_edges_cons dep deps :
  required_edges (dep :: deps)
  = if String.eqb (dependency_type dep) "required"
    then dep :: required_edges deps
    else required_edges deps.
Proof. done. Qed.

Lemma deps_of_strip ver :
  default [] (dependencies (strip ver))
  = required_edges (default [] (dependencies ver)).
Proof. by destruct ver as [p fs [deps|]]. Qed.

Lemma fetch_mod_versions_required_only slug :
  fetch_mod_versions (required_only registry) slug mc_version
  = ([Get (Versions slug mc_version)],
     match result (fetch_mod_versions registry slug mc_version) with
     | Ret versions => Ret (map strip versions)
     | Raise e => Raise e
     | OutOfFuel => OutOfFuel
     end).
Proof.
  rewrite !fetch_mod_versions_eq. cbn [result snd required_only get_versions].
  destruct (get_versions registry slug mc_version) as [resp|]; [|done].
  cbn [map_reply status_code json]. by destruct (status_code resp =? 200).
Qed.

(** The dependency loop sees the same thing in a version and in the
    version without its non-required edges. *)
Lemma check_dependencies_required_only deps to_process :
  check_dependencies (required_only registry) (required_edges deps)
    mc_version (map strip to_process)
  = (trace (check_dependencies registry deps mc_version to_process),
     match result (check_dependencies registry deps mc_version to_process) with
     | Ret to_process' => Ret (map strip to_process')
     | Raise e => Raise e
     | OutOfFuel => OutOfFuel
     end).
Proof.
  revert to_process. induction deps as [|dep deps IH]; intros q; [done|].
  rewrite required_edges_cons.
  edge_cases registry mc_version dep deps q; cbn [trace result fst snd].
  - rewrite (check_dependencies_lookup_found (required_only registry)
               mc_version dep (required_edges deps) (map strip q) resp)
      by done.
    cbv zeta. rewrite fetch_mod_versions_required_only. cbn [result snd].
    destruct (result (fetch_mod_versions registry _ mc_version))
      as [[|latest dv]|e|]; cbn [trace result fst snd]; try done.
    + cbn [map]. by rewrite IH.
    + cbn [map].
      change (strip latest :: map strip q) with (map strip (latest :: q)).
      by rewrite IH.
  - rewrite (check_dependencies_lookup_absent (required_only registry)
               mc_version dep (required_edges deps) (map strip q) resp)
      by done.
    by rewrite IH.
  - by rewrite (check_dependencies_lookup_raises (required_only registry)
                  mc_version dep (required_edges deps) (map strip q)).
  - apply IH.
Qed.

Lemma process_required_only fuel to_process processed m :
  process (required_only registry) fuel mc_version
    (map strip to_process) processed m
  = process registry fuel mc_version to_process processed m.
Proof.
  revert to_process processed m.
  induction fuel as [|fuel IH]; intros [|ver rest] processed m; try done.
  cbn [map].
  walk_step registry mc_version fuel ver rest processed m.
  - rewrite process_discard by done. apply IH.
  - rewrite process_expand by done. cbv zeta.
    rewrite deps_of_strip, check_dependencies_required_only.
    cbn [trace result fst snd strip project_id files].
    destruct (result (check_dependencies registry _ mc_version rest))
      as [q'|e|]; try done.
    by rewrite IH.
Qed.

End RequiredOnly.

(** ** One root, and the loop over the roots *)

Lemma last_write_is_Some k u ws : (k, u) ∈ ws -> is_Some (last_write k ws).
Proof.
  induction ws as [|[k' u'] ws IH]; [by intros ?%elem_of_nil|].
  intros [[= <- <-]|Hin]%elem_of_cons; cbn [last_write].
  - destruct (last_write k ws); [eauto|]. rewrite String.eqb_refl. eauto.
  - destruct (IH Hin) as [x ->]. eauto.
Qed.


Lemma replay_union ws (m : gmap string string) :
  replay ws ∅ ∪ m = replay ws m.
Proof.
  apply map_eq. intros k. rewrite lookup_union, !replay_lookup, lookup_empty.
  destruct (last_write k ws), (m !! k); done.
Qed.

Lemma NoDup_filter_length (p : string) (l : list string) :
  NoDup l -> (length (filter (fun q => q = p) l) <= 1)%nat.
Proof.
  induction 1 as [|q l Hnotin Hnd IH]; [simpl; lia|].
  rewrite filter_cons. destruct (decide (q = p)) as [->|Hne]; [|done].
  assert (filter (fun q => q = p) l = []) as ->; [|simpl; lia].
  clear IH Hnd. induction l as [|x l IH]; [done|].
  rewrite filter_cons. apply not_elem_of_cons in Hnotin as [Hne Hnotin].
  rewrite decide_False by done. by apply IH.
Qed.

Section Endpoint.

Variable registry : Registry.

Abbreviation fetch := (fetch_mod_versions registry).
Abbreviation resolve := (resolve_dependencies registry).
Abbreviation gather := (collect registry).

(** Each project is expanded at most once by one walk. *)
Lemma resolve_dependencies_once fuel seed mc_version p :
  (occurrences (Expand p) (trace (resolve fuel seed mc_version)) <= 1)%nat.
Proof.
  rewrite occurrences_expand. apply NoDup_filter_length.
  apply (process_expansions registry mc_version fuel [seed] ∅ ∅).
Qed.

Lemma resolve_dependencies_replay fuel seed mc_version tr m :
  resolve fuel seed mc_version = (tr, Ret m) -> m = replay (stores tr) ∅.
Proof. apply process_replay. Qed.

(** The files of the seed are written first. *)
Lemma resolve_dependencies_seed fuel seed mc_version tr m :
  resolve fuel seed mc_version = (tr, Ret m) ->
  exists ws, stores tr = map (fun f => (filename f, url f)) (files seed) ++ ws.
Proof.
  unfold resolve_dependencies. destruct fuel as [|fuel]; [done|].
  rewrite process_expand by set_solver. cbv zeta.
  destruct (check_dependencies_quiet registry mc_version
              (default [] (dependencies seed)) []) as [_ Hq].
  destruct (result (check_dependencies _ _ _ _)) as [q'|e|]; try done.
  intros [= <- _]. rewrite stores_iteration, Hq. eauto.
Qed.

Lemma resolve_dependencies_seed_keys fuel seed mc_version tr m f :
  resolve fuel seed mc_version = (tr, Ret m) ->
  f ∈ files seed -> filename f ∈ dom m.
Proof.
  intros Hres Hf.
  destruct (resolve_dependencies_seed _ _ _ _ _ Hres) as [ws Hws].
  apply resolve_dependencies_replay in Hres as ->.
  apply elem_of_dom. rewrite replay_lookup.
  destruct (last_write_is_Some (filename f) (url f) (stores tr)) as [u ->];
    [|eauto].
  rewrite Hws. apply elem_of_app. left.
  apply (list_elem_of_fmap_2 (fun f => (filename f, url f))). done.
Qed.

Lemma collect_cons fuel slug slugs mc_version m :
  gather fuel (slug :: slugs) mc_version m
  = match result (fetch slug mc_version) with
    | Ret [] =>
        let rest := gather fuel slugs mc_version m in
        (Get (Versions slug mc_version) :: trace rest, result rest)
    | Ret (latest_ver :: _) =>
        let one := resolve fuel latest_ver mc_version in
        match result one with
        | Ret deps_files =>
            let rest := gather fuel slugs mc_version (deps_files ∪ m) in
            (Get (Versions slug mc_version) :: trace one ++ trace rest,
             result rest)
        | Raise e => (Get (Versions slug mc_version) :: trace one, Raise e)
        | OutOfFuel => (Get (Versions slug mc_version) :: trace one, OutOfFuel)
        end
    | Raise e => ([Get (Versions slug mc_version)], Raise e)
    | OutOfFuel => ([Get (Versions slug mc_version)], OutOfFuel)
    end.
Proof.
  cbn [collect]. rewrite bind_trace_result, fetch_mod_versions_trace.
  destruct (result (fetch slug mc_version)) as [[|latest vs]|e|]; try done.
  rewrite bind_trace_result.
  destruct (result (resolve fuel latest mc_version)); done.
Qed.

Lemma collect_replay fuel slugs mc_version m tr m' :
  gather fuel slugs mc_version m = (tr, Ret m') ->
  m' = replay (stores tr) m.
Proof.
  revert m tr. induction slugs as [|slug slugs IH]; intros m tr.
  { by intros [= <- <-]. }
  rewrite collect_cons.
  destruct (result (fetch slug mc_version)) as [[|latest vs]|e|]; try done.
  - cbv zeta. intros [= <- Hres]. cbn [stores].
    apply IH. rewrite <- Hres. apply surjective_comp.
  - cbv zeta. destruct (result (resolve fuel latest mc_version))
      as [deps_files|e|] eqn:Hone; try done.
    intros [= <- Hres]. cbn [stores]. rewrite stores_app, replay_app.
    rewrite <- (replay_union (stores (trace (resolve fuel latest mc_version)))).
    rewrite <- (resolve_dependencies_replay fuel latest mc_version
                  (trace (resolve fuel latest mc_version)) deps_files).
    + apply IH. rewrite <- Hres. apply surjective_comp.
    + rewrite <- Hone. apply surjective_comp.
Qed.

Lemma collect_expansions fuel slugs mc_version m p :
  (occurrences (Expand p) (trace (gather fuel slugs mc_version m))
   <= length slugs)%nat.
Proof.
  revert m. induction slugs as [|slug slugs IH]; intros m; [done|].
  rewrite collect_cons. cbn [length].
  destruct (result (fetch slug mc_version)) as [[|latest vs]|e|];
    cbv zeta; cbn [trace fst].
  - rewrite occurrences_cons, decide_False by done. specialize (IH m). lia.
  - pose proof (resolve_dependencies_once fuel latest mc_version p) as Honce.
    destruct (result (resolve fuel latest mc_version)) as [deps_files|e|];
      cbn [trace fst]; rewrite occurrences_cons, decide_False by done.
    + rewrite occurrences_app. specialize (IH (deps_files ∪ m)). lia.
    + lia.
    + lia.
  - rewrite occurrences_cons, decide_False, occurrences_nil by done. lia.
  - rewrite occurrences_cons, decide_False, occurrences_nil by done. lia.
Qed.

Lemma collect_none fuel slugs mc_version m :
  (forall slug, slug ∈ slugs -> result (fetch slug mc_version) = Ret []) ->
  gather fuel slugs mc_version m
  = (map (fun slug => Get (Versions slug mc_version)) slugs, Ret m).
Proof.
  induction slugs as [|slug slugs IH]; intros Hnone; [done|].
  rewrite collect_cons, (Hnone slug) by apply list_elem_of_here.
  cbv zeta. rewrite IH; [done|].
  intros s Hs. apply Hnone. by apply list_elem_of_further.
Qed.

Lemma collect_keys fuel slugs mc_version m tr m' :
  gather fuel slugs mc_version m = (tr, Ret m') ->
  dom m ⊆ dom m'
  /\ forall slug v vs f,
       slug ∈ slugs -> result (fetch slug mc_version) = Ret (v :: vs) ->
       f ∈ files v -> filename f ∈ dom m'.
Proof.
  intros Hres. split.
  { apply collect_replay in Hres as ->. apply replay_dom. }
  revert m tr Hres. induction slugs as [|slug slugs IH]; intros m tr.
  { intros _ slug v vs f Hin. by apply elem_of_nil in Hin. }
  rewrite collect_cons.
  destruct (result (fetch slug mc_version)) as [[|latest vs']|e|] eqn:Hfetch;
    try done; cbv zeta.
  - intros [= <- Hres] s v vs f [->|Hs]%elem_of_cons Hv Hf; [congruence|].
    eapply IH; [|done..]. rewrite <- Hres. apply surjective_comp.
  - destruct (result (resolve fuel latest mc_version))
      as [deps_files|e|] eqn:Hone; try done.
    intros [= <- Hres] s v vs f [->|Hs]%elem_of_cons Hv Hf.
    + rewrite Hfetch in Hv. injection Hv as <- <-.
      assert (filename f ∈ dom (deps_files ∪ m)) as Hkey.
      { rewrite dom_union. apply elem_of_union. left.
        eapply resolve_dependencies_seed_keys; [|done].
        rewrite <- Hone. apply surjective_comp. }
      assert (gather fuel slugs mc_version (deps_files ∪ m)
              = (trace (gather fuel slugs mc_version (deps_files ∪ m)),
                 Ret m')) as Hrest.
      { rewrite <- Hres. apply surjective_comp. }
      apply collect_replay in Hrest as ->. by apply replay_dom.
    + eapply IH; [|done..]. rewrite <- Hres. apply surjective_comp.
Qed.

Lemma fetch_mod_versions_answers slug mc_version :
  answers registry mc_version ->
  exists versions, result (fetch slug mc_version) = Ret versions.
Proof.
  intros [Hv _]. rewrite fetch_mod_versions_eq. cbn [result snd].
  destruct (get_versions registry slug mc_version) eqn:Hg; [eauto|].
  by apply Hv in Hg.
Qed.

(** With a transport that answers and finitely many projects, one
    budget is enough for every root. *)
Lemma collect_terminates slugs mc_version universe :
  answers registry mc_version ->
  heads_within registry mc_version universe ->
  exists fuel, forall fuel', (fuel <= fuel')%nat ->
    forall m, exists m', result (gather fuel' slugs mc_version m) = Ret m'.
Proof.
  intros Hans Hheads. induction slugs as [|slug slugs [fuel2 IH]].
  { exists 0%nat. intros fuel' _ m. by exists m. }
  destruct (fetch_mod_versions_answers slug mc_version Hans)
    as [[|latest vs] Hfetch].
  { exists fuel2. intros fuel' Hle m. rewrite collect_cons, Hfetch.
    cbv zeta. cbn [result snd]. by apply IH. }
  destruct (process_terminates registry mc_version universe Hheads
              (size (universe ∖ ∅)) ∅ (le_n _) [latest]) as [fuel1 Hwalk].
  { intros v ->%list_elem_of_singleton. eauto. }
  exists (fuel1 `max` fuel2)%nat. intros fuel' Hle m.
  rewrite collect_cons, Hfetch. cbv zeta.
  destruct (process_answers registry mc_version fuel' [latest] ∅ ∅ Hans)
    as [deps_files Hone].
  { rewrite (process_fuel_le registry mc_version fuel1 fuel') by (done || lia).
    apply Hwalk. }
  unfold resolve_dependencies. rewrite Hone. cbn [result snd].
  apply IH. lia.
Qed.

(** The two branches of the request check. *)
Lemma api_download_rejects fuel data :
  truthy_str (req_mc_version data) = false
  \/ truthy_list (default [] (req_mods data)) = false ->
  api_download registry fuel data
  = ([], Raise (HTTPException 400 "Minecraft version and mod list required")).
Proof.
  intros H. unfold api_download.
  destruct H as [-> | ->]; [done|]. by rewrite orb_true_r.
Qed.

Lemma api_download_accepts fuel data :
  truthy_str (req_mc_version data) = true ->
  truthy_list (default [] (req_mods data)) = true ->
  let found := gather fuel (default [] (req_mods data))
                      (default EmptyString (req_mc_version data)) ∅ in
  api_download registry fuel data
  = (trace found,
     match result found with
     | Ret files_to_download =>
         if bool_decide (files_to_download = ∅) then
           Raise (HTTPException 404
             "No compatible mods found for the specified Minecraft version")
         else Ret files_to_download
     | Raise e => Raise e
     | OutOfFuel => OutOfFuel
     end).
Proof.
  intros Hv Hm found. unfold api_download. rewrite Hv, Hm. cbn [negb orb].
  fold found. rewrite bind_trace_result.
  destruct (result found) as [m|e|]; try done.
  destruct (bool_decide (m = ∅)); cbn [trace result fst snd raise ret];
    by rewrite app_nil_r.
Qed.

End Endpoint.

(** ** Registries served from a snapshot *)

Lemma find_versions_ids vs slug mc_version v l :
  find_versions vs slug mc_version = Some (v :: l) ->
  project_id v ∈ snapshot_ids vs.
Proof.
  induction vs as [|[[s g] l'] vs IH]; [done|]. cbn [find_versions snapshot_ids].
  destruct (String.eqb s slug && String.eqb g mc_version).
  - intros [= ->]. set_solver.
  - intros H. apply IH in H. destruct l'; set_solver.
Qed.

Lemma serve_heads_within s mc_version :
  heads_within (serve s) mc_version (snapshot_ids (snap_versions s)).
Proof.
  intros slug v vs. rewrite fetch_mod_versions_eq.
  cbn [result snd serve get_versions].
  destruct (find_versions (snap_versions s) slug mc_version) as [l|] eqn:Hf;
    cbn [status_code json]; [|done].
  intros [= ->]. eapply find_versions_ids. done.
Qed.

Lemma serve_answers s mc_version : answers (serve s) mc_version.
Proof.
  split.
  - intros slug. cbn [serve get_versions]. by destruct (find_versions _ _ _).
  - intros p. cbn [serve get_project]. by destruct (find_project _ _).
Qed.

Lemma heads_within_mono registry mc_version (u1 u2 : gset string) :
  u1 ⊆ u2 ->
  heads_within registry mc_version u1 -> heads_within registry mc_version u2.
Proof. intros Hsub H slug v vs Hf. apply Hsub. eauto. Qed.

(** ** Fuel and the endpoint *)

Section EndpointFuel.

Variable registry : Registry.

Lemma collect_fuel_le fuel fuel' slugs mc_version m :
  (fuel <= fuel')%nat ->
  result (collect registry fuel slugs mc_version m) <> OutOfFuel ->
  collect registry fuel' slugs mc_version m
  = collect registry fuel slugs mc_version m.
Proof.
  intros Hle. revert m. induction slugs as [|slug slugs IH]; intros m; [done|].
  rewrite !collect_cons.
  destruct (result (fetch_mod_versions registry slug mc_version))
    as [[|latest vs]|e|]; try done; cbv zeta; cbn [result snd].
  - intros H. by rewrite IH.
  - unfold resolve_dependencies.
    destruct (result (process registry fuel mc_version [latest] ∅ ∅))
      as [deps_files|e|] eqn:Hone; try done.
    + rewrite (process_fuel_le registry mc_version fuel fuel') by
        (done || by rewrite Hone).
      rewrite Hone. cbn [result snd]. intros H. by rewrite IH.
    + rewrite (process_fuel_le registry mc_version fuel fuel') by
        (done || by rewrite Hone).
      by rewrite Hone.
Qed.

Lemma api_download_fuel_le fuel fuel' data :
  (fuel <= fuel')%nat ->
  result (api_download registry fuel data) <> OutOfFuel ->
  api_download registry fuel' data = api_download registry fuel data.
Proof.
  intros Hle.
  destruct (truthy_str (req_mc_version data)) eqn:Hv;
    [|by rewrite (api_download_rejects registry fuel),
         (api_download_rejects registry fuel') by auto].
  destruct (truthy_list (default [] (req_mods data))) eqn:Hm;
    [|by rewrite (api_download_rejects registry fuel),
         (api_download_rejects registry fuel') by auto].
  rewrite (api_download_accepts registry fuel),
    (api_download_accepts registry fuel') by done. cbv zeta. cbn [result snd].
  intros H. rewrite (collect_fuel_le fuel fuel'); [done|done|].
  by destruct (result (collect _ _ _ _ _)).
Qed.

Lemma api_download_replay fuel data tr m :
  api_download registry fuel data = (tr, Ret m) -> m = replay (stores tr) ∅.
Proof.
  destruct (truthy_str (req_mc_version data)) eqn:Hv;
    [|by rewrite api_download_rejects by auto].
  destruct (truthy_list (default [] (req_mods data))) eqn:Hm;
    [|by rewrite api_download_rejects by auto].
  rewrite api_download_accepts by done. cbv zeta.
  destruct (result (collect _ _ _ _ _)) as [m'|e|] eqn:Hres; try done.
  destruct (bool_decide (m' = ∅)); [done|]. intros [= <- <-].
  eapply collect_replay. rewrite <- Hres. apply surjective_comp.
Qed.

Lemma api_download_expansions fuel data p :
  (occurrences (Expand p) (trace (api_download registry fuel data))
   <= length (default [] (req_mods data)))%nat.
Proof.
  destruct (truthy_str (req_mc_version data)) eqn:Hv;
    [|rewrite api_download_rejects by auto; cbn; lia].
  destruct (truthy_list (default [] (req_mods data))) eqn:Hm;
    [|rewrite api_download_rejects by auto; cbn; lia].
  rewrite api_download_accepts by done. cbv zeta. cbn [trace fst].
  apply collect_expansions.
Qed.

End EndpointFuel.

Lemma occurrences_expansions p tr :
  p ∈ expansions tr -> (1 <= occurrences (Expand p) tr)%nat.
Proof.
  induction tr as [|e tr IH]; [by intros ?%elem_of_nil|].
  rewrite occurrences_cons. destruct e as [rq|q|k u]; cbn [expansions].
  - intros H%IH. lia.
  - intros [->|H%IH]%elem_of_cons; [|lia]. rewrite decide_True by done. lia.
  - intros H%IH. lia.
Qed.



(** With a transport that answers and finitely many projects, a walk
    returns a mapping for every budget from some budget on. *)
Lemma resolve_dependencies_returns registry mc_version seed
    (universe : gset string) :
  answers registry mc_version ->
  heads_within registry mc_version universe ->
  exists fuel, forall fuel', (fuel <= fuel')%nat ->
    exists tr m,
      resolve_dependencies registry fuel' seed mc_version = (tr, Ret m).
Proof.
  intros Hans Hheads.
  assert (heads_within registry mc_version
            ({[project_id seed]} ∪ universe)) as Hheads'.
  { apply (heads_within_mono _ _ universe); [set_solver|done]. }
  destruct (process_terminates registry mc_version
              ({[project_id seed]} ∪ universe) Hheads'
              (size (({[project_id seed]} ∪ universe) ∖ ∅)) ∅ (le_n _)
              [seed]) as [fuel Hfuel].
  { intros v ->%list_elem_of_singleton. set_solver. }
  exists fuel. intros fuel' Hle. unfold resolve_dependencies.
  destruct (process_answers registry mc_version fuel' [seed] ∅ ∅ Hans)
    as [m Hm].
  { rewrite (process_fuel_le registry mc_version fuel fuel') by done.
    apply Hfuel. }
  exists (trace (process registry fuel' mc_version [seed] ∅ ∅)), m.
  rewrite <- Hm. apply surjective_comp.
Qed.

(** * The claims *)

(** C9. The download endpoint rejects a request whose release version is
    missing or empty, or whose list of root packages is missing or empty,
    with HTTP 400, and it does so before any registry request is issued
    and before anything is written into a mapping: the trace of the call
    is empty. *)
Theorem C9_incomplete_request_is_rejected registry fuel data :
  req_mc_version data = None \/ req_mc_version data = Some EmptyString
  \/ req_mods data = None \/ req_mods data = Some [] ->
  api_download registry fuel data
  = ([], Raise (HTTPException 400 "Minecraft version and mod list required")).
Proof.
  intros H. apply api_download_rejects.
  destruct H as [H|[H|[H|H]]]; rewrite H; auto.
Qed.

(** An empty release, and a missing list of roots, against a registry
    that could not answer anyway. *)
Lemma C9_incomplete_request_witness :
  api_download unreachable 3
    {| req_mc_version := Some EmptyString; req_mods := Some ["sodium"] |}
  = ([], Raise (HTTPException 400 "Minecraft version and mod list required"))
  /\ api_download unreachable 3
       {| req_mc_version := Some "1.20.1"; req_mods := None |}
     = ([], Raise (HTTPException 400 "Minecraft version and mod list required")).
Proof.
  split.
  - apply C9_incomplete_request_is_rejected. right. left. reflexivity.
  - apply C9_incomplete_request_is_rejected. right. right. left. reflexivity.
Defined.

(** C6. In the sodium scenario (root "sodium" for release "1.20.1" with
    the file sodium.jar and one required edge to "P-fabric-api", which is
    the package "fabric-api" with the file fabric-api.jar and no
    dependency), the call returns exactly the mapping of sodium.jar to
    url1 and fabric-api.jar to url2, as soon as the walk may run two
    iterations. *)
Theorem C6_sodium_scenario url1 url2 fuel :
  (2 <= fuel)%nat ->
  api_download (serve (sodium_registry url1 url2)) fuel
    (download "1.20.1" ["sodium"])
  = ([Get (Versions "sodium" "1.20.1"); Expand "P-sodium";
      Store "sodium.jar" url1; Get (ProjectInfo "P-fabric-api");
      Get (Versions "fabric-api" "1.20.1"); Expand "P-fabric-api";
      Store "fabric-api.jar" url2],
     Ret {[ "sodium.jar" := url1; "fabric-api.jar" := url2 ]}).
Proof.
  intros Hfuel.
  rewrite (api_download_fuel_le _ 2 fuel) by (done || by vm_compute).
  by vm_compute.
Qed.

(** The scenario with two iterations. *)
Lemma C6_sodium_scenario_witness :
  (2 <= 2)%nat
  /\ api_download (serve (sodium_registry "url1" "url2")) 2
       (download "1.20.1" ["sodium"])
     = ([Get (Versions "sodium" "1.20.1"); Expand "P-sodium";
         Store "sodium.jar" "url1"; Get (ProjectInfo "P-fabric-api");
         Get (Versions "fabric-api" "1.20.1"); Expand "P-fabric-api";
         Store "fabric-api.jar" "url2"],
        Ret {[ "sodium.jar" := "url1"; "fabric-api.jar" := "url2" ]}).
Proof.
  split; [apply le_n|].
  apply (C6_sodium_scenario "url1" "url2" 2). apply le_n.
Defined.

(** C4. A required edge whose project lookup is answered with a status
    other than 200, or whose version list comes back empty, is skipped:
    the dependency loop goes on with the remaining edges and an unchanged
    stack, and nothing is raised. In the sodium scenario where
    "fabric-api" has no version for "1.20.1", the call returns exactly
    the mapping of sodium.jar to url1. *)
Theorem C4_unresolvable_edge_is_skipped :
  (forall registry mc_version dep deps to_process resp,
     String.eqb (dependency_type dep) "required" = true ->
     get_project registry (dep_project_id dep) = Replied resp ->
     status_code resp <> 200 ->
     let rest := check_dependencies registry deps mc_version to_process in
     check_dependencies registry (dep :: deps) mc_version to_process
     = (Get (ProjectInfo (dep_project_id dep)) :: trace rest, result rest))
  /\ (forall registry mc_version dep deps to_process resp,
        String.eqb (dependency_type dep) "required" = true ->
        get_project registry (dep_project_id dep) = Replied resp ->
        status_code resp = 200 ->
        result (fetch_mod_versions registry (project_slug (json resp))
                  mc_version) = Ret [] ->
        let rest := check_dependencies registry deps mc_version to_process in
        check_dependencies registry (dep :: deps) mc_version to_process
        = (Get (ProjectInfo (dep_project_id dep))
             :: Get (Versions (project_slug (json resp)) mc_version)
             :: trace rest,
           result rest))
  /\ (forall url1 fuel,
        (1 <= fuel)%nat ->
        api_download (serve (sodium_registry_broken url1)) fuel
          (download "1.20.1" ["sodium"])
        = ([Get (Versions "sodium" "1.20.1"); Expand "P-sodium";
            Store "sodium.jar" url1; Get (ProjectInfo "P-fabric-api");
            Get (Versions "fabric-api" "1.20.1")],
           Ret {[ "sodium.jar" := url1 ]})).
Proof.
  split_and!.
  - intros registry mc_version dep deps q resp Hk Hp Hs rest.
    exact (check_dependencies_lookup_absent registry mc_version dep deps q
             resp Hk Hp Hs).
  - intros registry mc_version dep deps q resp Hk Hp Hs Hnone rest.
    rewrite (check_dependencies_lookup_found registry mc_version dep deps q
               resp Hk Hp Hs).
    cbv zeta. by rewrite Hnone.
  - intros url1 fuel Hfuel.
    rewrite (api_download_fuel_le _ 1 fuel) by (done || by vm_compute).
    by vm_compute.
Qed.

(** An edge to an unknown project, an edge to a project without a
    version, and the scenario with one iteration. *)
Lemma C4_unresolvable_edge_witness :
  check_dependencies (serve hollow_registry)
    [edge "required" "P-gone"] "1.20.1" [hollow_ver]
  = ([Get (ProjectInfo "P-gone")], Ret [hollow_ver])
  /\ check_dependencies (serve (sodium_registry_broken "url1"))
       [edge "required" "P-fabric-api"] "1.20.1" []
     = ([Get (ProjectInfo "P-fabric-api");
         Get (Versions "fabric-api" "1.20.1")], Ret [])
  /\ api_download (serve (sodium_registry_broken "url1")) 1
       (download "1.20.1" ["sodium"])
     = ([Get (Versions "sodium" "1.20.1"); Expand "P-sodium";
         Store "sodium.jar" "url1"; Get (ProjectInfo "P-fabric-api");
         Get (Versions "fabric-api" "1.20.1")],
        Ret {[ "sodium.jar" := "url1" ]}).
Proof.
  split_and!.
  - apply (proj1 C4_unresolvable_edge_is_skipped (serve hollow_registry)
             "1.20.1" (edge "required" "P-gone") [] [hollow_ver]
             {| status_code := 404; json := {| project_slug := EmptyString |} |});
      [reflexivity | reflexivity | discriminate].
  - apply (proj1 (proj2 C4_unresolvable_edge_is_skipped)
             (serve (sodium_registry_broken "url1"))
             "1.20.1" (edge "required" "P-fabric-api") [] []
             {| status_code := 200;
                json := {| project_slug := "fabric-api" |} |});
      reflexivity.
  - apply (proj2 (proj2 C4_unresolvable_edge_is_skipped) "url1" 1%nat).
    apply le_n.
Defined.

(** C5. An edge whose kind is not "required" (optional, incompatible,
    embedded or any other string) is passed over by the dependency loop
    without a request and without a change of the stack; hence a walk
    issues the same requests, expands the same projects, writes the same
    files and has the same outcome as the walk over the registry from
    which every such edge is deleted: what a non-required edge points to
    shows up only if a required edge leads to it. *)
Theorem C5_non_required_edges_are_ignored registry mc_version :
  (forall dep deps to_process,
     String.eqb (dependency_type dep) "required" = false ->
     check_dependencies registry (dep :: deps) mc_version to_process
     = check_dependencies registry deps mc_version to_process)
  /\ (forall fuel seed,
        resolve_dependencies registry fuel seed mc_version
        = resolve_dependencies (required_only registry) fuel (strip seed)
            mc_version).
Proof.
  split.
  - intros dep deps q Hk. by apply check_dependencies_other_kind.
  - intros fuel seed. unfold resolve_dependencies.
    by rewrite <- (process_required_only registry mc_version fuel [seed]).
Qed.

(** The optional edge of "right" is passed over. *)
Lemma C5_non_required_edges_witness :
  check_dependencies (serve shared_registry)
    [edge "optional" "P-a"; edge "required" "P-lib"] "1.20.1" []
  = check_dependencies (serve shared_registry)
      [edge "required" "P-lib"] "1.20.1" [].
Proof.
  apply (proj1 (C5_non_required_edges_are_ignored
                  (serve shared_registry) "1.20.1")).
  reflexivity.
Defined.

(** C10. Every filename among the seed's own files is a key of the
    mapping that [resolve_dependencies] returns; the key set only grows
    during the walk: the mapping held after any number of the walk's
    writes has its keys among those of the result, and from whatever
    state the loop is in, the keys present then are keys of the result.
    When the transport answers and the projects are finitely many, the
    walk does return such a mapping for every large enough budget. *)
Theorem C10_seed_filenames_are_keys registry mc_version :
  (forall fuel seed tr m,
     resolve_dependencies registry fuel seed mc_version = (tr, Ret m) ->
     (forall f, f ∈ files seed -> filename f ∈ dom m)
     /\ (forall ws1 ws2, stores tr = ws1 ++ ws2 ->
           dom (replay ws1 ∅) ⊆ dom m))
  /\ (forall fuel to_process processed m0 tr m,
        process registry fuel mc_version to_process processed m0 = (tr, Ret m) ->
        dom m0 ⊆ dom m)
  /\ (forall seed (universe : gset string),
        answers registry mc_version ->
        heads_within registry mc_version universe ->
        exists fuel, forall fuel', (fuel <= fuel')%nat ->
          exists m,
            result (resolve_dependencies registry fuel' seed mc_version)
            = Ret m
            /\ forall f, f ∈ files seed -> filename f ∈ dom m).
Proof.
  split_and!.
  - intros fuel seed tr m Hres. split.
    + intros f Hf. by eapply resolve_dependencies_seed_keys.
    + intros ws1 ws2 Hws. apply resolve_dependencies_replay in Hres as ->.
      rewrite Hws, replay_app. apply replay_dom.
  - intros fuel q processed m0 tr m Hres.
    apply process_replay in Hres as ->. apply replay_dom.
  - intros seed universe Hans Hheads.
    destruct (resolve_dependencies_returns registry mc_version seed universe
                Hans Hheads) as [fuel Hfuel].
    exists fuel. intros fuel' Hle. destruct (Hfuel fuel' Hle) as (tr & m & Hres).
    exists m. split; [by rewrite Hres|].
    intros f Hf. by eapply resolve_dependencies_seed_keys.
Qed.

(** The walk from A in the cycle keeps a.jar. *)
Lemma C10_seed_filenames_witness :
  resolve_dependencies (serve cycle_registry) 3 cycle_a "1.20.1"
  = ([Expand "P-a"; Store "a.jar" "url-a";
      Get (ProjectInfo "P-b"); Get (Versions "b" "1.20.1");
      Expand "P-b"; Store "b.jar" "url-b";
      Get (ProjectInfo "P-a"); Get (Versions "a" "1.20.1")],
     Ret {[ "a.jar" := "url-a"; "b.jar" := "url-b" ]})
  /\ "a.jar" ∈ dom ({[ "a.jar" := "url-a"; "b.jar" := "url-b" ]}
                      : gmap string string).
Proof.
  assert (resolve_dependencies (serve cycle_registry) 3 cycle_a "1.20.1"
          = ([Expand "P-a"; Store "a.jar" "url-a";
              Get (ProjectInfo "P-b"); Get (Versions "b" "1.20.1");
              Expand "P-b"; Store "b.jar" "url-b";
              Get (ProjectInfo "P-a"); Get (Versions "a" "1.20.1")],
             Ret {[ "a.jar" := "url-a"; "b.jar" := "url-b" ]})) as Hrun.
  { vm_compute. reflexivity. }
  split; [exact Hrun|].
  apply (proj1 (proj1 (C10_seed_filenames_are_keys (serve cycle_registry)
                         "1.20.1") _ _ _ _ Hrun)
           (one_file "a.jar" "url-a")).
  apply list_elem_of_here.
Defined.





(** ** What can be raised below the endpoint *)

Section Raises.

Variable registry : Registry.
Variable mc_version : string.

Lemma fetch_mod_versions_raises slug e :
  result (fetch_mod_versions registry slug mc_version) = Raise e ->
  e = RequestException.
Proof.
  rewrite fetch_mod_versions_eq. cbn [result snd].
  destruct (get_versions registry slug mc_version); congruence.
Qed.

Lemma check_dependencies_raises deps q e :
  result (check_dependencies registry deps mc_version q) = Raise e ->
  e = RequestException.
Proof.
  revert q. induction deps as [|dep deps IH]; intros q; [done|].
  edge_cases registry mc_version dep deps q; cbn [result snd];
    try apply IH; try congruence.
  destruct (result (fetch_mod_versions registry _ mc_version))
    as [dv|e'|] eqn:Hf; cbn [result snd]; try done.
  - apply IH.
  - intros [= <-]. by eapply fetch_mod_versions_raises.
Qed.

Lemma process_raises fuel to_process processed m e :
  result (process registry fuel mc_version to_process processed m) = Raise e ->
  e = RequestException.
Proof.
  revert to_process processed m.
  induction fuel as [|fuel IH]; intros [|ver rest] processed m; try done.
  walk_step registry mc_version fuel ver rest processed m; [apply IH|].
  destruct (result (check_dependencies _ _ _ _)) as [q'|e'|] eqn:Hedges;
    cbn [result snd]; try done.
  - apply IH.
  - intros [= <-]. by eapply check_dependencies_raises.
Qed.

Lemma collect_raises fuel slugs m e :
  result (collect registry fuel slugs mc_version m) = Raise e ->
  e = RequestException.
Proof.
  revert m. induction slugs as [|slug slugs IH]; intros m; [done|].
  rewrite collect_cons.
  destruct (result (fetch_mod_versions registry slug mc_version))
    as [[|latest vs]|e'|] eqn:Hf; cbv zeta; cbn [result snd]; try done.
  - apply IH.
  - destruct (result (resolve_dependencies registry fuel latest mc_version))
      as [deps_files|e'|] eqn:Hone; cbn [result snd]; try done.
    + apply IH.
    + intros [= <-]. by eapply process_raises.
  - intros [= <-]. by eapply fetch_mod_versions_raises.
Qed.

End Raises.

(** * Further properties of the walk *)

Lemma last_write_elem k u ws : last_write k ws = Some u -> (k, u) ∈ ws.
Proof.
  induction ws as [|[k' u'] ws IH]; [done|]. cbn [last_write].
  destruct (last_write k ws) as [u''|].
  - intros [= ->]. apply list_elem_of_further. by apply IH.
  - destruct (String.eqb_spec k' k) as [->|Hne]; [|done].
    intros [= ->]. apply list_elem_of_here.
Qed.

Section Closure.

Variable registry : Registry.
Variable mc_version : string.

Abbreviation deps_of ver := (default [] (dependencies ver)).

(** The versions a completed dependency loop pushes are exactly those
    its edges lead to. *)
Lemma check_dependencies_follows deps q q' :
  result (check_dependencies registry deps mc_version q) = Ret q' ->
  exists pushed,
    q' = pushed ++ q
    /\ forall v', v' ∈ pushed <->
         exists dep, dep ∈ deps /\ follows registry mc_version dep v'.
Proof.
  revert q q'. induction deps as [|dep deps IH]; intros q q'.
  { intros [= <-]. exists []. split; [done|]. intros v'. split.
    - by intros ?%elem_of_nil.
    - by intros (dep & ?%elem_of_nil & _). }
  assert (forall pushed : list Version,
            (forall v', v' ∈ pushed <->
               exists d, d ∈ deps /\ follows registry mc_version d v') ->
            (forall v', ~ follows registry mc_version dep v') ->
            forall v', v' ∈ pushed <->
              exists d, d ∈ dep :: deps /\ follows registry mc_version d v')
    as Hskip.
  { intros pushed Hp Hno v'. rewrite Hp. split.
    - intros (d & Hd & Hf). exists d. split; [by apply list_elem_of_further|done].
    - intros (d & [->|Hd]%elem_of_cons & Hf); [by destruct (Hno v')|eauto]. }
  edge_cases registry mc_version dep deps q; cbn [result snd]; try done.
  - destruct (result (fetch_mod_versions registry _ mc_version))
      as [[|latest dv]|e|] eqn:Hf; cbn [result snd]; try done.
    + intros (pushed & -> & Hp)%IH. exists pushed. split; [done|].
      apply Hskip; [done|].
      intros v' (_ & resp' & vs & Hp' & _ & Hf'). congruence.
    + intros (pushed & -> & Hp)%IH. exists (pushed ++ [latest]). split.
      { by rewrite <- app_assoc. }
      intros v'. rewrite elem_of_app, Hp, list_elem_of_singleton. split.
      * intros [(d & Hd & Hfd)| ->].
        -- exists d. split; [by apply list_elem_of_further|done].
        -- exists dep. split; [apply list_elem_of_here|].
           split; [done|]. by exists resp, dv.
      * intros (d & [->|Hd]%elem_of_cons & Hfd); [|left; eauto].
        right. destruct Hfd as (_ & resp' & vs & Hp' & _ & Hf'). congruence.
  - intros (pushed & -> & Hp)%IH. exists pushed. split; [done|].
    apply Hskip; [done|].
    intros v' (_ & resp' & vs & Hp' & Hs' & _). congruence.
  - intros (pushed & -> & Hp)%IH. exists pushed. split; [done|].
    apply Hskip; [done|]. intros v' (Hk & _). congruence.
Qed.

Lemma follows_chosen dep v' :
  follows registry mc_version dep v' -> chosen registry mc_version v'.
Proof. intros (_ & resp & vs & _ & _ & Hf). by exists (project_slug (json resp)), vs. Qed.

Lemma reachable_trans a b c :
  reachable registry mc_version a b ->
  reachable registry mc_version b c ->
  reachable registry mc_version a c.
Proof.
  intros Hab Hbc. induction Hbc as [|v v' _ IH Hreq]; [done|].
  by eapply reach_edge.
Qed.

Lemma reachable_chosen seed v :
  reachable registry mc_version seed v ->
  v = seed \/ chosen registry mc_version v.
Proof.
  intros [|w v' _ (dep & _ & Hf)]; [by left|]. right. by eapply follows_chosen.
Qed.

(** Whatever the walk writes is a file of a version reachable from a
    version of its stack. *)
Lemma process_sound fuel q processed m0 tr m :
  process registry fuel mc_version q processed m0 = (tr, Ret m) ->
  forall k u, (k, u) ∈ stores tr ->
    exists v0 v f,
      v0 ∈ q /\ reachable registry mc_version v0 v
      /\ f ∈ files v /\ filename f = k /\ url f = u.
Proof.
  revert q processed m0 tr.
  induction fuel as [|fuel IH]; intros [|ver rest] processed m0 tr;
    try (by intros [= <- <-] k u ?%elem_of_nil); try discriminate.
  walk_step registry mc_version fuel ver rest processed m0.
  { intros Hw k u Hku. destruct (IH _ _ _ _ Hw k u Hku)
      as (v0 & v & f & Hv0 & Hrest).
    exists v0, v, f. split; [by apply list_elem_of_further|done]. }
  destruct (check_dependencies_quiet registry mc_version (deps_of ver) rest)
    as [_ Hquiet].
  destruct (result (check_dependencies _ _ _ _)) as [q'|e|] eqn:Hedges;
    try done.
  intros [= <- Hres] k u. rewrite stores_iteration, Hquiet. cbn [app].
  intros [Hown|Hlater]%elem_of_app.
  - apply list_elem_of_fmap in Hown as (f & [= -> ->] & Hf).
    exists ver, ver, f. split_and!; try done;
      [apply list_elem_of_here | apply reach_seed].
  - destruct (check_dependencies_follows _ _ _ Hedges) as (pushed & -> & Hp).
    edestruct IH as (v0 & v & f & Hv0 & Hreach & Hf);
      [rewrite <- Hres; apply surjective_comp | exact Hlater |].
    apply elem_of_app in Hv0 as [Hv0|Hv0].
    + exists ver, v, f. split_and!; try apply Hf; [apply list_elem_of_here|].
      apply (reachable_trans ver v0 v); [|done].
      eapply reach_edge; [apply reach_seed|].
      apply Hp in Hv0 as (dep & Hdep & Hfollows). by exists dep.
    + exists v0, v, f. split; [by apply list_elem_of_further|done].
Qed.

Lemma consistent_tail ver rest pushed :
  consistent registry mc_version (ver :: rest) ->
  (forall v, v ∈ pushed -> chosen registry mc_version v) ->
  consistent registry mc_version (pushed ++ rest).
Proof.
  intros Hc Hp v v' Hv Hv'. apply Hc.
  - destruct Hv as [[?|?]%elem_of_app|?]; auto.
    left. by apply list_elem_of_further.
  - destruct Hv' as [[?|?]%elem_of_app|?]; auto.
    left. by apply list_elem_of_further.
Qed.

(** When each project has one version in play: a version whose project
    was expanded had its files written and its edges followed to
    projects that are processed or expanded too. *)
Lemma process_closed fuel q processed m0 tr m :
  process registry fuel mc_version q processed m0 = (tr, Ret m) ->
  consistent registry mc_version q ->
  forall v, v ∈ q \/ chosen registry mc_version v ->
    project_id v ∈ expansions tr ->
    (forall f, f ∈ files v -> (filename f, url f) ∈ stores tr)
    /\ (forall v', requires registry mc_version v v' ->
          project_id v' ∈ processed \/ project_id v' ∈ expansions tr).
Proof.
  revert q processed m0 tr.
  induction fuel as [|fuel IH]; intros [|ver rest] processed m0 tr;
    try (by intros [= <- <-] _ v _ ?%elem_of_nil); try discriminate.
  walk_step registry mc_version fuel ver rest processed m0.
  { intros Hw Hc v Hv Hexp.
    pose proof (process_expansions registry mc_version fuel rest processed m0)
      as [_ Hout].
    rewrite Hw in Hout. cbn [trace fst] in Hout.
    apply (IH _ _ _ _ Hw); [|
      |done].
    - apply (consistent_tail ver rest []) in Hc; [done|].
      by intros ? ?%elem_of_nil.
    - destruct Hv as [[->|Hv]%elem_of_cons|Hv]; auto.
      by destruct (Hout _ Hexp). }
  destruct (check_dependencies_quiet registry mc_version (deps_of ver) rest)
    as [Hqe Hqs].
  destruct (result (check_dependencies _ _ _ _)) as [q'|e|] eqn:Hedges;
    try done.
  intros [= <- Hres] Hc v Hv.
  rewrite expansions_iteration, stores_iteration, Hqe, Hqs. cbn [app].
  destruct (check_dependencies_follows _ _ _ Hedges) as (pushed & -> & Hp).
  assert (process registry fuel mc_version (pushed ++ rest)
            ({[project_id ver]} ∪ processed)
            (replay (map (fun f => (filename f, url f)) (files ver)) m0)
          = (trace (process registry fuel mc_version (pushed ++ rest)
                      ({[project_id ver]} ∪ processed)
                      (replay (map (fun f => (filename f, url f))
                                 (files ver)) m0)), Ret m)) as Hnext.
  { rewrite <- Hres. apply surjective_comp. }
  assert (consistent registry mc_version (pushed ++ rest)) as Hc'.
  { apply (consistent_tail ver); [done|].
    intros w (dep & _ & Hf)%Hp. by eapply follows_chosen. }
  destruct (decide (project_id v = project_id ver)) as [Hsame|Hother].
  - intros _. assert (v = ver) as ->.
    { apply Hc; [done|left; apply list_elem_of_here|done]. }
    split.
    + intros f Hf. apply elem_of_app. left.
      by apply (list_elem_of_fmap_2 (fun f => (filename f, url f))).
    + intros v' (dep & Hdep & Hfollows).
      assert (v' ∈ pushed ++ rest) as Hin.
      { apply elem_of_app. left. apply Hp. eauto. }
      destruct (process_covers registry mc_version _ _ _ _ _ _ Hnext)
        as [Hstack _].
      destruct (Hstack v' Hin) as [[->%elem_of_singleton|?]%elem_of_union|?].
      * right. apply list_elem_of_here.
      * by left.
      * right. by apply list_elem_of_further.
  - intros [?|Hexp]%elem_of_cons; [done|].
    destruct (IH _ _ _ _ Hnext Hc' v) as [Hfiles Hreq]; [|done|].
    { destruct Hv as [[->|Hv]%elem_of_cons|Hv]; [done| |by right].
      left. apply elem_of_app. by right. }
    split.
    + intros f Hf. apply elem_of_app. right. by apply Hfiles.
    + intros v' Hv'.
      destruct (Hreq v' Hv') as [[->%elem_of_singleton|?]%elem_of_union|?].
      * right. apply list_elem_of_here.
      * by left.
      * right. by apply list_elem_of_further.
Qed.

End Closure.

(** ** Snapshots again *)

Lemma find_versions_heads vs slug mc_version v l :
  find_versions vs slug mc_version = Some (v :: l) -> v ∈ snapshot_heads vs.
Proof.
  induction vs as [|[[s g] l'] vs IH]; [done|].
  cbn [find_versions snapshot_heads].
  destruct (String.eqb s slug && String.eqb g mc_version).
  - intros [= ->]. apply list_elem_of_here.
  - intros H%IH. destruct l'; [done|]. by apply list_elem_of_further.
Qed.

Lemma serve_chosen s mc_version v :
  chosen (serve s) mc_version v -> v ∈ snapshot_heads (snap_versions s).
Proof.
  intros (slug & vs & Hf). rewrite fetch_mod_versions_eq in Hf.
  cbn [result snd serve get_versions] in Hf.
  destruct (find_versions (snap_versions s) slug mc_version) as [l|] eqn:Hl;
    cbn [status_code json] in Hf; [|done].
  injection Hf as ->. by eapply find_versions_heads.
Qed.

Lemma serve_consistent s mc_version q :
  one_version_per_project (q ++ snapshot_heads (snap_versions s)) ->
  consistent (serve s) mc_version q.
Proof.
  intros Hall v v' Hv Hv' Hpid.
  assert (forall w, w ∈ q \/ chosen (serve s) mc_version w ->
            w ∈ q ++ snapshot_heads (snap_versions s)) as Hin.
  { intros w [?|?%serve_chosen]; apply elem_of_app; auto. }
  unfold one_version_per_project in Hall. rewrite Forall_forall in Hall.
  specialize (Hall v (Hin v Hv)). rewrite Forall_forall in Hall.
  by apply (Hall v' (Hin v' Hv')).
Qed.

(** * Further properties *)

(** X1. The mapping returned by a walk holds nothing but files of the
    closure of the seed: every entry is the filename and the URL of a
    file of the seed or of a version reached from it along required
    edges that the registry resolves. *)
Theorem resolve_dependencies_within_closure
    registry fuel seed mc_version tr m k u :
  resolve_dependencies registry fuel seed mc_version = (tr, Ret m) ->
  m !! k = Some u ->
  exists v f,
    reachable registry mc_version seed v
    /\ f ∈ files v /\ filename f = k /\ url f = u.
Proof.
  intros Hres Hk.
  pose proof (resolve_dependencies_replay registry _ _ _ _ _ Hres) as Hm.
  rewrite Hm, replay_lookup, lookup_empty in Hk.
  destruct (last_write k (stores tr)) as [u'|] eqn:Hlast; [|done].
  injection Hk as ->. apply last_write_elem in Hlast.
  destruct (process_sound registry mc_version _ _ _ _ _ _ Hres k u Hlast)
    as (v0 & v & f & ->%list_elem_of_singleton & Hrest).
  by exists v, f.
Qed.

(** In the sodium scenario the entry of fabric-api.jar comes from a
    version reached from the seed. *)
Lemma resolve_dependencies_within_closure_witness :
  exists v f,
    reachable (serve (sodium_registry "url1" "url2")) "1.20.1"
      (sodium_ver "url1") v
    /\ f ∈ files v /\ filename f = "fabric-api.jar" /\ url f = "url2".
Proof.
  assert (resolve_dependencies (serve (sodium_registry "url1" "url2")) 2
            (sodium_ver "url1") "1.20.1"
          = ([Expand "P-sodium"; Store "sodium.jar" "url1";
              Get (ProjectInfo "P-fabric-api");
              Get (Versions "fabric-api" "1.20.1");
              Expand "P-fabric-api"; Store "fabric-api.jar" "url2"],
             Ret {[ "sodium.jar" := "url1"; "fabric-api.jar" := "url2" ]}))
    as Hrun.
  { vm_compute. reflexivity. }
  apply (resolve_dependencies_within_closure _ _ _ _ _ _
           "fabric-api.jar" "url2" Hrun).
  vm_compute. reflexivity.
Defined.

(** The walk covers the closure of its seed. *)
Lemma closure_is_covered
    registry fuel seed mc_version tr m :
  consistent registry mc_version [seed] ->
  resolve_dependencies registry fuel seed mc_version = (tr, Ret m) ->
  forall v, reachable registry mc_version seed v ->
    occurrences (Expand (project_id v)) tr = 1%nat
    /\ forall f, f ∈ files v -> filename f ∈ dom m.
Proof.
  intros Hc Hres v Hreach.
  assert (project_id v ∈ expansions tr) as Hexp.
  { induction Hreach as [|v v' Hreach IH Hreq].
    - destruct (process_covers registry mc_version _ _ _ _ _ _ Hres)
        as [Hstack _].
      destruct (Hstack seed) as [?|?]; [apply list_elem_of_here|set_solver|done].
    - destruct (process_closed registry mc_version _ _ _ _ _ _ Hres Hc v)
        as [_ Hnext]; [|done|].
      { destruct (reachable_chosen _ _ _ _ Hreach) as [->|?]; [|by right].
        left. apply list_elem_of_here. }
      destruct (Hnext v' Hreq) as [?|?]; [set_solver|done]. }
  split.
  - pose proof (resolve_dependencies_once registry fuel seed mc_version
                  (project_id v)) as Hle.
    rewrite Hres in Hle. cbn [trace fst] in Hle.
    apply occurrences_expansions in Hexp. lia.
  - intros f Hf.
    destruct (process_closed registry mc_version _ _ _ _ _ _ Hres Hc v)
      as [Hfiles _]; [|done|].
    { destruct (reachable_chosen _ _ _ _ Hreach) as [->|?]; [|by right].
      left. apply list_elem_of_here. }
    rewrite (resolve_dependencies_replay registry _ _ _ _ _ Hres).
    apply elem_of_dom. rewrite replay_lookup.
    destruct (last_write_is_Some _ _ _ (Hfiles f Hf)) as [u' ->]. eauto.
Qed.

(** X2. When every project has one version in play, a walk that returns
    has covered the whole closure of the seed: the project of every
    version reached from the seed along resolved required edges was
    expanded exactly once, and each of its filenames is a key of the
    mapping. *)
Theorem resolve_dependencies_covers_closure
    registry fuel seed mc_version tr m :
  consistent registry mc_version [seed] ->
  resolve_dependencies registry fuel seed mc_version = (tr, Ret m) ->
  forall v, reachable registry mc_version seed v ->
    occurrences (Expand (project_id v)) tr = 1%nat
    /\ forall f, f ∈ files v -> filename f ∈ dom m.
Proof. apply closure_is_covered. Qed.

(** In the cycle, B is reached from A: it is expanded once and b.jar is
    a key. *)
Lemma resolve_dependencies_covers_closure_witness :
  occurrences (Expand "P-b")
    [Expand "P-a"; Store "a.jar" "url-a";
     Get (ProjectInfo "P-b"); Get (Versions "b" "1.20.1");
     Expand "P-b"; Store "b.jar" "url-b";
     Get (ProjectInfo "P-a"); Get (Versions "a" "1.20.1")] = 1%nat
  /\ forall f, f ∈ files cycle_b ->
       filename f ∈ dom ({[ "a.jar" := "url-a"; "b.jar" := "url-b" ]}
                          : gmap string string).
Proof.
  refine (resolve_dependencies_covers_closure (serve cycle_registry) 3
            cycle_a "1.20.1"
            [Expand "P-a"; Store "a.jar" "url-a";
             Get (ProjectInfo "P-b"); Get (Versions "b" "1.20.1");
             Expand "P-b"; Store "b.jar" "url-b";
             Get (ProjectInfo "P-a"); Get (Versions "a" "1.20.1")]
            {[ "a.jar" := "url-a"; "b.jar" := "url-b" ]} _ _ cycle_b _).
  - apply serve_consistent. unfold one_version_per_project.
    apply (bool_decide_unpack _). vm_compute. reflexivity.
  - vm_compute. reflexivity.
  - apply (reach_edge _ _ _ cycle_a); [apply reach_seed|].
    exists (edge "required" "P-b"). split; [apply list_elem_of_here|].
    split; [reflexivity|].
    exists {| status_code := 200; json := {| project_slug := "b" |} |}, [].
    split_and!; reflexivity.
Defined.

(** ** The requests of a resolution *)

Section Requests.

Variable registry : Registry.
Variable mc_version : string.

Abbreviation shaped := (Forall (resolution_request mc_version)).
Abbreviation all_answered := (Forall (answered registry)).

Lemma fetch_mod_versions_answered slug versions :
  result (fetch_mod_versions registry slug mc_version) = Ret versions ->
  answered registry (Versions slug mc_version).
Proof.
  rewrite fetch_mod_versions_eq. cbn [result snd answered].
  by destruct (get_versions registry slug mc_version).
Qed.

Lemma check_dependencies_shaped deps q :
  shaped (requests (trace (check_dependencies registry deps mc_version q))).
Proof.
  revert q. induction deps as [|dep deps IH]; intros q; [constructor|].
  edge_cases registry mc_version dep deps q; cbn [trace fst]; try apply IH.
  - destruct (result (fetch_mod_versions registry _ mc_version)) as [dv|e|];
      cbn [trace fst app requests]; repeat (constructor; try done).
  - cbn [requests]. constructor; [done|apply IH].
  - repeat constructor.
Qed.

Lemma check_dependencies_answered deps q :
  (forall e, result (check_dependencies registry deps mc_version q)
             <> Raise e) ->
  all_answered (requests (trace (check_dependencies registry deps mc_version q))).
Proof.
  revert q. induction deps as [|dep deps IH]; intros q; [constructor|].
  edge_cases registry mc_version dep deps q; cbn [trace result fst snd];
    try apply IH.
  - destruct (result (fetch_mod_versions registry _ mc_version))
      as [dv|e|] eqn:Hf; cbn [trace result fst snd app requests]; intros Hno.
    + constructor; [cbn; by rewrite Hproj|].
      constructor; [by eapply fetch_mod_versions_answered|by apply IH].
    + by destruct (Hno e).
    + by apply fetch_mod_versions_fuel in Hf.
  - intros Hno. cbn [requests]. constructor; [cbn; by rewrite Hproj|].
    by apply IH.
  - intros Hno. by destruct (Hno RequestException).
Qed.

Lemma process_shaped fuel q processed m :
  shaped (requests (trace (process registry fuel mc_version q processed m))).
Proof.
  revert q processed m.
  induction fuel as [|fuel IH]; intros [|ver rest] processed m;
    try constructor.
  walk_step registry mc_version fuel ver rest processed m; [apply IH|].
  pose proof (check_dependencies_shaped
                (default [] (dependencies ver)) rest) as Hedges.
  destruct (result (check_dependencies _ _ _ _)) as [q'|e|]; cbn [trace fst].
  - rewrite requests_iteration. apply Forall_app. split; [done|apply IH].
  - rewrite <- (app_nil_r (trace _)), requests_iteration, app_nil_r. done.
  - rewrite <- (app_nil_r (trace _)), requests_iteration, app_nil_r. done.
Qed.

Lemma process_answered fuel q processed m :
  (forall e, result (process registry fuel mc_version q processed m)
             <> Raise e) ->
  all_answered (requests (trace (process registry fuel mc_version q processed m))).
Proof.
  revert q processed m.
  induction fuel as [|fuel IH]; intros [|ver rest] processed m;
    try constructor.
  walk_step registry mc_version fuel ver rest processed m; [apply IH|].
  pose proof (check_dependencies_answered
                (default [] (dependencies ver)) rest) as Hedges.
  pose proof (check_dependencies_fuel registry mc_version
                (default [] (dependencies ver)) rest) as Hfuel.
  destruct (result (check_dependencies _ _ _ _)) as [q'|e|];
    cbn [trace result fst snd]; intros Hno.
  - rewrite requests_iteration. apply Forall_app. split; [by apply Hedges|].
    by apply IH.
  - by destruct (Hno e).
  - done.
Qed.

Lemma collect_shaped fuel slugs m :
  shaped (requests (trace (collect registry fuel slugs mc_version m))).
Proof.
  revert m. induction slugs as [|slug slugs IH]; intros m; [constructor|].
  rewrite collect_cons.
  destruct (result (fetch_mod_versions registry slug mc_version))
    as [[|latest vs]|e|]; cbv zeta; cbn [trace fst requests];
    try (constructor; [done|]); try apply IH; try constructor.
  pose proof (process_shaped fuel [latest] ∅ ∅) as Hone.
  unfold resolve_dependencies.
  destruct (result (process registry fuel mc_version [latest] ∅ ∅));
    cbn [trace fst requests]; constructor; try done.
  rewrite requests_app. apply Forall_app. split; [done|apply IH].
Qed.

Lemma collect_answered fuel slugs m :
  (forall e, result (collect registry fuel slugs mc_version m) <> Raise e) ->
  all_answered (requests (trace (collect registry fuel slugs mc_version m))).
Proof.
  revert m. induction slugs as [|slug slugs IH]; intros m; [constructor|].
  rewrite collect_cons.
  destruct (result (fetch_mod_versions registry slug mc_version))
    as [[|latest vs]|e|] eqn:Hf; cbv zeta; cbn [trace result fst snd requests];
    intros Hno.
  - constructor; [by eapply fetch_mod_versions_answered|by apply IH].
  - pose proof (process_answered fuel [latest] ∅ ∅) as Hone.
    revert Hno. unfold resolve_dependencies.
    destruct (result (process registry fuel mc_version [latest] ∅ ∅))
      as [d|e|]; cbn [trace result fst snd requests]; intros Hno.
    + constructor; [by eapply fetch_mod_versions_answered|].
      rewrite requests_app. apply Forall_app. split; [by apply Hone|].
      by apply IH.
    + by destruct (Hno e).
    + constructor; [by eapply fetch_mod_versions_answered|by apply Hone].
  - by destruct (Hno e).
  - by apply fetch_mod_versions_fuel in Hf.
Qed.

End Requests.

(** X3. Whatever the outcome, the endpoint never sends a search request
    while resolving, and every version list it asks for is asked for the
    release of the request: the release is passed on verbatim. *)
Theorem api_download_requests_shape registry fuel data :
  Forall (resolution_request (default EmptyString (req_mc_version data)))
    (requests (trace (api_download registry fuel data))).
Proof.
  destruct (truthy_str (req_mc_version data)) eqn:Hv;
    [|rewrite api_download_rejects by auto; constructor].
  destruct (truthy_list (default [] (req_mods data))) eqn:Hm;
    [|rewrite api_download_rejects by auto; constructor].
  rewrite api_download_accepts by done. cbv zeta. cbn [trace fst].
  apply collect_shaped.
Qed.

(** X4. The call is all or nothing with respect to the transport: unless
    it ends with the exception of [requests.get], every request it sent
    was answered. So one request that fails at the transport, for any
    root or any dependency, loses the whole call: no mapping is
    returned, not even a partial one. *)
Theorem api_download_all_or_nothing registry fuel data :
  result (api_download registry fuel data) <> Raise RequestException ->
  Forall (answered registry)
    (requests (trace (api_download registry fuel data))).
Proof.
  destruct (truthy_str (req_mc_version data)) eqn:Hv;
    [|rewrite api_download_rejects by auto; constructor].
  destruct (truthy_list (default [] (req_mods data))) eqn:Hm;
    [|rewrite api_download_rejects by auto; constructor].
  rewrite api_download_accepts by done. cbv zeta. cbn [trace result fst snd].
  intros Hno. apply collect_answered. intros e He.
  rewrite He in Hno. apply collect_raises in He as ->. done.
Qed.

(** The sodium scenario returns a mapping: both of its lookups and
    fetches were answered. *)
Lemma api_download_all_or_nothing_witness :
  Forall (answered (serve (sodium_registry "url1" "url2")))
    [Versions "sodium" "1.20.1"; ProjectInfo "P-fabric-api";
     Versions "fabric-api" "1.20.1"].
Proof.
  apply (api_download_all_or_nothing (serve (sodium_registry "url1" "url2"))
           2 (download "1.20.1" ["sodium"])).
  vm_compute. discriminate.
Defined.

Lemma check_dependencies_no_required registry deps mc_version q :
  required_edges deps = [] ->
  check_dependencies registry deps mc_version q = ([], Ret q).
Proof.
  induction deps as [|dep deps IH]; [done|]. rewrite required_edges_cons.
  destruct (String.eqb (dependency_type dep) "required") eqn:Hk; [done|].
  intros H. rewrite check_dependencies_other_kind by done. by apply IH.
Qed.

Lemma replay_dom_eq ws (m : gmap string string) :
  dom (replay ws m) = list_to_set (ws.*1) ∪ dom m.
Proof.
  revert m. induction ws as [|[k u] ws IH]; intros m.
  { cbn. set_solver. }
  change (replay ((k, u) :: ws) m) with (replay ws (<[k:=u]> m)).
  rewrite IH, dom_insert_L. cbn [fmap list_fmap fst list_to_set]. set_solver.
Qed.

(** X5. A version without required edge (its edges are all of other
    kinds, its list of dependencies is empty, or the key is missing) is
    resolved in one iteration without any registry request, and the keys
    of the mapping returned are exactly the filenames of its files. *)
Theorem resolve_dependencies_leaf registry fuel seed mc_version :
  required_edges (default [] (dependencies seed)) = [] ->
  exists m,
    resolve_dependencies registry (S fuel) seed mc_version
    = (Expand (project_id seed)
         :: map (fun f => Store (filename f) (url f)) (files seed),
       Ret m)
    /\ dom m = list_to_set (map filename (files seed)).
Proof.
  intros Hleaf. unfold resolve_dependencies.
  rewrite process_expand by set_solver. cbv zeta.
  rewrite check_dependencies_no_required by done. cbn [trace result fst snd].
  rewrite process_nil. cbn [trace result fst snd]. rewrite !app_nil_r.
  eexists. split; [done|].
  rewrite replay_dom_eq, dom_empty_L, <- list_fmap_compose.
  set_solver.
Qed.

(** "lib" has no dependencies key; "hollow" has an empty list. *)
Lemma resolve_dependencies_leaf_witness :
  exists m,
    resolve_dependencies unreachable 1 lib_ver "1.20.1"
    = ([Expand "P-lib"; Store "lib.jar" "url-lib"], Ret m)
    /\ dom m = list_to_set ["lib.jar"].
Proof.
  apply (resolve_dependencies_leaf unreachable 0 lib_ver "1.20.1").
  reflexivity.
Defined.

(** ** The keys collected over the roots *)

Section Roots.

Variable registry : Registry.
Variable fuel : nat.
Variable mc_version : string.

(** A key [k] comes from the walk of one of the roots [slugs]. *)
Let from_root (slugs : list string) (k : string) : Prop :=
  exists slug v vs d,
    slug ∈ slugs
    /\ result (fetch_mod_versions registry slug mc_version) = Ret (v :: vs)
    /\ result (resolve_dependencies registry fuel v mc_version) = Ret d
    /\ k ∈ dom d.

(** A root is fine when its version list comes back and, if it is not
    empty, the walk from its element 0 returns. *)
Let root_returns (slug : string) : Prop :=
  exists versions,
    result (fetch_mod_versions registry slug mc_version) = Ret versions
    /\ forall v vs, versions = v :: vs ->
         exists d,
           result (resolve_dependencies registry fuel v mc_version) = Ret d.

Lemma collect_dom slugs m0 m :
  result (collect registry fuel slugs mc_version m0) = Ret m ->
  forall k, k ∈ dom m <-> k ∈ dom m0 \/ from_root slugs k.
Proof.
  revert m0. induction slugs as [|slug slugs IH]; intros m0.
  { intros [= <-] k. split; [by left|].
    by intros [?|(s & v & vs & d & ?%elem_of_nil & _)]. }
  rewrite collect_cons.
  destruct (result (fetch_mod_versions registry slug mc_version))
    as [[|latest vs]|e|] eqn:Hf; cbv zeta; cbn [result snd]; try done.
  - intros Hres k. rewrite (IH _ Hres k). split.
    + intros [?|(s & v & vs & d & Hs & Hrest)]; [by left|right].
      exists s, v, vs, d. split; [by apply list_elem_of_further|done].
    + intros [?|(s & v & vs & d & [->|Hs]%elem_of_cons & Hv & Hrest)];
        [by left|congruence|right].
      by exists s, v, vs, d.
  - destruct (result (resolve_dependencies registry fuel latest mc_version))
      as [deps_files|e|] eqn:Hone; cbn [result snd]; try done.
    intros Hres k. rewrite (IH _ Hres k), dom_union, elem_of_union. split.
    + intros [[Hk|?]|(s & v & vs' & d & Hs & Hrest)]; [right|by left|right].
      * exists slug, latest, vs, deps_files.
        split_and!; [apply list_elem_of_here|done..].
      * exists s, v, vs', d. split; [by apply list_elem_of_further|done].
    + intros [?|(s & v & vs' & d & [->|Hs]%elem_of_cons & Hv & Hd & Hk)];
        [left; by right| |right; by exists s, v, vs', d].
      left. left. congruence.
Qed.

Lemma collect_returns_iff slugs m0 :
  (exists m, result (collect registry fuel slugs mc_version m0) = Ret m)
  <-> forall slug, slug ∈ slugs -> root_returns slug.
Proof.
  revert m0. induction slugs as [|slug slugs IH]; intros m0.
  { split; [by intros _ s ?%elem_of_nil|]. intros _. by exists m0. }
  rewrite collect_cons.
  destruct (result (fetch_mod_versions registry slug mc_version))
    as [[|latest vs]|e|] eqn:Hf; cbv zeta; cbn [result snd].
  - rewrite IH. split.
    + intros Hall s [->|Hs]%elem_of_cons; [|by apply Hall].
      exists []. split; [done|]. by intros.
    + intros Hall s Hs. apply Hall. by apply list_elem_of_further.
  - destruct (result (resolve_dependencies registry fuel latest mc_version))
      as [deps_files|e|] eqn:Hone; cbn [result snd].
    + rewrite IH. split.
      * intros Hall s [->|Hs]%elem_of_cons; [|by apply Hall].
        exists (latest :: vs). split; [done|].
        intros v vs' [= <- <-]. by exists deps_files.
      * intros Hall s Hs. apply Hall. by apply list_elem_of_further.
    + split; [by intros [m ?]|]. intros Hall.
      destruct (Hall slug (list_elem_of_here _ _)) as (l & Hl & Hwalk).
      rewrite Hf in Hl. injection Hl as <-.
      destruct (Hwalk latest vs eq_refl) as [d Hd]. congruence.
    + split; [by intros [m ?]|]. intros Hall.
      destruct (Hall slug (list_elem_of_here _ _)) as (l & Hl & Hwalk).
      rewrite Hf in Hl. injection Hl as <-.
      destruct (Hwalk latest vs eq_refl) as [d Hd]. congruence.
  - split; [by intros [m ?]|]. intros Hall.
    destruct (Hall slug (list_elem_of_here _ _)) as (l & Hl & _). congruence.
  - split; [by intros [m ?]|]. intros Hall.
    destruct (Hall slug (list_elem_of_here _ _)) as (l & Hl & _). congruence.
Qed.

(** The key set does not depend on the order of the roots, nor on how
    often a root is listed. *)
Lemma collect_same_roots slugs1 slugs2 m0 m1 :
  (forall slug, slug ∈ slugs1 <-> slug ∈ slugs2) ->
  result (collect registry fuel slugs1 mc_version m0) = Ret m1 ->
  exists m2,
    result (collect registry fuel slugs2 mc_version m0) = Ret m2
    /\ dom m1 = dom m2.
Proof.
  intros Hsame Hres1.
  destruct (proj2 (collect_returns_iff slugs2 m0)) as [m2 Hres2].
  { intros s Hs. apply (proj1 (collect_returns_iff slugs1 m0)); [eauto|].
    by apply Hsame. }
  exists m2. split; [done|]. apply set_eq. intros k.
  rewrite (collect_dom _ _ _ Hres1 k), (collect_dom _ _ _ Hres2 k).
  split; (intros [?|(s & v & vs & d & Hs & Hrest)]; [by left|right]);
    exists s, v, vs, d; (split; [by apply Hsame|done]).
Qed.

End Roots.

Lemma api_download_Ret_inv registry fuel data m :
  result (api_download registry fuel data) = Ret m ->
  truthy_str (req_mc_version data) = true
  /\ truthy_list (default [] (req_mods data)) = true
  /\ result (collect registry fuel (default [] (req_mods data))
               (default EmptyString (req_mc_version data)) ∅) = Ret m
  /\ m <> ∅.
Proof.
  destruct (truthy_str (req_mc_version data)) eqn:Hv;
    [|by rewrite api_download_rejects by auto].
  destruct (truthy_list (default [] (req_mods data))) eqn:Hm;
    [|by rewrite api_download_rejects by auto].
  rewrite api_download_accepts by done. cbv zeta. cbn [result snd].
  destruct (result (collect _ _ _ _ _)) as [m'|e|]; try done.
  case_bool_decide; [done|]. by intros [= <-].
Qed.

(** X6. The keys of the mapping the endpoint returns are exactly the
    keys of the mappings of the walks of its roots: a filename is present
    if and only if the walk from the first version of some root returned
    it. Nothing is lost in the merge and nothing is added by it. *)
Theorem api_download_keys_are_the_roots_keys registry fuel data m :
  result (api_download registry fuel data) = Ret m ->
  forall k,
    k ∈ dom m
    <-> exists slug v vs d,
          slug ∈ default [] (req_mods data)
          /\ result (fetch_mod_versions registry slug
                       (default EmptyString (req_mc_version data)))
             = Ret (v :: vs)
          /\ result (resolve_dependencies registry fuel v
                       (default EmptyString (req_mc_version data))) = Ret d
          /\ k ∈ dom d.
Proof.
  intros (_ & _ & Hres & _)%api_download_Ret_inv k.
  rewrite (collect_dom registry fuel _ _ _ _ Hres k), dom_empty_L.
  split; [|by right]. intros [?|?]; [set_solver|done].
Qed.

(** With the roots "left" and "right", lib.jar is a key because the
    walk from "left" returns it. *)
Lemma api_download_keys_witness :
  "lib.jar" ∈ dom ({[ "left.jar" := "url-left"; "right.jar" := "url-right";
                      "lib.jar" := "url-lib" ]} : gmap string string)
  <-> exists slug v vs d,
        slug ∈ ["left"; "right"]
        /\ result (fetch_mod_versions (serve shared_registry) slug "1.20.1")
           = Ret (v :: vs)
        /\ result (resolve_dependencies (serve shared_registry) 5 v "1.20.1")
           = Ret d
        /\ "lib.jar" ∈ dom d.
Proof.
  apply (api_download_keys_are_the_roots_keys (serve shared_registry) 5
           (download "1.20.1" ["left"; "right"])).
  vm_compute. reflexivity.
Defined.

(** X7. Which filenames the endpoint returns depends on the set of the
    roots only: listing the same roots in another order, or a root more
    than once, gives a mapping with the same keys (the order decides only
    which URL wins under a filename that several walks write). *)
Theorem api_download_keys_ignore_root_order
    registry fuel mc_version mods1 mods2 m1 :
  (forall slug, slug ∈ mods1 <-> slug ∈ mods2) ->
  result (api_download registry fuel (download mc_version mods1)) = Ret m1 ->
  exists m2,
    result (api_download registry fuel (download mc_version mods2)) = Ret m2
    /\ dom m1 = dom m2.
Proof.
  intros Hsame (Hv & Hm & Hres & Hne)%api_download_Ret_inv.
  cbn [download req_mc_version req_mods default from_option id] in *.
  destruct (collect_same_roots registry fuel mc_version mods1 mods2 ∅ m1
              Hsame Hres) as (m2 & Hres2 & Hdom).
  exists m2. split; [|done].
  rewrite api_download_accepts;
    cbn [download req_mc_version req_mods default from_option id]; [|done|].
  - cbv zeta. cbn [result snd]. rewrite Hres2.
    rewrite bool_decide_false; [done|].
    intros ->. apply Hne. apply dom_empty_iff_L.
    by rewrite Hdom, dom_empty_L.
  - destruct mods1 as [|s mods1]; [done|].
    destruct mods2; [|done].
    by destruct (proj1 (Hsame s) (list_elem_of_here _ _)).
Qed.

(** "left" then "right", against "right", "left" and "left" again. *)
Lemma api_download_keys_ignore_root_order_witness :
  exists m2,
    result (api_download (serve shared_registry) 5
              (download "1.20.1" ["right"; "left"; "left"])) = Ret m2
    /\ dom ({[ "left.jar" := "url-left"; "right.jar" := "url-right";
               "lib.jar" := "url-lib" ]} : gmap string string) = dom m2.
Proof.
  apply (api_download_keys_ignore_root_order (serve shared_registry) 5
           "1.20.1" ["left"; "right"] ["right"; "left"; "left"]).
  - intros slug. rewrite !elem_of_cons. rewrite !elem_of_nil. tauto.
  - vm_compute. reflexivity.
Defined.

(** ** The endpoint and the closures of its roots *)

Lemma api_download_Ret_trace registry fuel data tr m :
  api_download registry fuel data = (tr, Ret m) ->
  collect registry fuel (default [] (req_mods data))
    (default EmptyString (req_mc_version data)) ∅ = (tr, Ret m).
Proof.
  destruct (truthy_str (req_mc_version data)) eqn:Hv;
    [|by rewrite api_download_rejects by auto].
  destruct (truthy_list (default [] (req_mods data))) eqn:Hm;
    [|by rewrite api_download_rejects by auto].
  rewrite api_download_accepts by done. cbv zeta.
  destruct (result (collect _ _ _ _ _)) as [m'|e|] eqn:Hres; try done.
  case_bool_decide; [done|]. intros [= <- <-].
  rewrite <- Hres. apply surjective_comp.
Qed.

Lemma collect_sound registry fuel slugs mc_version m0 tr m :
  collect registry fuel slugs mc_version m0 = (tr, Ret m) ->
  forall k u, (k, u) ∈ stores tr ->
    exists slug v vs v' f,
      slug ∈ slugs
      /\ result (fetch_mod_versions registry slug mc_version) = Ret (v :: vs)
      /\ reachable registry mc_version v v'
      /\ f ∈ files v' /\ filename f = k /\ url f = u.
Proof.
  revert m0 tr. induction slugs as [|slug slugs IH]; intros m0 tr.
  { by intros [= <- <-] k u ?%elem_of_nil. }
  assert (forall k u,
            (exists s v vs v' f,
               s ∈ slugs
               /\ result (fetch_mod_versions registry s mc_version)
                  = Ret (v :: vs)
               /\ reachable registry mc_version v v'
               /\ f ∈ files v' /\ filename f = k /\ url f = u) ->
            exists s v vs v' f,
              s ∈ slug :: slugs
              /\ result (fetch_mod_versions registry s mc_version)
                 = Ret (v :: vs)
              /\ reachable registry mc_version v v'
              /\ f ∈ files v' /\ filename f = k /\ url f = u) as Hlift.
  { intros k u (s & v & vs & v' & f & Hs & Hrest).
    exists s, v, vs, v', f. split; [by apply list_elem_of_further|done]. }
  rewrite collect_cons.
  destruct (result (fetch_mod_versions registry slug mc_version))
    as [[|latest vs]|e|] eqn:Hf; cbv zeta; try done.
  - intros [= <- Hres] k u. cbn [stores]. intros Hku. apply Hlift.
    eapply IH; [|done]. rewrite <- Hres. apply surjective_comp.
  - destruct (result (resolve_dependencies registry fuel latest mc_version))
      as [d|e|] eqn:Hone; try done.
    intros [= <- Hres] k u. cbn [stores]. rewrite stores_app.
    intros [Hku|Hku]%elem_of_app.
    + destruct (process_sound registry mc_version fuel [latest] ∅ ∅
                  (trace (resolve_dependencies registry fuel latest mc_version))
                  d) with (k := k) (u := u)
        as (v0 & v' & f & ->%list_elem_of_singleton & Hrest); [|done|].
      { fold (resolve_dependencies registry fuel latest mc_version).
        rewrite <- Hone. apply surjective_comp. }
      exists slug, latest, vs, v', f. split; [apply list_elem_of_here|done].
    + apply Hlift. eapply IH; [|done]. rewrite <- Hres. apply surjective_comp.
Qed.

Lemma consistent_chosen registry mc_version v :
  chosen registry mc_version v ->
  consistent registry mc_version [] ->
  consistent registry mc_version [v].
Proof.
  intros Hv Hc a b Ha Hb. apply Hc.
  - destruct Ha as [->%list_elem_of_singleton|?]; by right.
  - destruct Hb as [->%list_elem_of_singleton|?]; by right.
Qed.

(** X11. Every entry of the mapping the endpoint returns is the filename
    and the URL of a file of some version in the closure of a root: the
    first version of the root itself, or a version reached from it along
    required edges that the registry resolves. Nothing else gets into
    the archive list. *)
Theorem api_download_within_closures registry fuel data tr m k u :
  api_download registry fuel data = (tr, Ret m) ->
  m !! k = Some u ->
  exists slug v vs v' f,
    slug ∈ default [] (req_mods data)
    /\ result (fetch_mod_versions registry slug
                 (default EmptyString (req_mc_version data))) = Ret (v :: vs)
    /\ reachable registry (default EmptyString (req_mc_version data)) v v'
    /\ f ∈ files v' /\ filename f = k /\ url f = u.
Proof.
  intros Hres Hk.
  pose proof (api_download_replay registry _ _ _ _ Hres) as Hm.
  rewrite Hm, replay_lookup, lookup_empty in Hk.
  destruct (last_write k (stores tr)) as [u'|] eqn:Hlast; [|done].
  injection Hk as ->. apply last_write_elem in Hlast.
  apply api_download_Ret_trace in Hres.
  by eapply collect_sound.
Qed.

(** With the roots "left" and "right", the entry of lib.jar is a file of
    a version in the closure of a root. *)
Lemma api_download_within_closures_witness :
  exists slug v vs v' f,
    slug ∈ ["left"; "right"]
    /\ result (fetch_mod_versions (serve shared_registry) slug "1.20.1")
       = Ret (v :: vs)
    /\ reachable (serve shared_registry) "1.20.1" v v'
    /\ f ∈ files v' /\ filename f = "lib.jar" /\ url f = "url-lib".
Proof.
  apply (api_download_within_closures (serve shared_registry) 5
           (download "1.20.1" ["left"; "right"])
           (trace (api_download (serve shared_registry) 5
                     (download "1.20.1" ["left"; "right"])))
           {[ "left.jar" := "url-left"; "right.jar" := "url-right";
              "lib.jar" := "url-lib" ]}).
  - vm_compute. reflexivity.
  - vm_compute. reflexivity.
Defined.

(** X12. When every project has one version in play, a mapping returned
    by the endpoint is complete: for every root that has a version, each
    filename of each version in the closure of that root's first version
    is a key of the mapping. *)
Theorem api_download_covers_closures registry fuel data m :
  consistent registry (default EmptyString (req_mc_version data)) [] ->
  result (api_download registry fuel data) = Ret m ->
  forall slug v vs v' f,
    slug ∈ default [] (req_mods data) ->
    result (fetch_mod_versions registry slug
              (default EmptyString (req_mc_version data))) = Ret (v :: vs) ->
    reachable registry (default EmptyString (req_mc_version data)) v v' ->
    f ∈ files v' ->
    filename f ∈ dom m.
Proof.
  intros Hc (_ & _ & Hres & _)%api_download_Ret_inv slug v vs v' f
    Hslug Hfetch Hreach Hf.
  destruct (proj1 (collect_returns_iff registry fuel _ _ ∅)
              (ex_intro _ m Hres) slug Hslug) as (l & Hl & Hwalk).
  rewrite Hfetch in Hl. injection Hl as <-.
  destruct (Hwalk v vs eq_refl) as [d Hd].
  apply (collect_dom registry fuel _ _ _ _ Hres). right.
  exists slug, v, vs, d. split_and!; try done.
  eapply (closure_is_covered registry fuel v _
            (trace (resolve_dependencies registry fuel v _)) d); [| |done|done].
  - apply consistent_chosen; [by exists slug, vs|done].
  - rewrite <- Hd. apply surjective_comp.
Qed.

(** With the roots "left" and "right", lib.jar, which "left" requires,
    is a key. *)
Lemma api_download_covers_closures_witness :
  "lib.jar" ∈ dom ({[ "left.jar" := "url-left"; "right.jar" := "url-right";
                      "lib.jar" := "url-lib" ]} : gmap string string).
Proof.
  refine (api_download_covers_closures (serve shared_registry) 5
            (download "1.20.1" ["left"; "right"]) _ _ _
            "left" left_ver [] lib_ver (one_file "lib.jar" "url-lib")
            _ _ _ _).
  - apply serve_consistent. unfold one_version_per_project.
    apply (bool_decide_unpack _). vm_compute. reflexivity.
  - vm_compute. reflexivity.
  - apply list_elem_of_here.
  - reflexivity.
  - apply (reach_edge _ _ _ left_ver); [apply reach_seed|].
    exists (edge "required" "P-lib"). split; [apply list_elem_of_here|].
    split; [reflexivity|].
    exists {| status_code := 200; json := {| project_slug := "lib" |} |}, [].
    split_and!; reflexivity.
  - apply list_elem_of_here.
Defined.

(** ** The order of the stack *)

(** X13. The dependency loop follows the edges in the order of the list
    and stacks the versions it finds: when it returns, the stack is the
    old one under the versions of the followed edges, the version of the
    edge followed last on top, so that the walk expands it first. An
    edge that is not followed leads nowhere. *)
Theorem check_dependencies_stacks_in_order
    registry mc_version deps to_process to_process' :
  result (check_dependencies registry deps mc_version to_process)
  = Ret to_process' ->
  exists followed pushed,
    followed `sublist_of` deps
    /\ Forall2 (follows registry mc_version) followed pushed
    /\ (forall dep, dep ∈ deps -> dep ∉ followed ->
          forall v, ~ follows registry mc_version dep v)
    /\ to_process' = rev pushed ++ to_process.
Proof.
  revert to_process to_process'.
  induction deps as [|dep deps IH]; intros q q'.
  { intros [= <-]. exists [], [].
    split_and!; try done; by intros dep ?%elem_of_nil. }
  assert (forall followed : list Dependency,
            (forall d, d ∈ deps -> d ∉ followed ->
               forall v, ~ follows registry mc_version d v) ->
            (forall v, ~ follows registry mc_version dep v) ->
            forall d, d ∈ dep :: deps -> d ∉ followed ->
              forall v, ~ follows registry mc_version d v) as Hskip.
  { intros followed Hrest Hno d [->|Hd]%elem_of_cons Hout; [done|].
    by apply Hrest. }
  edge_cases registry mc_version dep deps q; cbn [result snd]; try done.
  - destruct (result (fetch_mod_versions registry _ mc_version))
      as [[|latest dv]|e|] eqn:Hf; cbn [result snd]; try done.
    + intros (followed & pushed & Hsub & Hall & Hrest & ->)%IH.
      exists followed, pushed. split_and!; try done.
      * by apply sublist_cons.
      * apply Hskip; [done|].
        intros v (_ & resp' & vs & Hp' & _ & Hf'). congruence.
    + intros (followed & pushed & Hsub & Hall & Hrest & ->)%IH.
      exists (dep :: followed), (latest :: pushed). split_and!.
      * by apply sublist_skip.
      * constructor; [|done]. split; [done|]. by exists resp, dv.
      * intros d [->|Hd]%elem_of_cons Hout.
        -- destruct Hout. apply list_elem_of_here.
        -- apply Hrest; [done|]. intros Hin. apply Hout.
           by apply list_elem_of_further.
      * cbn [rev]. by rewrite <- app_assoc.
  - intros (followed & pushed & Hsub & Hall & Hrest & ->)%IH.
    exists followed, pushed. split_and!; try done.
    + by apply sublist_cons.
    + apply Hskip; [done|].
      intros v (_ & resp' & vs & Hp' & Hs' & _). congruence.
  - intros (followed & pushed & Hsub & Hall & Hrest & ->)%IH.
    exists followed, pushed. split_and!; try done.
    + by apply sublist_cons.
    + apply Hskip; [done|]. intros v (Hk & _). congruence.
Qed.

(** The edges of "right": the optional one is not followed, the version
    of "lib" ends on top of the stack. *)
Lemma check_dependencies_stacks_in_order_witness :
  exists followed pushed,
    followed `sublist_of` [edge "optional" "P-a"; edge "required" "P-lib"]
    /\ Forall2 (follows (serve shared_registry) "1.20.1") followed pushed
    /\ (forall dep,
          dep ∈ [edge "optional" "P-a"; edge "required" "P-lib"] ->
          dep ∉ followed ->
          forall v, ~ follows (serve shared_registry) "1.20.1" dep v)
    /\ [lib_ver; left_ver] = rev pushed ++ [left_ver].
Proof.
  apply (check_dependencies_stacks_in_order (serve shared_registry) "1.20.1"
           [edge "optional" "P-a"; edge "required" "P-lib"] [left_ver]).
  vm_compute. reflexivity.
Defined.

(** * The roots of a call *)

(** ** Counting in a trace *)

Lemma expansions_occurrences p tr :
  (1 <= occurrences (Expand p) tr)%nat -> p ∈ expansions tr.
Proof.
  rewrite occurrences_expand. intros Hlen.
  destruct (filter (fun q => q = p) (expansions tr)) as [|x l] eqn:Hf;
    [cbn in Hlen; lia|].
  assert (x ∈ filter (fun q => q = p) (expansions tr)) as Hx.
  { rewrite Hf. apply list_elem_of_here. }
  by apply list_elem_of_filter in Hx as [-> Hx].
Qed.

Lemma occurrences_requests rq tr :
  rq ∈ requests tr -> (1 <= occurrences (Get rq) tr)%nat.
Proof.
  induction tr as [|e tr IH]; [by intros ?%elem_of_nil|].
  rewrite occurrences_cons. destruct e as [rq'|q|k u]; cbn [requests].
  - intros [->|H%IH]%elem_of_cons; [|lia]. rewrite decide_True by done. lia.
  - intros H%IH. lia.
  - intros H%IH. lia.
Qed.

Lemma occurrences_concat e (l : list (list event)) :
  occurrences e (concat l) = sum_list_with (occurrences e) l.
Proof.
  induction l as [|t l IH]; [done|].
  cbn [concat sum_list_with]. by rewrite occurrences_app, IH.
Qed.

Lemma sum_list_with_elem {A} (f : A -> nat) a l :
  a ∈ l -> (f a <= sum_list_with f l)%nat.
Proof.
  induction l as [|x l IH]; [by intros ?%elem_of_nil|].
  cbn [sum_list_with]. intros [->|H%IH]%elem_of_cons; lia.
Qed.

Lemma sum_list_with_two {A} (f : A -> nat) a b l :
  a <> b -> a ∈ l -> b ∈ l -> (f a + f b <= sum_list_with f l)%nat.
Proof.
  intros Hne. induction l as [|x l IH]; [by intros ?%elem_of_nil|].
  cbn [sum_list_with].
  intros [->|Ha]%elem_of_cons [->|Hb]%elem_of_cons; try done.
  - pose proof (sum_list_with_elem f b l Hb). lia.
  - pose proof (sum_list_with_elem f a l Ha). lia.
  - specialize (IH Ha Hb). lia.
Qed.

(** ** The requests of the edges of an expanded version *)

Section Asked.

Variable registry : Registry.
Variable mc_version : string.

(** A dependency loop that completes has looked every required edge up,
    and has fetched the version list of every slug a lookup gave. *)
Lemma check_dependencies_asks deps q q' :
  result (check_dependencies registry deps mc_version q) = Ret q' ->
  forall dep,
    dep ∈ deps -> String.eqb (dependency_type dep) "required" = true ->
    ProjectInfo (dep_project_id dep)
      ∈ requests (trace (check_dependencies registry deps mc_version q))
    /\ forall resp,
         get_project registry (dep_project_id dep) = Replied resp ->
         status_code resp = 200 ->
         Versions (project_slug (json resp)) mc_version
           ∈ requests (trace (check_dependencies registry deps mc_version q)).
Proof.
  revert q q'. induction deps as [|dep0 deps IH]; intros q q' Hres dep Hin Hreq.
  { by apply elem_of_nil in Hin. }
  revert Hres.
  edge_cases registry mc_version dep0 deps q; cbn [trace result fst snd].
  - destruct (result (fetch_mod_versions registry _ mc_version))
      as [dv|e|] eqn:Hf; cbn [trace result fst snd]; try done.
    intros Hres. cbn [app requests].
    apply elem_of_cons in Hin as [->|Hin].
    + split; [apply list_elem_of_here|]. intros resp' Hp' _.
      assert (resp' = resp) as -> by congruence.
      apply list_elem_of_further, list_elem_of_here.
    + destruct (IH _ _ Hres dep Hin Hreq) as [H1 H2].
      split; [by do 2 apply list_elem_of_further|].
      intros resp' Hp' Hs'. do 2 apply list_elem_of_further. eauto.
  - intros Hres. cbn [requests]. apply elem_of_cons in Hin as [->|Hin].
    + split; [apply list_elem_of_here|]. intros resp' Hp' Hs'. congruence.
    + destruct (IH _ _ Hres dep Hin Hreq) as [H1 H2].
      split; [by apply list_elem_of_further|].
      intros resp' Hp' Hs'. apply list_elem_of_further. eauto.
  - done.
  - intros Hres. apply elem_of_cons in Hin as [->|Hin]; [congruence|].
    by apply (IH _ _ Hres).
Qed.

(** When each project has one version in play: every required edge of
    a version whose project was expanded was looked up, and the version
    list behind it fetched. *)
Lemma process_asks fuel q processed m0 tr m :
  process registry fuel mc_version q processed m0 = (tr, Ret m) ->
  consistent registry mc_version q ->
  forall v, v ∈ q \/ chosen registry mc_version v ->
    project_id v ∈ expansions tr ->
    forall dep,
      dep ∈ default [] (dependencies v) ->
      String.eqb (dependency_type dep) "required" = true ->
      ProjectInfo (dep_project_id dep) ∈ requests tr
      /\ forall resp,
           get_project registry (dep_project_id dep) = Replied resp ->
           status_code resp = 200 ->
           Versions (project_slug (json resp)) mc_version ∈ requests tr.
Proof.
  revert q processed m0 tr.
  induction fuel as [|fuel IH]; intros [|ver rest] processed m0 tr;
    try (by intros [= <- <-] _ v _ ?%elem_of_nil); try discriminate.
  walk_step registry mc_version fuel ver rest processed m0.
  { intros Hw Hc v Hv Hexp.
    pose proof (process_expansions registry mc_version fuel rest processed m0)
      as [_ Hout].
    rewrite Hw in Hout. cbn [trace fst] in Hout.
    apply (IH _ _ _ _ Hw); [| |done].
    - apply (consistent_tail registry mc_version ver rest []) in Hc; [done|].
      by intros ? ?%elem_of_nil.
    - destruct Hv as [[->|Hv]%elem_of_cons|Hv]; auto.
      by destruct (Hout _ Hexp). }
  destruct (check_dependencies_quiet registry mc_version
              (default [] (dependencies ver)) rest) as [Hqe _].
  destruct (result (check_dependencies _ _ _ _)) as [q'|e|] eqn:Hedges;
    try done.
  intros [= <- Hres] Hc v Hv.
  rewrite expansions_iteration, requests_iteration, Hqe. cbn [app].
  destruct (check_dependencies_follows registry mc_version _ _ _ Hedges)
    as (pushed & -> & Hp).
  assert (process registry fuel mc_version (pushed ++ rest)
            ({[project_id ver]} ∪ processed)
            (replay (map (fun f => (filename f, url f)) (files ver)) m0)
          = (trace (process registry fuel mc_version (pushed ++ rest)
                      ({[project_id ver]} ∪ processed)
                      (replay (map (fun f => (filename f, url f))
                                 (files ver)) m0)), Ret m)) as Hnext.
  { rewrite <- Hres. apply surjective_comp. }
  assert (consistent registry mc_version (pushed ++ rest)) as Hc'.
  { apply (consistent_tail registry mc_version ver); [done|].
    intros w (dep & _ & Hf)%Hp. by eapply follows_chosen. }
  destruct (decide (project_id v = project_id ver)) as [Hsame|Hother].
  - intros _. assert (v = ver) as ->.
    { apply Hc; [done|left; apply list_elem_of_here|done]. }
    intros dep Hdep Hreq.
    destruct (check_dependencies_asks _ _ _ Hedges dep Hdep Hreq) as [H1 H2].
    split; [apply elem_of_app; by left|].
    intros resp Hp' Hs. apply elem_of_app. left. eauto.
  - intros [?|Hexp]%elem_of_cons; [done|]. intros dep Hdep Hreq.
    destruct (IH _ _ _ _ Hnext Hc' v) with (dep := dep) as [H1 H2];
      try done.
    { destruct Hv as [[->|Hv]%elem_of_cons|Hv]; [done| |by right].
      left. apply elem_of_app. by right. }
    split; [apply elem_of_app; by right|].
    intros resp Hp' Hs. apply elem_of_app. right. eauto.
Qed.

(** Whatever the walk expands is the project of a version reachable from
    a version of its stack. *)
Lemma process_expansions_sound fuel q processed m0 tr m :
  process registry fuel mc_version q processed m0 = (tr, Ret m) ->
  forall p, p ∈ expansions tr ->
    exists v0 v,
      v0 ∈ q /\ reachable registry mc_version v0 v /\ project_id v = p.
Proof.
  revert q processed m0 tr.
  induction fuel as [|fuel IH]; intros [|ver rest] processed m0 tr;
    try (by intros [= <- <-] p ?%elem_of_nil); try discriminate.
  walk_step registry mc_version fuel ver rest processed m0.
  { intros Hw p Hp. destruct (IH _ _ _ _ Hw p Hp) as (v0 & v & Hv0 & Hrest).
    exists v0, v. split; [by apply list_elem_of_further|done]. }
  destruct (check_dependencies_quiet registry mc_version
              (default [] (dependencies ver)) rest) as [Hquiet _].
  destruct (result (check_dependencies _ _ _ _)) as [q'|e|] eqn:Hedges;
    try done.
  intros [= <- Hres] p. rewrite expansions_iteration, Hquiet. cbn [app].
  intros [->|Hlater]%elem_of_cons.
  { exists ver, ver. split_and!; [apply list_elem_of_here|apply reach_seed|done]. }
  destruct (check_dependencies_follows registry mc_version _ _ _ Hedges)
    as (pushed & -> & Hp).
  edestruct IH as (v0 & v & Hv0 & Hreach & Hpid);
    [rewrite <- Hres; apply surjective_comp | exact Hlater |].
  apply elem_of_app in Hv0 as [Hv0|Hv0].
  - exists ver, v. split_and!; [apply list_elem_of_here| |done].
    apply (reachable_trans registry mc_version ver v0 v); [|done].
    eapply reach_edge; [apply reach_seed|].
    apply Hp in Hv0 as (dep & Hdep & Hfollows). by exists dep.
  - exists v0, v. split; [by apply list_elem_of_further|done].
Qed.

End Asked.

(** ** The trace of a call, root by root *)

(** When the loop over the roots completes, its trace is made of the
    traces of its roots, one after the other. *)
Lemma collect_trace registry fuel slugs mc_version m0 m :
  result (collect registry fuel slugs mc_version m0) = Ret m ->
  trace (collect registry fuel slugs mc_version m0)
  = concat (map (root_trace registry fuel mc_version) slugs).
Proof.
  revert m0. induction slugs as [|slug slugs IH]; intros m0; [done|].
  rewrite collect_cons. cbn [map concat]. unfold root_trace at 1.
  destruct (result (fetch_mod_versions registry slug mc_version))
    as [[|latest vs]|e|]; cbv zeta; cbn [trace result fst snd]; try done.
  - intros Hres. cbn [app]. f_equal. by eapply IH.
  - destruct (result (resolve_dependencies registry fuel latest mc_version))
      as [d|e|]; cbn [trace result fst snd]; try done.
    intros Hres. cbn [app]. f_equal. f_equal. by eapply IH.
Qed.

(** A call that has run its walks was accepted, and its loop over the
    roots completed. *)
Lemma api_download_walked registry fuel data :
  walked registry fuel data ->
  truthy_str (req_mc_version data) = true
  /\ truthy_list (default [] (req_mods data)) = true
  /\ exists m,
       result (collect registry fuel (default [] (req_mods data))
                 (default EmptyString (req_mc_version data)) ∅) = Ret m
       /\ trace (api_download registry fuel data)
          = trace (collect registry fuel (default [] (req_mods data))
                     (default EmptyString (req_mc_version data)) ∅).
Proof.
  unfold walked.
  destruct (truthy_str (req_mc_version data)) eqn:Hv;
    [|rewrite api_download_rejects by auto; by intros [[m ?]|?]].
  destruct (truthy_list (default [] (req_mods data))) eqn:Hm;
    [|rewrite api_download_rejects by auto; by intros [[m ?]|?]].
  rewrite api_download_accepts by done. cbv zeta. cbn [trace result fst snd].
  destruct (result (collect _ _ _ _ _)) as [m|e|] eqn:Hres.
  - intros _. split_and!; try done. by exists m.
  - apply collect_raises in Hres as ->. by intros [[m ?]|?].
  - by intros [[m ?]|?].
Qed.

(** The answer of the endpoint to an accepted request, from what its
    roots give. *)
Lemma api_download_hollow registry fuel data :
  truthy_str (req_mc_version data) = true ->
  truthy_list (default [] (req_mods data)) = true ->
  (forall slug, slug ∈ default [] (req_mods data) ->
     result (fetch_mod_versions registry slug
               (default EmptyString (req_mc_version data))) = Ret []
     \/ exists v vs,
          result (fetch_mod_versions registry slug
                    (default EmptyString (req_mc_version data))) = Ret (v :: vs)
          /\ result (resolve_dependencies registry fuel v
                       (default EmptyString (req_mc_version data))) = Ret ∅) ->
  result (api_download registry fuel data)
  = Raise (HTTPException 404
      "No compatible mods found for the specified Minecraft version").
Proof.
  intros Hv Hm Hall.
  rewrite api_download_accepts by done. cbv zeta. cbn [result snd].
  destruct (proj2 (collect_returns_iff registry fuel
                     (default EmptyString (req_mc_version data))
                     (default [] (req_mods data)) ∅)) as [m Hres].
  { intros slug Hslug. destruct (Hall slug Hslug) as [Hnone|(v & vs & Hf & Hw)].
    - exists []. split; [done|]. by intros.
    - exists (v :: vs). split; [done|]. intros v' vs' [= <- <-]. eauto. }
  rewrite Hres. rewrite bool_decide_true; [done|].
  apply dom_empty_iff_L. apply set_eq. intros k.
  rewrite (collect_dom registry fuel _ _ _ _ Hres k), dom_empty_L.
  split; [|set_solver].
  intros [?|(slug & v & vs & d & Hslug & Hf & Hd & Hk)]; [done|].
  destruct (Hall slug Hslug) as [Hnone|(v' & vs' & Hf' & Hw)]; [congruence|].
  rewrite Hf in Hf'. injection Hf' as <- <-.
  rewrite Hd in Hw. injection Hw as ->. by rewrite dom_empty_L in Hk.
Qed.

Lemma api_download_404_inv registry fuel data description :
  result (api_download registry fuel data)
  = Raise (HTTPException 404 description) ->
  truthy_str (req_mc_version data) = true
  /\ truthy_list (default [] (req_mods data)) = true
  /\ description
     = "No compatible mods found for the specified Minecraft version"
  /\ result (collect registry fuel (default [] (req_mods data))
               (default EmptyString (req_mc_version data)) ∅) = Ret ∅.
Proof.
  destruct (truthy_str (req_mc_version data)) eqn:Hv;
    [|by rewrite api_download_rejects by auto].
  destruct (truthy_list (default [] (req_mods data))) eqn:Hm;
    [|by rewrite api_download_rejects by auto].
  rewrite api_download_accepts by done. cbv zeta. cbn [result snd].
  destruct (result (collect _ _ _ _ _)) as [m|e|] eqn:Hres; try done.
  - case_bool_decide as Hempty; [|done]. subst m. by intros [= <-].
  - apply collect_raises in Hres as ->. done.
Qed.

Lemma collect_empty_inv registry fuel slugs mc_version :
  result (collect registry fuel slugs mc_version ∅) = Ret ∅ ->
  forall slug, slug ∈ slugs ->
    result (fetch_mod_versions registry slug mc_version) = Ret []
    \/ exists v vs,
         result (fetch_mod_versions registry slug mc_version) = Ret (v :: vs)
         /\ result (resolve_dependencies registry fuel v mc_version) = Ret ∅.
Proof.
  intros Hres slug Hslug.
  destruct (proj1 (collect_returns_iff registry fuel mc_version slugs ∅)
              (ex_intro _ ∅ Hres) slug Hslug) as ([|v vs] & Hl & Hwalk);
    [by left|right].
  destruct (Hwalk v vs eq_refl) as [d Hd]. exists v, vs. split; [done|].
  rewrite Hd. f_equal. apply dom_empty_iff_L. apply set_eq. intros k.
  split; [|set_solver]. intros Hk.
  assert (k ∈ dom (∅ : gmap string string)) as Hin.
  { apply (collect_dom registry fuel _ _ _ _ Hres k). right.
    by exists slug, v, vs, d. }
  by rewrite dom_empty_L in Hin.
Qed.

(** With a transport that answers, the loop over the roots raises
    nothing. *)
Lemma collect_answers registry fuel slugs mc_version m e :
  answers registry mc_version ->
  result (collect registry fuel slugs mc_version m) <> Raise e.
Proof.
  intros Hans. revert m. induction slugs as [|slug slugs IH]; intros m; [done|].
  rewrite collect_cons.
  destruct (fetch_mod_versions_answers registry slug mc_version Hans)
    as [[|latest vs] ->]; cbv zeta; cbn [result snd]; [apply IH|].
  unfold resolve_dependencies.
  destruct (result (process registry fuel mc_version [latest] ∅ ∅))
    as [d|e'|] eqn:Hone; cbn [result snd]; [apply IH| |done].
  destruct (process_answers registry mc_version fuel [latest] ∅ ∅ Hans)
    as [m' Hm']; [by rewrite Hone|]. congruence.
Qed.

(** ** One root of a call *)

Lemma root_trace_walk registry fuel mc_version slug v vs :
  result (fetch_mod_versions registry slug mc_version) = Ret (v :: vs) ->
  root_trace registry fuel mc_version slug
  = Get (Versions slug mc_version)
    :: trace (resolve_dependencies registry fuel v mc_version).
Proof. intros Hf. unfold root_trace. by rewrite Hf. Qed.

(** In a call that has run its walks, the walk of every root that has a
    version returned. *)
Lemma walked_root registry fuel data slug v vs :
  walked registry fuel data ->
  slug ∈ default [] (req_mods data) ->
  result (fetch_mod_versions registry slug
            (default EmptyString (req_mc_version data))) = Ret (v :: vs) ->
  exists d,
    resolve_dependencies registry fuel v
      (default EmptyString (req_mc_version data))
    = (trace (resolve_dependencies registry fuel v
                (default EmptyString (req_mc_version data))), Ret d).
Proof.
  intros (_ & _ & m & Hres & _)%api_download_walked Hslug Hfetch.
  destruct (proj1 (collect_returns_iff registry fuel _ _ ∅)
              (ex_intro _ m Hres) slug Hslug) as (l & Hl & Hwalk).
  rewrite Hfetch in Hl. injection Hl as <-.
  destruct (Hwalk v vs eq_refl) as [d Hd]. exists d.
  rewrite <- Hd. apply surjective_comp.
Qed.

Lemma api_download_trace registry fuel data :
  walked registry fuel data ->
  trace (api_download registry fuel data)
  = concat (map (root_trace registry fuel
                   (default EmptyString (req_mc_version data)))
              (default [] (req_mods data))).
Proof.
  intros (_ & _ & m & Hres & ->)%api_download_walked.
  by eapply collect_trace.
Qed.

(** Two distinct roots whose traces both hold the event [e]. *)
Lemma api_download_twice registry fuel data slug1 slug2 e :
  walked registry fuel data ->
  slug1 <> slug2 ->
  slug1 ∈ default [] (req_mods data) ->
  slug2 ∈ default [] (req_mods data) ->
  (1 <= occurrences e
          (root_trace registry fuel
             (default EmptyString (req_mc_version data)) slug1))%nat ->
  (1 <= occurrences e
          (root_trace registry fuel
             (default EmptyString (req_mc_version data)) slug2))%nat ->
  (2 <= occurrences e (trace (api_download registry fuel data)))%nat.
Proof.
  intros Hw Hne H1 H2 Ho1 Ho2.
  rewrite (api_download_trace _ _ _ Hw), occurrences_concat.
  pose proof (sum_list_with_two
                (fun slug =>
                   occurrences e
                     (root_trace registry fuel
                        (default EmptyString (req_mc_version data)) slug))
                slug1 slug2 _ Hne H1 H2) as Hsum.
  cbv beta in Hsum.
  assert (forall (l : list string),
            sum_list_with (occurrences e)
              (map (root_trace registry fuel
                      (default EmptyString (req_mc_version data))) l)
            = sum_list_with
                (fun slug =>
                   occurrences e
                     (root_trace registry fuel
                        (default EmptyString (req_mc_version data)) slug)) l)
    as Hmap.
  { induction l as [|x l IH]; [done|]. cbn [map sum_list_with]. by rewrite IH. }
  rewrite Hmap. lia.
Qed.

(** The walk of a root: what it expands and what it asks. *)
Lemma root_trace_covers registry fuel data slug v vs w :
  consistent registry (default EmptyString (req_mc_version data)) [] ->
  walked registry fuel data ->
  slug ∈ default [] (req_mods data) ->
  result (fetch_mod_versions registry slug
            (default EmptyString (req_mc_version data))) = Ret (v :: vs) ->
  reachable registry (default EmptyString (req_mc_version data)) v w ->
  occurrences (Expand (project_id w))
    (root_trace registry fuel (default EmptyString (req_mc_version data)) slug)
  = 1%nat
  /\ forall dep,
       dep ∈ default [] (dependencies w) ->
       String.eqb (dependency_type dep) "required" = true ->
       (1 <= occurrences (Get (ProjectInfo (dep_project_id dep)))
               (root_trace registry fuel
                  (default EmptyString (req_mc_version data)) slug))%nat
       /\ forall resp,
            get_project registry (dep_project_id dep) = Replied resp ->
            status_code resp = 200 ->
            (1 <= occurrences
                    (Get (Versions (project_slug (json resp))
                            (default EmptyString (req_mc_version data))))
                    (root_trace registry fuel
                       (default EmptyString (req_mc_version data)) slug))%nat.
Proof.
  intros Hc Hw Hslug Hfetch Hreach.
  destruct (walked_root _ _ _ _ _ _ Hw Hslug Hfetch) as [d Hd].
  assert (consistent registry (default EmptyString (req_mc_version data)) [v])
    as Hcv.
  { apply consistent_chosen; [by exists slug, vs|done]. }
  destruct (closure_is_covered _ _ _ _ _ _ Hcv Hd w Hreach) as [Hone _].
  rewrite (root_trace_walk _ _ _ _ _ _ Hfetch).
  split.
  { rewrite occurrences_cons, decide_False by done. by rewrite Hone. }
  intros dep Hdep Hreq.
  destruct (process_asks registry _ _ _ _ _ _ _ Hd Hcv w) with (dep := dep)
    as [H1 H2]; try done.
  { destruct (reachable_chosen _ _ _ _ Hreach) as [->|?]; [|by right].
    left. apply list_elem_of_here. }
  { apply expansions_occurrences. by rewrite Hone. }
  split.
  - rewrite occurrences_cons.
    apply occurrences_requests in H1. lia.
  - intros resp Hp Hs. rewrite occurrences_cons.
    pose proof (occurrences_requests _ _ (H2 resp Hp Hs)). lia.
Qed.

Lemma root_trace_sound registry fuel data slug p :
  walked registry fuel data ->
  slug ∈ default [] (req_mods data) ->
  (1 <= occurrences (Expand p)
          (root_trace registry fuel
             (default EmptyString (req_mc_version data)) slug))%nat ->
  depends_on registry (default EmptyString (req_mc_version data)) slug p.
Proof.
  intros Hw Hslug. unfold root_trace.
  rewrite occurrences_cons, decide_False by done.
  destruct (result (fetch_mod_versions registry slug _))
    as [[|v vs]|e|] eqn:Hfetch; try (cbn; lia).
  intros Hocc. destruct (walked_root _ _ _ _ _ _ Hw Hslug Hfetch) as [d Hd].
  destruct (process_expansions_sound registry _ _ _ _ _ _ _ Hd p)
    as (v0 & w & ->%list_elem_of_singleton & Hreach & Hpid).
  { apply expansions_occurrences. lia. }
  by exists v, vs, w.
Qed.

(** With a transport that answers and finitely many projects, a call
    for a release and at least one root runs all its walks. *)
Lemma api_download_walks registry mc_version mods universe :
  mc_version <> EmptyString -> mods <> [] ->
  answers registry mc_version ->
  heads_within registry mc_version universe ->
  exists fuel, forall fuel', (fuel <= fuel')%nat ->
    walked registry fuel' (download mc_version mods).
Proof.
  intros Hv Hm Hans Hheads.
  destruct (collect_terminates registry mods mc_version universe Hans Hheads)
    as [fuel Hfuel].
  exists fuel. intros fuel' Hle. destruct (Hfuel fuel' Hle ∅) as [m Hres].
  unfold walked. rewrite api_download_accepts;
    cbn [download req_mc_version req_mods default from_option id truthy_str].
  - cbv zeta. cbn [result snd]. rewrite Hres.
    case_bool_decide; [by right|left; by exists m].
  - by apply negb_true_iff, String.eqb_neq.
  - by destruct mods.
Qed.

(** * The claims on errors and on shared dependencies *)

(** C1, as stated, fails: the root "hollow" has a version that matches
    the release, and the call still ends with the 404 of "no compatible
    mods", because that version ships no file. *)
Lemma C1_hollow_root_counterexample :
  fetch_mod_versions (serve hollow_registry) "hollow" "1.20.1"
  = ([Get (Versions "hollow" "1.20.1")], Ret [hollow_ver])
  /\ api_download (serve hollow_registry) 5 (download "1.20.1" ["hollow"])
     = ([Get (Versions "hollow" "1.20.1"); Expand "P-hollow"],
        Raise (HTTPException 404
          "No compatible mods found for the specified Minecraft version"))
  /\ ~ (exists m, result (api_download (serve hollow_registry) 5
                            (download "1.20.1" ["hollow"])) = Ret m).
Proof.
  split_and!; try (vm_compute; reflexivity).
  intros [m H]. vm_compute in H. discriminate.
Qed.

(** C1, amended. The call fails with the 404 of "no compatible mods"
    exactly when no file was collected.
    - If every root has an empty version list, it fails so.
    - If it fails so, every root that has a matching version has one that
      ships no file.
    - If the transport answers, the projects are finitely many, and some
      root has a matching version that ships a file, then with enough
      budget the call returns a non-empty mapping and raises nothing,
      whatever the other roots yield.
    - An accepted request gets the 404 if and only if every root has an
      empty version list or a walk that returns the empty mapping.
    - A 404 carries that message and means that the loop over the roots
      completed with the empty mapping; whatever mapping the loop
      completes with decides the answer, and a mapping that is returned
      is never empty.
    - When every project has one version in play, the 404 means that no
      version in the closure of any root ships a file; and a call that
      has run its walks gets the 404 whenever no such version ships a
      file. *)
Theorem C1_fails_only_when_nothing_is_collected registry :
  (forall fuel mc_version mods,
     mc_version <> EmptyString -> mods <> [] ->
     (forall slug, slug ∈ mods ->
        result (fetch_mod_versions registry slug mc_version) = Ret []) ->
     api_download registry fuel (download mc_version mods)
     = (map (fun slug => Get (Versions slug mc_version)) mods,
        Raise (HTTPException 404
          "No compatible mods found for the specified Minecraft version")))
  /\ (forall fuel data description,
        result (api_download registry fuel data)
        = Raise (HTTPException 404 description) ->
        forall slug v vs,
          slug ∈ default [] (req_mods data) ->
          result (fetch_mod_versions registry slug
                    (default EmptyString (req_mc_version data))) = Ret (v :: vs) ->
          files v = [])
  /\ (forall mc_version mods universe,
        mc_version <> EmptyString ->
        answers registry mc_version ->
        heads_within registry mc_version universe ->
        (exists slug v vs,
           slug ∈ mods
           /\ result (fetch_mod_versions registry slug mc_version)
              = Ret (v :: vs)
           /\ files v <> []) ->
        exists fuel, forall fuel', (fuel <= fuel')%nat ->
          exists m,
            result (api_download registry fuel' (download mc_version mods))
            = Ret m
            /\ m <> ∅)
  /\ (forall fuel data,
        truthy_str (req_mc_version data) = true ->
        truthy_list (default [] (req_mods data)) = true ->
        result (api_download registry fuel data)
        = Raise (HTTPException 404
            "No compatible mods found for the specified Minecraft version")
        <-> forall slug,
              slug ∈ default [] (req_mods data) ->
              result (fetch_mod_versions registry slug
                        (default EmptyString (req_mc_version data))) = Ret []
              \/ exists v vs,
                   result (fetch_mod_versions registry slug
                             (default EmptyString (req_mc_version data)))
                   = Ret (v :: vs)
                   /\ result (resolve_dependencies registry fuel v
                                (default EmptyString (req_mc_version data)))
                      = Ret ∅)
  /\ (forall fuel data description,
        result (api_download registry fuel data)
        = Raise (HTTPException 404 description) ->
        description
        = "No compatible mods found for the specified Minecraft version"
        /\ result (collect registry fuel (default [] (req_mods data))
                     (default EmptyString (req_mc_version data)) ∅) = Ret ∅)
  /\ (forall fuel data m,
        truthy_str (req_mc_version data) = true ->
        truthy_list (default [] (req_mods data)) = true ->
        result (collect registry fuel (default [] (req_mods data))
                  (default EmptyString (req_mc_version data)) ∅) = Ret m ->
        result (api_download registry fuel data)
        = if bool_decide (m = ∅) then
            Raise (HTTPException 404
              "No compatible mods found for the specified Minecraft version")
          else Ret m)
  /\ (forall fuel data m,
        result (api_download registry fuel data) = Ret m ->
        m <> ∅
        /\ result (collect registry fuel (default [] (req_mods data))
                     (default EmptyString (req_mc_version data)) ∅) = Ret m)
  /\ (forall fuel data description,
        consistent registry (default EmptyString (req_mc_version data)) [] ->
        result (api_download registry fuel data)
        = Raise (HTTPException 404 description) ->
        forall slug v vs w,
          slug ∈ default [] (req_mods data) ->
          result (fetch_mod_versions registry slug
                    (default EmptyString (req_mc_version data))) = Ret (v :: vs) ->
          reachable registry (default EmptyString (req_mc_version data)) v w ->
          files w = [])
  /\ (forall fuel data,
        walked registry fuel data ->
        (forall slug v vs w,
           slug ∈ default [] (req_mods data) ->
           result (fetch_mod_versions registry slug
                     (default EmptyString (req_mc_version data)))
           = Ret (v :: vs) ->
           reachable registry (default EmptyString (req_mc_version data)) v w ->
           files w = []) ->
        result (api_download registry fuel data)
        = Raise (HTTPException 404
            "No compatible mods found for the specified Minecraft version")).
Proof.
  split_and!.
  - intros fuel mc_version mods Hv Hm Hnone.
    rewrite api_download_accepts; cbn [download req_mc_version req_mods
                                         default from_option id truthy_str].
    + cbv zeta. rewrite collect_none by done. done.
    + by apply negb_true_iff, String.eqb_neq.
    + by destruct mods.
  - intros fuel data description.
    destruct (truthy_str (req_mc_version data)) eqn:Hv;
      [|by rewrite api_download_rejects by auto].
    destruct (truthy_list (default [] (req_mods data))) eqn:Hm;
      [|by rewrite api_download_rejects by auto].
    rewrite api_download_accepts by done. cbv zeta. cbn [result snd].
    destruct (result (collect _ _ _ _ _)) as [m|e|] eqn:Hres; try done.
    + case_bool_decide as Hempty; [|done]. subst m.
      intros _ slug v vs Hslug Hfetch.
      destruct (files v) as [|f fs] eqn:Hfiles; [done|].
      destruct (collect_keys registry fuel (default [] (req_mods data))
                  (default EmptyString (req_mc_version data)) ∅
                  (trace (collect registry fuel (default [] (req_mods data))
                            (default EmptyString (req_mc_version data)) ∅)) ∅)
        as [_ Hkeys].
      { rewrite <- Hres. apply surjective_comp. }
      specialize (Hkeys slug v vs f Hslug Hfetch).
      rewrite Hfiles in Hkeys. specialize (Hkeys (list_elem_of_here _ _)).
      set_solver.
    + intros [= ->]. by apply collect_raises in Hres.
  - intros mc_version mods universe Hv Hans Hheads
      (slug & v & vs & Hslug & Hfetch & Hfiles).
    destruct (collect_terminates registry mods mc_version universe Hans Hheads)
      as [fuel Hfuel].
    exists fuel. intros fuel' Hle.
    destruct (Hfuel fuel' Hle ∅) as [m Hm].
    exists m. rewrite api_download_accepts;
      cbn [download req_mc_version req_mods default from_option id
           truthy_str].
    + cbv zeta. rewrite Hm. cbn [result snd].
      destruct (collect_keys registry fuel' mods mc_version ∅
                  (trace (collect registry fuel' mods mc_version ∅)) m)
        as [_ Hkeys].
      { rewrite <- Hm. apply surjective_comp. }
      destruct (files v) as [|f fs] eqn:Hf; [done|].
      specialize (Hkeys slug v vs f Hslug Hfetch).
      rewrite Hf in Hkeys. specialize (Hkeys (list_elem_of_here _ _)).
      assert (m <> ∅) as Hne by (intros ->; set_solver).
      by rewrite bool_decide_false.
    + by apply negb_true_iff, String.eqb_neq.
    + destruct mods; [by apply elem_of_nil in Hslug|done].
  - intros fuel data Hv Hm. split.
    + intros (_ & _ & _ & Hres)%api_download_404_inv.
      by apply collect_empty_inv.
    + by apply api_download_hollow.
  - intros fuel data description (_ & _ & Hd & Hres)%api_download_404_inv.
    done.
  - intros fuel data m Hv Hm Hres.
    rewrite api_download_accepts by done. cbv zeta. cbn [result snd].
    by rewrite Hres.
  - intros fuel data m (_ & _ & Hres & Hne)%api_download_Ret_inv. done.
  - intros fuel data description Hc (_ & _ & _ & Hres)%api_download_404_inv
      slug v vs w Hslug Hfetch Hreach.
    destruct (collect_empty_inv registry fuel _ _ Hres slug Hslug)
      as [Hnone|(v' & vs' & Hf' & Hwalk)]; [congruence|].
    rewrite Hfetch in Hf'. injection Hf' as <- <-.
    destruct (files w) as [|f fs] eqn:Hfiles; [done|].
    destruct (closure_is_covered registry fuel v
                (default EmptyString (req_mc_version data))
                (trace (resolve_dependencies registry fuel v
                          (default EmptyString (req_mc_version data)))) ∅)
      with (v := w) as [_ Hkeys]; [| |done|].
    { apply consistent_chosen; [by exists slug, vs|done]. }
    { rewrite <- Hwalk. apply surjective_comp. }
    specialize (Hkeys f). rewrite Hfiles in Hkeys.
    specialize (Hkeys (list_elem_of_here _ _)). set_solver.
  - intros fuel data [[m Hm]|H404] Hnone; [|done].
    apply api_download_Ret_inv in Hm as Hinv.
    destruct Hinv as (_ & _ & _ & Hne).
    apply map_choose in Hne as (k & u & Hk).
    assert (api_download registry fuel data
            = (trace (api_download registry fuel data), Ret m)) as Hrun.
    { rewrite <- Hm. apply surjective_comp. }
    pose proof (api_download_replay registry _ _ _ _ Hrun) as Hreplay.
    rewrite Hreplay, replay_lookup, lookup_empty in Hk.
    destruct (last_write k (stores (trace (api_download registry fuel data))))
      as [u'|] eqn:Hlast; [|done].
    apply last_write_elem in Hlast.
    apply api_download_Ret_trace in Hrun.
    destruct (collect_sound registry fuel _ _ _ _ _ Hrun k u' Hlast)
      as (slug & v & vs & w & f & Hslug & Hfetch & Hreach & Hf & _).
    rewrite (Hnone slug v vs w Hslug Hfetch Hreach) in Hf.
    by apply elem_of_nil in Hf.
Qed.

(** A single unsatisfiable root fails; an unsatisfiable root next to
    "sodium" does not; and the root "hollow", whose walk returns the
    empty mapping, fails too. *)
Lemma C1_partial_result_witness :
  api_download (serve hollow_registry) 5 (download "1.20.1" ["nothing"])
  = ([Get (Versions "nothing" "1.20.1")],
     Raise (HTTPException 404
       "No compatible mods found for the specified Minecraft version"))
  /\ result (api_download (serve (sodium_registry "url1" "url2")) 2
               (download "1.20.1" ["nothing"; "sodium"]))
     = Ret {[ "sodium.jar" := "url1"; "fabric-api.jar" := "url2" ]}
  /\ (exists fuel, forall fuel', (fuel <= fuel')%nat ->
        exists m,
          result (api_download (serve (sodium_registry "url1" "url2")) fuel'
                    (download "1.20.1" ["nothing"; "sodium"])) = Ret m
          /\ m <> ∅)
  /\ result (api_download (serve hollow_registry) 5
               (download "1.20.1" ["nothing"; "hollow"]))
     = Raise (HTTPException 404
         "No compatible mods found for the specified Minecraft version").
Proof.
  split_and!.
  - apply (proj1 (C1_fails_only_when_nothing_is_collected
                    (serve hollow_registry)) 5%nat "1.20.1" ["nothing"]).
    + discriminate.
    + discriminate.
    + intros slug Hin. apply list_elem_of_singleton in Hin. subst slug.
      reflexivity.
  - vm_compute. reflexivity.
  - apply (proj1 (proj2 (proj2 (C1_fails_only_when_nothing_is_collected
                                  (serve (sodium_registry "url1" "url2")))))
             "1.20.1" ["nothing"; "sodium"]
             (snapshot_ids (snap_versions (sodium_registry "url1" "url2")))).
    + discriminate.
    + apply serve_answers.
    + apply serve_heads_within.
    + exists "sodium", (sodium_ver "url1"), [].
      split_and!; [|reflexivity|discriminate].
      apply list_elem_of_further, list_elem_of_here.
  - apply (proj2 (proj1 (proj2 (proj2 (proj2
             (C1_fails_only_when_nothing_is_collected (serve hollow_registry)))))
             5%nat (download "1.20.1" ["nothing"; "hollow"])
             eq_refl eq_refl)).
    intros slug [->|[->|Hin%elem_of_nil]%elem_of_cons]%elem_of_cons;
      [left; reflexivity|right|done].
    exists hollow_ver, []. split; reflexivity.
Defined.

(** C8, as stated, fails: when the transport raises, the exception goes
    through the client functions, through the walk and through the
    endpoint. *)
Lemma C8_transport_failure_counterexample :
  fetch_mod_versions unreachable "sodium" "1.20.1"
  = ([Get (Versions "sodium" "1.20.1")], Raise RequestException)
  /\ fetch_fabric_mods unreachable 50
     = ([Get (Search 50)], Raise RequestException)
  /\ resolve_dependencies (lookup_down (sodium_registry "url1" "url2")) 5
       (sodium_ver "url1") "1.20.1"
     = ([Expand "P-sodium"; Store "sodium.jar" "url1";
         Get (ProjectInfo "P-fabric-api")], Raise RequestException)
  /\ api_download unreachable 5 (download "1.20.1" ["sodium"])
     = ([Get (Versions "sodium" "1.20.1")], Raise RequestException).
Proof. split_and!; vm_compute; reflexivity. Qed.

(** C8, amended. Whenever the registry answers, whatever the status,
    the client functions return a value and raise nothing: the parsed
    body for status 200, the empty list otherwise; a project lookup
    answered with another status than 200 makes the walk skip the edge.
    An exception raised by the transport itself is not caught: it is the
    outcome of the client function.
    - A project lookup answered with 200 gives the slug of the body, for
      which the version list is fetched next.
    - The exception goes through the resolver and through the endpoint:
      if the transport raises on a request that the walk, or the call,
      sends, then the exception of [requests.get] is the outcome of the
      walk, or of the call.
    - Nothing else is ever raised by the resolver, and the endpoint
      raises nothing else but its own 400 and 404.
    - With a transport that answers every request, the resolver raises
      nothing and the endpoint nothing but its own 400 and 404. *)
Theorem C8_client_returns_when_registry_answers registry :
  (forall limit resp,
     get_search registry limit = Replied resp ->
     fetch_fabric_mods registry limit
     = ([Get (Search limit)],
        Ret (if status_code resp =? 200
             then map (fun h => {| slug := hit_slug h; name := hit_title h |})
                      (json resp)
             else [])))
  /\ (forall slug mc_version resp,
        get_versions registry slug mc_version = Replied resp ->
        fetch_mod_versions registry slug mc_version
        = ([Get (Versions slug mc_version)],
           Ret (if status_code resp =? 200 then json resp else [])))
  /\ (forall mc_version dep deps to_process resp,
        String.eqb (dependency_type dep) "required" = true ->
        get_project registry (dep_project_id dep) = Replied resp ->
        status_code resp <> 200 ->
        let rest := check_dependencies registry deps mc_version to_process in
        check_dependencies registry (dep :: deps) mc_version to_process
        = (Get (ProjectInfo (dep_project_id dep)) :: trace rest, result rest))
  /\ (forall limit,
        get_search registry limit = ConnectionError ->
        result (fetch_fabric_mods registry limit) = Raise RequestException)
  /\ (forall slug mc_version,
        get_versions registry slug mc_version = ConnectionError ->
        result (fetch_mod_versions registry slug mc_version)
        = Raise RequestException)
  /\ (forall mc_version dep deps to_process,
        String.eqb (dependency_type dep) "required" = true ->
        get_project registry (dep_project_id dep) = ConnectionError ->
        result (check_dependencies registry (dep :: deps) mc_version
                  to_process)
        = Raise RequestException)
  /\ (forall mc_version dep deps to_process resp,
        String.eqb (dependency_type dep) "required" = true ->
        get_project registry (dep_project_id dep) = Replied resp ->
        status_code resp = 200 ->
        let slug := project_slug (json resp) in
        let seen := [Get (ProjectInfo (dep_project_id dep));
                     Get (Versions slug mc_version)] in
        check_dependencies registry (dep :: deps) mc_version to_process
        = match result (fetch_mod_versions registry slug mc_version) with
          | Ret dep_versions =>
              let rest :=
                check_dependencies registry deps mc_version
                  match dep_versions with
                  | [] => to_process
                  | latest :: _ => latest :: to_process
                  end in
              (seen ++ trace rest, result rest)
          | Raise e => (seen, Raise e)
          | OutOfFuel => (seen, OutOfFuel)
          end)
  /\ (forall fuel seed mc_version rq,
        rq ∈ requests (trace (resolve_dependencies registry fuel seed
                                mc_version)) ->
        ~ answered registry rq ->
        result (resolve_dependencies registry fuel seed mc_version)
        = Raise RequestException)
  /\ (forall fuel data rq,
        rq ∈ requests (trace (api_download registry fuel data)) ->
        ~ answered registry rq ->
        result (api_download registry fuel data) = Raise RequestException)
  /\ (forall fuel seed mc_version e,
        result (resolve_dependencies registry fuel seed mc_version) = Raise e ->
        e = RequestException)
  /\ (forall fuel data e,
        result (api_download registry fuel data) = Raise e ->
        e = RequestException
        \/ e = HTTPException 400 "Minecraft version and mod list required"
        \/ e = HTTPException 404
                 "No compatible mods found for the specified Minecraft version")
  /\ (forall fuel seed mc_version e,
        answers registry mc_version ->
        result (resolve_dependencies registry fuel seed mc_version) <> Raise e)
  /\ (forall fuel data,
        answers registry (default EmptyString (req_mc_version data)) ->
        result (api_download registry fuel data) <> Raise RequestException).
Proof.
  split_and!.
  - intros limit resp H. by rewrite fetch_fabric_mods_eq, H.
  - intros slug mc_version resp H. by rewrite fetch_mod_versions_eq, H.
  - intros mc_version dep deps q resp Hk Hp Hs rest.
    exact (check_dependencies_lookup_absent registry mc_version dep deps q
             resp Hk Hp Hs).
  - intros limit H. by rewrite fetch_fabric_mods_eq, H.
  - intros slug mc_version H. by rewrite fetch_mod_versions_eq, H.
  - intros mc_version dep deps q Hk Hp.
    by rewrite (check_dependencies_lookup_raises registry mc_version dep
                  deps q Hk Hp).
  - intros mc_version dep deps q resp Hk Hp Hs.
    exact (check_dependencies_lookup_found registry mc_version dep deps q
             resp Hk Hp Hs).
  - intros fuel seed mc_version rq Hrq Hno. unfold resolve_dependencies in *.
    pose proof (process_answered registry mc_version fuel [seed] ∅ ∅) as Hall.
    destruct (result (process registry fuel mc_version [seed] ∅ ∅))
      as [m|e|] eqn:Hres.
    + destruct Hno. revert rq Hrq. apply Forall_forall. by apply Hall.
    + by apply process_raises in Hres as ->.
    + destruct Hno. revert rq Hrq. apply Forall_forall. by apply Hall.
  - intros fuel data rq.
    destruct (truthy_str (req_mc_version data)) eqn:Hv;
      [|rewrite api_download_rejects by auto; by intros ?%elem_of_nil].
    destruct (truthy_list (default [] (req_mods data))) eqn:Hm;
      [|rewrite api_download_rejects by auto; by intros ?%elem_of_nil].
    rewrite api_download_accepts by done. cbv zeta. cbn [trace result fst snd].
    intros Hrq Hno.
    pose proof (collect_answered registry
                  (default EmptyString (req_mc_version data)) fuel
                  (default [] (req_mods data)) ∅) as Hall.
    destruct (result (collect _ _ _ _ _)) as [m|e|] eqn:Hres.
    + destruct Hno. revert rq Hrq. apply Forall_forall. by apply Hall.
    + by apply collect_raises in Hres as ->.
    + destruct Hno. revert rq Hrq. apply Forall_forall. by apply Hall.
  - intros fuel seed mc_version e. apply process_raises.
  - intros fuel data e.
    destruct (truthy_str (req_mc_version data)) eqn:Hv;
      [|rewrite api_download_rejects by auto; intros [= <-]; auto].
    destruct (truthy_list (default [] (req_mods data))) eqn:Hm;
      [|rewrite api_download_rejects by auto; intros [= <-]; auto].
    rewrite api_download_accepts by done. cbv zeta. cbn [result snd].
    destruct (result (collect _ _ _ _ _)) as [m|e'|] eqn:Hres; try done.
    + case_bool_decide; [|done]. intros [= <-]. auto.
    + intros [= <-]. left. by eapply collect_raises.
  - intros fuel seed mc_version e Hans Hres.
    destruct (process_answers registry mc_version fuel [seed] ∅ ∅ Hans)
      as [m Hm]; unfold resolve_dependencies in Hres; congruence.
  - intros fuel data Hans.
    destruct (truthy_str (req_mc_version data)) eqn:Hv;
      [|by rewrite api_download_rejects by auto].
    destruct (truthy_list (default [] (req_mods data))) eqn:Hm;
      [|by rewrite api_download_rejects by auto].
    rewrite api_download_accepts by done. cbv zeta. cbn [result snd].
    pose proof (collect_answers registry fuel (default [] (req_mods data))
                  (default EmptyString (req_mc_version data)) ∅
                  RequestException Hans) as Hno.
    destruct (result (collect _ _ _ _ _)) as [m|e'|] eqn:Hres; try done.
    by case_bool_decide.
Qed.

(** A 404, a 200 and a transport failure of the version list; a lookup
    answered with 200; and a lookup on which the transport raises, inside
    a walk and inside a call. *)
Lemma C8_client_returns_witness :
  fetch_mod_versions (serve hollow_registry) "nothing" "1.20.1"
  = ([Get (Versions "nothing" "1.20.1")], Ret [])
  /\ fetch_mod_versions (serve hollow_registry) "hollow" "1.20.1"
     = ([Get (Versions "hollow" "1.20.1")], Ret [hollow_ver])
  /\ result (fetch_mod_versions unreachable "hollow" "1.20.1")
     = Raise RequestException
  /\ check_dependencies (serve (sodium_registry "url1" "url2"))
       [edge "required" "P-fabric-api"] "1.20.1" []
     = ([Get (ProjectInfo "P-fabric-api"); Get (Versions "fabric-api" "1.20.1")],
        Ret [fabric_api_ver "url2"])
  /\ result (resolve_dependencies (lookup_down (sodium_registry "url1" "url2"))
               5 (sodium_ver "url1") "1.20.1")
     = Raise RequestException
  /\ result (api_download (lookup_down (sodium_registry "url1" "url2")) 5
               (download "1.20.1" ["sodium"]))
     = Raise RequestException.
Proof.
  split_and!.
  - apply (proj1 (proj2 (C8_client_returns_when_registry_answers
                           (serve hollow_registry)))
             "nothing" "1.20.1" {| status_code := 404; json := [] |}).
    reflexivity.
  - apply (proj1 (proj2 (C8_client_returns_when_registry_answers
                           (serve hollow_registry)))
             "hollow" "1.20.1" {| status_code := 200; json := [hollow_ver] |}).
    reflexivity.
  - apply (proj1 (proj2 (proj2 (proj2 (proj2
             (C8_client_returns_when_registry_answers unreachable)))))
             "hollow" "1.20.1").
    reflexivity.
  - apply (proj1 (proj2 (proj2 (proj2 (proj2 (proj2 (proj2
             (C8_client_returns_when_registry_answers
                (serve (sodium_registry "url1" "url2")))))))))
             "1.20.1" (edge "required" "P-fabric-api") [] []
             {| status_code := 200;
                json := {| project_slug := "fabric-api" |} |});
      reflexivity.
  - apply (proj1 (proj2 (proj2 (proj2 (proj2 (proj2 (proj2 (proj2
             (C8_client_returns_when_registry_answers
                (lookup_down (sodium_registry "url1" "url2"))))))))))
             5%nat (sodium_ver "url1") "1.20.1" (ProjectInfo "P-fabric-api")).
    + vm_compute. apply list_elem_of_here.
    + intros H. by apply H.
  - apply (proj1 (proj2 (proj2 (proj2 (proj2 (proj2 (proj2 (proj2 (proj2
             (C8_client_returns_when_registry_answers
                (lookup_down (sodium_registry "url1" "url2")))))))))))
             5%nat (download "1.20.1" ["sodium"]) (ProjectInfo "P-fabric-api")).
    + vm_compute. apply list_elem_of_further, list_elem_of_here.
    + intros H. by apply H.
Defined.

(** C3, as stated, fails.
    - With the roots "left" and "right" that both require the project
      "P-lib", the call looks "P-lib" up twice, fetches the version list
      of "lib" twice and expands "P-lib" twice, once in the walk of each
      root.
    - In one walk of a diamond, where "west" and "east" both require
      "P-base", that project is looked up twice and its version list
      fetched twice, once for each edge, while it is expanded once.
    - When "lib" has no version for the release, the two roots that
      require it are served and "P-lib" is not expanded at all. *)
Lemma C3_shared_dependency_counterexample :
  (let run := api_download (serve shared_registry) 5
                (download "1.20.1" ["left"; "right"]) in
   result run = Ret {[ "left.jar" := "url-left"; "right.jar" := "url-right";
                       "lib.jar" := "url-lib" ]}
   /\ occurrences (Get (ProjectInfo "P-lib")) (trace run) = 2%nat
   /\ occurrences (Get (Versions "lib" "1.20.1")) (trace run) = 2%nat
   /\ occurrences (Expand "P-lib") (trace run) = 2%nat
   /\ occurrences (Store "lib.jar" "url-lib") (trace run) = 2%nat
   /\ ~ (occurrences (Get (ProjectInfo "P-lib")) (trace run) = 1%nat
         /\ occurrences (Get (Versions "lib" "1.20.1")) (trace run) = 1%nat
         /\ occurrences (Store "lib.jar" "url-lib") (trace run) = 1%nat))
  /\ (let walk := resolve_dependencies (serve diamond_registry) 5
                    diamond_top "1.20.1" in
      result walk = Ret {[ "top.jar" := "url-top"; "west.jar" := "url-west";
                           "east.jar" := "url-east"; "base.jar" := "url-base" ]}
      /\ occurrences (Get (ProjectInfo "P-base")) (trace walk) = 2%nat
      /\ occurrences (Get (Versions "base" "1.20.1")) (trace walk) = 2%nat
      /\ occurrences (Expand "P-base") (trace walk) = 1%nat
      /\ occurrences (Store "base.jar" "url-base") (trace walk) = 1%nat)
  /\ (let run := api_download (serve shared_registry_broken) 5
                   (download "1.20.1" ["left"; "right"]) in
      result run = Ret {[ "left.jar" := "url-left"; "right.jar" := "url-right" ]}
      /\ occurrences (Get (ProjectInfo "P-lib")) (trace run) = 2%nat
      /\ occurrences (Expand "P-lib") (trace run) = 0%nat).
Proof.
  cbv zeta. split_and!; try (vm_compute; reflexivity).
  intros [H _]. vm_compute in H. discriminate.
Qed.

(** C3, amended. The processed set belongs to one walk, and the call
    starts one walk per root.
    - A project is expanded, and its files written, at most once in the
      walk of each root, hence at most as many times over the whole call
      as there are roots.
    - When every project has one version in play, a walk that returns
      has expanded the project of every version it can reach exactly
      once, has written its files, and has looked up each of its
      required edges, and fetched the version list behind each lookup
      answered with 200, at least once.
    - A walk that returns expands nothing but the projects of versions it
      can reach.
    - The trace of a call that has run its walks is made of the traces of
      its roots, in order: the fetch of the root's version list and, when
      the list is not empty, the walk from its element 0.
    - In such a call, a root expands a project once if it depends on it
      and not at all otherwise, and it asks for the edges of every version
      it reaches.
    - So a project on which two distinct roots depend is expanded at
      least twice over the call, and exactly twice when they are the only
      roots; an edge to one project met under both roots is looked up at
      least twice, and the version list behind it fetched at least twice.
    - With a transport that answers and finitely many projects, a call
      for a release and at least one root does run its walks, for every
      budget from some budget on. *)
Theorem C3_expanded_once_per_root registry :
  (forall fuel seed mc_version p,
     (occurrences (Expand p)
        (trace (resolve_dependencies registry fuel seed mc_version))
      <= 1)%nat)
  /\ (forall fuel data p,
        (occurrences (Expand p) (trace (api_download registry fuel data))
         <= length (default [] (req_mods data)))%nat)
  /\ (forall fuel seed mc_version tr m,
        consistent registry mc_version [seed] ->
        resolve_dependencies registry fuel seed mc_version = (tr, Ret m) ->
        forall v,
          reachable registry mc_version seed v ->
          occurrences (Expand (project_id v)) tr = 1%nat
          /\ (forall f, f ∈ files v -> filename f ∈ dom m)
          /\ forall dep,
               dep ∈ default [] (dependencies v) ->
               String.eqb (dependency_type dep) "required" = true ->
               (1 <= occurrences (Get (ProjectInfo (dep_project_id dep))) tr)%nat
               /\ forall resp,
                    get_project registry (dep_project_id dep) = Replied resp ->
                    status_code resp = 200 ->
                    (1 <= occurrences
                            (Get (Versions (project_slug (json resp))
                                    mc_version)) tr)%nat)
  /\ (forall fuel seed mc_version tr m p,
        resolve_dependencies registry fuel seed mc_version = (tr, Ret m) ->
        (1 <= occurrences (Expand p) tr)%nat ->
        exists v, reachable registry mc_version seed v /\ project_id v = p)
  /\ (forall fuel data,
        walked registry fuel data ->
        trace (api_download registry fuel data)
        = concat (map (root_trace registry fuel
                         (default EmptyString (req_mc_version data)))
                    (default [] (req_mods data))))
  /\ (forall fuel data slug p,
        consistent registry (default EmptyString (req_mc_version data)) [] ->
        walked registry fuel data ->
        slug ∈ default [] (req_mods data) ->
        (depends_on registry (default EmptyString (req_mc_version data)) slug p ->
         occurrences (Expand p)
           (root_trace registry fuel
              (default EmptyString (req_mc_version data)) slug) = 1%nat)
        /\ (~ depends_on registry (default EmptyString (req_mc_version data))
                slug p ->
            occurrences (Expand p)
              (root_trace registry fuel
                 (default EmptyString (req_mc_version data)) slug) = 0%nat))
  /\ (forall fuel data slug v vs w dep,
        consistent registry (default EmptyString (req_mc_version data)) [] ->
        walked registry fuel data ->
        slug ∈ default [] (req_mods data) ->
        result (fetch_mod_versions registry slug
                  (default EmptyString (req_mc_version data))) = Ret (v :: vs) ->
        reachable registry (default EmptyString (req_mc_version data)) v w ->
        dep ∈ default [] (dependencies w) ->
        String.eqb (dependency_type dep) "required" = true ->
        (1 <= occurrences (Get (ProjectInfo (dep_project_id dep)))
                (root_trace registry fuel
                   (default EmptyString (req_mc_version data)) slug))%nat
        /\ forall resp,
             get_project registry (dep_project_id dep) = Replied resp ->
             status_code resp = 200 ->
             (1 <= occurrences
                     (Get (Versions (project_slug (json resp))
                             (default EmptyString (req_mc_version data))))
                     (root_trace registry fuel
                        (default EmptyString (req_mc_version data)) slug))%nat)
  /\ (forall fuel data slug1 slug2 p,
        consistent registry (default EmptyString (req_mc_version data)) [] ->
        walked registry fuel data ->
        slug1 <> slug2 ->
        slug1 ∈ default [] (req_mods data) ->
        slug2 ∈ default [] (req_mods data) ->
        depends_on registry (default EmptyString (req_mc_version data)) slug1 p ->
        depends_on registry (default EmptyString (req_mc_version data)) slug2 p ->
        (2 <= occurrences (Expand p) (trace (api_download registry fuel data)))%nat
        /\ (req_mods data = Some [slug1; slug2] ->
            occurrences (Expand p) (trace (api_download registry fuel data))
            = 2%nat))
  /\ (forall fuel data slug1 slug2 v1 vs1 w1 dep1 v2 vs2 w2 dep2,
        consistent registry (default EmptyString (req_mc_version data)) [] ->
        walked registry fuel data ->
        slug1 <> slug2 ->
        slug1 ∈ default [] (req_mods data) ->
        slug2 ∈ default [] (req_mods data) ->
        result (fetch_mod_versions registry slug1
                  (default EmptyString (req_mc_version data)))
        = Ret (v1 :: vs1) ->
        result (fetch_mod_versions registry slug2
                  (default EmptyString (req_mc_version data)))
        = Ret (v2 :: vs2) ->
        reachable registry (default EmptyString (req_mc_version data)) v1 w1 ->
        reachable registry (default EmptyString (req_mc_version data)) v2 w2 ->
        dep1 ∈ default [] (dependencies w1) ->
        dep2 ∈ default [] (dependencies w2) ->
        String.eqb (dependency_type dep1) "required" = true ->
        String.eqb (dependency_type dep2) "required" = true ->
        dep_project_id dep1 = dep_project_id dep2 ->
        (2 <= occurrences (Get (ProjectInfo (dep_project_id dep1)))
                (trace (api_download registry fuel data)))%nat
        /\ forall resp,
             get_project registry (dep_project_id dep1) = Replied resp ->
             status_code resp = 200 ->
             (2 <= occurrences
                     (Get (Versions (project_slug (json resp))
                             (default EmptyString (req_mc_version data))))
                     (trace (api_download registry fuel data)))%nat)
  /\ (forall mc_version mods universe,
        mc_version <> EmptyString -> mods <> [] ->
        answers registry mc_version ->
        heads_within registry mc_version universe ->
        exists fuel, forall fuel', (fuel <= fuel')%nat ->
          walked registry fuel' (download mc_version mods)).
Proof.
  split_and!.
  - intros fuel seed mc_version p. apply resolve_dependencies_once.
  - intros fuel data p. apply api_download_expansions.
  - intros fuel seed mc_version tr m Hc Hres v Hreach.
    destruct (closure_is_covered _ _ _ _ _ _ Hc Hres v Hreach)
      as [Hone Hkeys].
    split_and!; try done. intros dep Hdep Hreq.
    destruct (process_asks registry _ _ _ _ _ _ _ Hres Hc v) with (dep := dep)
      as [H1 H2]; try done.
    { destruct (reachable_chosen _ _ _ _ Hreach) as [->|?]; [|by right].
      left. apply list_elem_of_here. }
    { apply expansions_occurrences. by rewrite Hone. }
    split; [by apply occurrences_requests|].
    intros resp Hp Hs. apply occurrences_requests. eauto.
  - intros fuel seed mc_version tr m p Hres Hocc.
    destruct (process_expansions_sound registry _ _ _ _ _ _ _ Hres p)
      as (v0 & v & ->%list_elem_of_singleton & Hreach & Hpid).
    { by apply expansions_occurrences. }
    by exists v.
  - intros fuel data. apply api_download_trace.
  - intros fuel data slug p Hc Hw Hslug. split.
    + intros (v & vs & w & Hfetch & Hreach & <-).
      by destruct (root_trace_covers _ _ _ _ _ _ _ Hc Hw Hslug Hfetch Hreach).
    + intros Hno.
      destruct (occurrences (Expand p) (root_trace registry fuel _ slug))
        as [|n] eqn:Hocc; [done|].
      destruct Hno. apply (root_trace_sound _ fuel); [done|done|]. lia.
  - intros fuel data slug v vs w dep Hc Hw Hslug Hfetch Hreach Hdep Hreq.
    destruct (root_trace_covers _ _ _ _ _ _ _ Hc Hw Hslug Hfetch Hreach)
      as [_ Hasks].
    by apply Hasks.
  - intros fuel data slug1 slug2 p Hc Hw Hne H1 H2
      (v1 & vs1 & w1 & Hf1 & Hr1 & Hp1) (v2 & vs2 & w2 & Hf2 & Hr2 & Hp2).
    destruct (root_trace_covers _ _ _ _ _ _ _ Hc Hw H1 Hf1 Hr1) as [Ho1 _].
    destruct (root_trace_covers _ _ _ _ _ _ _ Hc Hw H2 Hf2 Hr2) as [Ho2 _].
    rewrite Hp1 in Ho1. rewrite Hp2 in Ho2.
    split.
    + apply (api_download_twice _ _ _ slug1 slug2); try done; lia.
    + intros Hmods. rewrite (api_download_trace _ _ _ Hw), Hmods.
      cbn [default from_option id map concat].
      rewrite !occurrences_app, occurrences_nil. lia.
  - intros fuel data slug1 slug2 v1 vs1 w1 dep1 v2 vs2 w2 dep2 Hc Hw Hne
      H1 H2 Hf1 Hf2 Hr1 Hr2 Hd1 Hd2 Hq1 Hq2 Hsame.
    destruct (root_trace_covers _ _ _ _ _ _ _ Hc Hw H1 Hf1 Hr1) as [_ Ha1].
    destruct (root_trace_covers _ _ _ _ _ _ _ Hc Hw H2 Hf2 Hr2) as [_ Ha2].
    destruct (Ha1 dep1 Hd1 Hq1) as [Hl1 Hv1].
    destruct (Ha2 dep2 Hd2 Hq2) as [Hl2 Hv2].
    rewrite <- Hsame in Hl2, Hv2.
    split.
    + by apply (api_download_twice _ _ _ slug1 slug2).
    + intros resp Hp Hs.
      apply (api_download_twice _ _ _ slug1 slug2); auto.
  - intros mc_version mods universe. apply api_download_walks.
Qed.

(** The roots "left" and "right" both depend on "P-lib": it is expanded
    exactly twice over the call. *)
Lemma C3_expanded_once_per_root_witness :
  (2 <= occurrences (Expand "P-lib")
          (trace (api_download (serve shared_registry) 5
                    (download "1.20.1" ["left"; "right"]))))%nat
  /\ (req_mods (download "1.20.1" ["left"; "right"]) = Some ["left"; "right"] ->
      occurrences (Expand "P-lib")
        (trace (api_download (serve shared_registry) 5
                  (download "1.20.1" ["left"; "right"]))) = 2%nat).
Proof.
  assert (forall v,
            v ∈ [left_ver; right_ver] ->
            reachable (serve shared_registry) "1.20.1" v lib_ver) as Hreach.
  { intros v Hv. apply (reach_edge _ _ _ v); [apply reach_seed|].
    exists (edge "required" "P-lib"). split.
    - apply elem_of_cons in Hv as [->|Hv]; [apply list_elem_of_here|].
      apply list_elem_of_singleton in Hv as ->.
      apply list_elem_of_further, list_elem_of_here.
    - split; [reflexivity|].
      exists {| status_code := 200; json := {| project_slug := "lib" |} |}, [].
      split_and!; reflexivity. }
  apply (proj1 (proj2 (proj2 (proj2 (proj2 (proj2 (proj2 (proj2
           (C3_expanded_once_per_root (serve shared_registry)))))))))
           5%nat (download "1.20.1" ["left"; "right"]) "left" "right" "P-lib").
  - apply serve_consistent. unfold one_version_per_project.
    apply (bool_decide_unpack _). vm_compute. reflexivity.
  - left. eexists. vm_compute. reflexivity.
  - discriminate.
  - apply list_elem_of_here.
  - apply list_elem_of_further, list_elem_of_here.
  - exists left_ver, [], lib_ver. split_and!; [reflexivity| |reflexivity].
    apply Hreach, list_elem_of_here.
  - exists right_ver, [], lib_ver. split_and!; [reflexivity| |reflexivity].
    apply Hreach, list_elem_of_further, list_elem_of_here.
Defined.

(** * The files themselves *)

Lemma append_assoc (a b c : string) :
  String.append (String.append a b) c = String.append a (String.append b c).
Proof.
  induction a as [|x a IH]; [done|].
  change (String x (String.append (String.append a b) c)
          = String x (String.append a (String.append b c))).
  by rewrite IH.
Qed.

Lemma append_empty_r (a : string) : String.append a EmptyString = a.
Proof.
  induction a as [|x a IH]; [done|].
  change (String x (String.append a EmptyString) = String x a).
  by rewrite IH.
Qed.

Lemma file_write_insert save_path chunk content (disk : gmap string string) :
  file_write save_path chunk (<[save_path := content]> disk)
  = <[save_path := String.append content chunk]> disk.
Proof.
  unfold file_write. by rewrite lookup_insert_eq, insert_insert_eq.
Qed.

(** The loop of the writes changes the file at [save_path] only, and
    leaves all the chunks there unless a write raises. *)
Lemma write_chunks_spec os save_path chunks content (disk : gmap string string) :
  exists remains,
    (write_chunks os save_path chunks (<[save_path := content]> disk)).1
    = <[save_path := remains]> disk
    /\ ((write_chunks os save_path chunks (<[save_path := content]> disk)).2
        = None ->
        remains
        = String.append content (foldr String.append EmptyString chunks)).
Proof.
  revert content. induction chunks as [|chunk chunks IH]; intros content.
  { exists content. cbn. by rewrite append_empty_r. }
  cbn [write_chunks].
  destruct (write_fault os _ save_path chunk) as [[e remains]|].
  { exists remains. cbn [fst snd]. by rewrite insert_insert_eq. }
  rewrite file_write_insert.
  destruct (IH (String.append content chunk)) as (remains & Hdisk & Hall).
  exists remains. split; [done|].
  intros Hnone. rewrite (Hall Hnone). cbn [foldr]. by rewrite append_assoc.
Qed.

Lemma write_chunks_willing os save_path chunks content
    (disk : gmap string string) :
  (forall d chunk, write_fault os d save_path chunk = None) ->
  write_chunks os save_path chunks (<[save_path := content]> disk)
  = (<[save_path :=
         String.append content (foldr String.append EmptyString chunks)]> disk,
     None).
Proof.
  intros Hok. revert content.
  induction chunks as [|chunk chunks IH]; intros content.
  { cbn. by rewrite append_empty_r. }
  cbn [write_chunks foldr]. rewrite Hok, file_write_insert, IH.
  by rewrite append_assoc.
Qed.

(** X8. [download_file] never touches a file other than [save_path]. It
    returns [True] only when the host answered 200 and the whole stream
    was written: the file then holds the chunks of the stream, one after
    the other, whatever was there before. It returns [False] only on
    another status, with the disk untouched. When an exception escapes,
    either the disk is untouched, or the host had answered 200 and the
    file at [save_path] was opened, hence emptied or rewritten. In
    particular, when the operating system refuses nothing, a stream that
    breaks after status 200 leaves a truncated file behind, holding the
    chunks that came before the break, and its exception escapes; and an
    exception of the request itself leaves the disk untouched. *)
Theorem download_file_outcomes os get url save_path
    (disk : gmap string string) :
  let run := download_file os get url save_path disk in
  (forall path, path <> save_path -> run.1 !! path = disk !! path)
  /\ (run.2 = Done true ->
      exists resp chunks,
        get url = Fetched resp /\ dl_status_code resp = 200
        /\ dl_iter_content resp (1024 * 10) = (chunks, None)
        /\ run.1
           = <[save_path := foldr String.append EmptyString chunks]> disk)
  /\ (run.2 = Done false ->
      exists resp,
        get url = Fetched resp /\ dl_status_code resp <> 200 /\ run.1 = disk)
  /\ (forall e,
        run.2 = Thrown e ->
        run.1 = disk
        \/ exists resp remains,
             get url = Fetched resp /\ dl_status_code resp = 200
             /\ open_fault os disk save_path = None
             /\ run.1 = <[save_path := remains]> disk)
  /\ (forall resp chunks broken,
        (forall d, open_fault os d save_path = None) ->
        (forall d chunk, write_fault os d save_path chunk = None) ->
        (forall d, close_fault os d save_path = None) ->
        get url = Fetched resp -> dl_status_code resp = 200 ->
        dl_iter_content resp (1024 * 10) = (chunks, broken) ->
        run = (<[save_path := foldr String.append EmptyString chunks]> disk,
               match broken with
               | None => Done true
               | Some e => Thrown e
               end))
  /\ (forall resp,
        get url = Fetched resp -> dl_status_code resp <> 200 ->
        run = (disk, Done false))
  /\ (forall e, get url = FetchError e -> run = (disk, Thrown e))
  /\ (forall resp e,
        get url = Fetched resp -> dl_status_code resp = 200 ->
        open_fault os disk save_path = Some e ->
        run = (disk, Thrown e)).
Proof.
  cbv zeta. unfold download_file.
  destruct (get url) as [resp|e0] eqn:Hget.
  2:{ split_and!; [..|by intros ? ? ? ? ?; simplify_eq]; try done.
      - intros e _. by left.
      - by intros e [= ->]. }
  destruct (dl_status_code resp =? 200) eqn:Hs.
  2:{ apply Z.eqb_neq in Hs. split_and!; [..|by intros ? ? ? ? ?; simplify_eq]; try done.
      - intros _. by exists resp.
      - by intros resp' chunks broken _ _ _ [= <-] Hs'. }
  apply Z.eqb_eq in Hs.
  destruct (open_fault os disk save_path) as [e1|] eqn:Hopen.
  { split_and!; [..|by intros ? ? ? ? ?; simplify_eq]; try done.
    - intros e _. by left.
    - intros resp' chunks broken Hok. by rewrite Hok in Hopen.
    - by intros resp' [= <-]. }
  destruct (dl_iter_content resp (1024 * 10)) as [chunks broken] eqn:Hstream.
  destruct (write_chunks_spec os save_path chunks EmptyString disk)
    as (remains & Hdisk & Hall).
  pose proof (write_chunks_willing os save_path chunks EmptyString disk)
    as Hwilling.
  destruct (write_chunks os save_path chunks (<[save_path := EmptyString]> disk))
    as [written failed] eqn:Hwrite.
  cbn [fst snd] in Hdisk, Hall. subst written.
  change (String.append EmptyString
            (foldr String.append EmptyString chunks))
    with (foldr String.append EmptyString chunks) in *.
  destruct (close_fault os (<[save_path := remains]> disk) save_path)
    as [[e4 remains']|] eqn:Hclose.
  { rewrite insert_insert_eq. cbn [fst snd]. split_and!; [..|by intros ? ? ? ? ?; simplify_eq]; try done.
    - intros path Hpath. by rewrite lookup_insert_ne.
    - intros e _. right. by exists resp, remains'.
    - intros resp' chunks' broken' _ _ Hok. by rewrite Hok in Hclose.
    - by intros resp' [= <-]. }
  destruct failed as [e2|].
  - cbn [fst snd]. split_and!; [..|by intros ? ? ? ? ?; simplify_eq]; try done.
    + intros path Hpath. by rewrite lookup_insert_ne.
    + intros e _. right. by exists resp, remains.
    + intros resp' chunks' broken' _ Hok. discriminate (Hwilling Hok).
    + by intros resp' [= <-].
  - rewrite (Hall eq_refl) in *.
    destruct broken as [e3|]; cbn [fst snd]; split_and!; [..|by intros ? ? ? ? ?; simplify_eq]; try done.
    + intros path Hpath. by rewrite lookup_insert_ne.
    + intros e _. right. by exists resp, (foldr String.append EmptyString chunks).
    + intros resp' chunks' broken' _ _ _ [= <-] _ Hst.
      rewrite Hstream in Hst. by injection Hst as <- <-.
    + by intros resp' [= <-].
    + intros path Hpath. by rewrite lookup_insert_ne.
    + intros _. by exists resp, chunks.
    + intros resp' chunks' broken' _ _ _ [= <-] _ Hst.
      rewrite Hstream in Hst. by injection Hst as <- <-.
    + by intros resp' [= <-].
Qed.

(** A body that comes in three chunks replaces the old file; a stream
    that breaks after its first chunk leaves that chunk in the file. *)
Lemma download_file_outcomes_witness :
  download_file willing host "url1" "mods/sodium.jar"
    {[ "mods/sodium.jar" := "old"; "mods/other.jar" := "kept" ]}
  = ({[ "mods/sodium.jar" := "sodium-bytes"; "mods/other.jar" := "kept" ]},
     Done true)
  /\ download_file willing host "url4" "mods/sodium.jar"
       {[ "mods/sodium.jar" := "old"; "mods/other.jar" := "kept" ]}
     = ({[ "mods/sodium.jar" := "half"; "mods/other.jar" := "kept" ]},
        Thrown (Fault "ChunkedEncodingError")).
Proof.
  split.
  - rewrite (proj1 (proj2 (proj2 (proj2 (proj2
               (download_file_outcomes willing host "url1" "mods/sodium.jar"
                  {[ "mods/sodium.jar" := "old";
                     "mods/other.jar" := "kept" ]})))))
               {| dl_status_code := 200; dl_content := Done "sodium-bytes";
                  dl_iter_content :=
                    fun _ => (["sodium"; "-"; "bytes"], None) |}
               ["sodium"; "-"; "bytes"] None);
      [vm_compute; reflexivity | reflexivity..].
  - rewrite (proj1 (proj2 (proj2 (proj2 (proj2
               (download_file_outcomes willing host "url4" "mods/sodium.jar"
                  {[ "mods/sodium.jar" := "old";
                     "mods/other.jar" := "kept" ]})))))
               {| dl_status_code := 200;
                  dl_content := Thrown (Fault "ChunkedEncodingError");
                  dl_iter_content :=
                    fun _ => (["half"], Some (Fault "ChunkedEncodingError")) |}
               ["half"] (Some (Fault "ChunkedEncodingError")));
      [vm_compute; reflexivity | reflexivity..].
Defined.

(** On a disk that is full after one chunk, the second write raises and
    the file keeps the first chunk. *)
Example download_file_disk_full :
  download_file cramped host "url1" "mods/sodium.jar"
    {[ "mods/sodium.jar" := "old" ]}
  = ({[ "mods/sodium.jar" := "sodium" ]}, Thrown (Fault "OSError")).
Proof. vm_compute. reflexivity. Qed.

(** ** The archive *)

(** One file, when every line can be printed. *)
Lemma archive_file_printing rt get filename url st :
  (forall line, print_fault rt line = None) ->
  archive_file rt get (filename, url) st
  = (let announced := say (Downloading filename) st in
     match get url with
     | FetchError e => say (ErrorDownloading filename e) announced
     | Fetched r =>
         if dl_status_code r =? 200 then
           match dl_content r with
           | Thrown e => say (ErrorDownloading filename e) announced
           | Done content =>
               match writestr rt filename content announced with
               | (st2, None) => st2
               | (st2, Some e) => say (ErrorDownloading filename e) st2
               end
           end
         else say (FailedToDownload filename) announced
     end, None).
Proof.
  intros Hp. unfold archive_file, fetch_into_archive, print.
  rewrite (Hp (Downloading filename)). cbv zeta.
  destruct (get url) as [r|e]; cbv beta iota; [|by rewrite Hp].
  destruct (dl_status_code r =? 200); cbv beta iota; [|by rewrite Hp].
  destruct (dl_content r) as [content|e]; cbv beta iota; [|by rewrite Hp].
  destruct (writestr rt filename content _) as [st2 [e|]]; cbv beta iota;
    [|done].
  by rewrite Hp.
Qed.

(** An exception that escapes from the body of the loop is the exception
    of one of its two prints that stand outside the [try]. *)
Lemma archive_file_aborts rt get filename url st st' e :
  archive_file rt get (filename, url) st = (st', Some e) ->
  print_fault rt (Downloading filename) = Some e
  \/ exists e', print_fault rt (ErrorDownloading filename e') = Some e.
Proof.
  unfold archive_file, print.
  destruct (print_fault rt (Downloading filename)) as [e0|];
    [intros [= _ <-]; by left|].
  destruct (fetch_into_archive rt get filename url _) as [st2 [e'|]]; [|done].
  destruct (print_fault rt (ErrorDownloading filename e')) as [e''|] eqn:Hp;
    [|done].
  intros [= _ <-]. right. by exists e'.
Qed.

Lemma writestr_console rt filename content st :
  console (writestr rt filename content st).1 = console st.
Proof. unfold writestr. by destruct (zip_write rt _ _ _). Qed.

Lemma writestr_failure rt filename content st :
  (writestr rt filename content st).2
  = (zip_write rt (zip_entries st) filename content).2.
Proof. unfold writestr. by destruct (zip_write rt _ _ _). Qed.

(** What the console holds when the loop has run and every line could be
    printed. *)
Lemma write_archive_printing rt get items st0 :
  (forall line, print_fault rt line = None) ->
  exists st,
    write_archive rt get items st0 = (st, None)
    /\ (forall line, line ∈ console st0 -> line ∈ console st)
    /\ forall name url,
         (name, url) ∈ items ->
         Downloading name ∈ console st
         /\ match get url with
            | FetchError e => ErrorDownloading name e ∈ console st
            | Fetched r =>
                if dl_status_code r =? 200 then
                  match dl_content r with
                  | Thrown e => ErrorDownloading name e ∈ console st
                  | Done content =>
                      exists entries,
                        match (zip_write rt entries name content).2 with
                        | Some e => ErrorDownloading name e ∈ console st
                        | None => True
                        end
                  end
                else FailedToDownload name ∈ console st
            end.
Proof.
  intros Hp. revert st0.
  induction items as [|[filename url] items IH]; intros st0.
  { exists st0. split_and!; [done|done|]. by intros name u ?%elem_of_nil. }
  cbn [write_archive]. rewrite archive_file_printing by done. cbv zeta.
  set (announced := say (Downloading filename) st0).
  set (st1 := match get url with
              | Fetched r => _
              | FetchError e => _
              end).
  destruct (IH st1) as (st & Hrun & Hconsole & Hreport).
  exists st. split; [done|].
  assert (forall line, line ∈ console announced -> line ∈ console st1) as Hkeep.
  { intros line Hline. subst st1. destruct (get url) as [r|e].
    - destruct (dl_status_code r =? 200).
      + destruct (dl_content r) as [content|e].
        * pose proof (writestr_console rt filename content announced) as Hw.
          destruct (writestr rt filename content announced) as [st2 [e|]];
            cbn [fst] in Hw; cbn [say console]; rewrite Hw; [|done].
          apply elem_of_app. by left.
        * cbn [say console]. apply elem_of_app. by left.
      + cbn [say console]. apply elem_of_app. by left.
    - cbn [say console]. apply elem_of_app. by left. }
  assert (forall line, line ∈ console st0 -> line ∈ console announced) as Hfirst.
  { intros line Hline. cbn. apply elem_of_app. by left. }
  split; [auto|].
  intros name u [[= -> ->]|Hin]%elem_of_cons; [|by apply Hreport].
  split.
  { apply Hconsole, Hkeep. cbn. apply elem_of_app. right. apply list_elem_of_here. }
  subst st1. destruct (get url) as [r|e].
  - destruct (dl_status_code r =? 200).
    + destruct (dl_content r) as [content|e].
      * exists (zip_entries announced).
        pose proof (writestr_console rt filename content announced) as Hw.
        rewrite <- writestr_failure.
        destruct (writestr rt filename content announced) as [st2 [e|]];
          cbn [fst snd] in *; [|done].
        apply Hconsole. cbn [say console]. apply elem_of_app. right.
        apply list_elem_of_here.
      * apply Hconsole. cbn [say console]. apply elem_of_app. right.
        apply list_elem_of_here.
    + apply Hconsole. cbn [say console]. apply elem_of_app. right.
      apply list_elem_of_here.
  - apply Hconsole. cbn [say console]. apply elem_of_app. right.
    apply list_elem_of_here.
Qed.

Lemma write_archive_aborts rt get items st0 st e :
  write_archive rt get items st0 = (st, Some e) ->
  exists name url,
    (name, url) ∈ items
    /\ (print_fault rt (Downloading name) = Some e
        \/ exists e', print_fault rt (ErrorDownloading name e') = Some e).
Proof.
  revert st0. induction items as [|[filename url] items IH]; intros st0;
    [done|].
  cbn [write_archive].
  destruct (archive_file rt get (filename, url) st0) as [st1 [e1|]] eqn:Hone.
  - intros [= _ <-]. exists filename, url.
    split; [apply list_elem_of_here|]. by eapply archive_file_aborts.
  - intros (name & u & Hin & Hrest)%IH. exists name, u.
    split; [by apply list_elem_of_further|done].
Qed.

(** The entries of the archive, when every line can be printed and the
    zip library stores every entry under the name it is given. *)
Lemma archive_file_entries rt get filename url st :
  (forall line, print_fault rt line = None) ->
  (forall entries content,
     zip_write rt entries filename content
     = (entries ++ [(filename, content)], None)) ->
  exists st1,
    archive_file rt get (filename, url) st = (st1, None)
    /\ zip_entries st1
       = zip_entries st
         ++ match delivered get (filename, url) with
            | Some entry => [entry]
            | None => []
            end.
Proof.
  intros Hp Hzip. rewrite archive_file_printing by done. cbv zeta.
  unfold delivered. eexists. split; [reflexivity|].
  destruct (get url) as [r|e]; [|by rewrite app_nil_r].
  destruct (dl_status_code r =? 200); [|by rewrite app_nil_r].
  destruct (dl_content r) as [content|e]; [|by rewrite app_nil_r].
  unfold writestr. by rewrite Hzip.
Qed.

Lemma write_archive_entries rt get items st0 :
  (forall line, print_fault rt line = None) ->
  (forall entries name url content,
     (name, url) ∈ items ->
     zip_write rt entries name content = (entries ++ [(name, content)], None)) ->
  exists st,
    write_archive rt get items st0 = (st, None)
    /\ zip_entries st = zip_entries st0 ++ omap (delivered get) items.
Proof.
  intros Hp. revert st0.
  induction items as [|[filename url] items IH]; intros st0 Hzip.
  { exists st0. split; [done|]. by rewrite app_nil_r. }
  cbn [write_archive].
  destruct (archive_file_entries rt get filename url st0 Hp)
    as (st1 & -> & Hone).
  { intros entries content. apply (Hzip _ _ url), list_elem_of_here. }
  destruct (IH st1) as (st & Hrun & Hentries).
  { intros entries name u content Hin. apply (Hzip _ _ u).
    by apply list_elem_of_further. }
  exists st. split; [done|]. rewrite Hentries, Hone.
  cbn [omap list_omap].
  destruct (delivered get (filename, url)) as [entry|];
    by rewrite <- app_assoc.
Qed.

Lemma delivered_names (get : string -> fetched)
    (items : list (string * string)) :
  (omap (delivered get) items).*1 `sublist_of` items.*1.
Proof.
  induction items as [|[filename url] items IH]; [done|].
  cbn [omap list_omap delivered fmap list_fmap fst].
  destruct (get url) as [r|e]; [|by apply sublist_cons].
  destruct (dl_status_code r =? 200); [|by apply sublist_cons].
  destruct (dl_content r) as [content|e]; [|by apply sublist_cons].
  cbn [fmap list_fmap fst]. by apply sublist_skip.
Qed.

Lemma elem_of_delivered (get : string -> fetched)
    (items : list (string * string)) (name content : string) :
  (name, content) ∈ omap (delivered get) items
  <-> exists url r,
        (name, url) ∈ items /\ get url = Fetched r
        /\ dl_status_code r = 200 /\ dl_content r = Done content.
Proof.
  rewrite list_elem_of_omap. split.
  - intros ([filename url] & Hin & Hd). unfold delivered in Hd.
    destruct (get url) as [r|e] eqn:Hget; [|done].
    destruct (dl_status_code r =? 200) eqn:Hs; [|done].
    destruct (dl_content r) as [c|e] eqn:Hc; [|done].
    injection Hd as -> ->. apply Z.eqb_eq in Hs. by exists url, r.
  - intros (url & r & Hin & Hget & Hs & Hc). exists (name, url).
    split; [done|]. unfold delivered. rewrite Hget, Hs, Hc. done.
Qed.

(** X9. The loop that writes the archive can abort in one way only: an
    exception escapes from it only if it is the exception of a [print]
    that stands outside the [try], the announcement of a file or the
    report of its error. Whatever the file hosts and the zip library do
    is caught. So when every line can be printed, the loop ends without
    an exception, every file is announced, and every file that is not
    handed to the zip library is reported: as failed when the status is
    not 200, with its exception when the request or the read of the body
    raised; and the exception of [zipf.writestr], if it raises, is
    reported too. An announcement that cannot be printed aborts the loop
    before the request is sent, and a report that cannot be printed
    aborts it after the failure it should have reported. *)
Theorem write_archive_aborts_only_on_print rt get items :
  (forall st0 st e,
     write_archive rt get items st0 = (st, Some e) ->
     exists name url,
       (name, url) ∈ items
       /\ (print_fault rt (Downloading name) = Some e
           \/ exists e', print_fault rt (ErrorDownloading name e') = Some e))
  /\ ((forall line, print_fault rt line = None) ->
      exists st,
        write_archive rt get items empty_archive = (st, None)
        /\ forall name url,
             (name, url) ∈ items ->
             Downloading name ∈ console st
             /\ match get url with
                | FetchError e => ErrorDownloading name e ∈ console st
                | Fetched r =>
                    if dl_status_code r =? 200 then
                      match dl_content r with
                      | Thrown e => ErrorDownloading name e ∈ console st
                      | Done content =>
                          exists entries,
                            match (zip_write rt entries name content).2 with
                            | Some e => ErrorDownloading name e ∈ console st
                            | None => True
                            end
                      end
                    else FailedToDownload name ∈ console st
                end)
  /\ (forall filename url st e,
        print_fault rt (Downloading filename) = Some e ->
        write_archive rt get ((filename, url) :: items) st = (st, Some e))
  /\ (forall filename url st e' e,
        print_fault rt (Downloading filename) = None ->
        fetch_into_archive rt get filename url (say (Downloading filename) st)
        = (say (Downloading filename) st, Some e') ->
        print_fault rt (ErrorDownloading filename e') = Some e ->
        write_archive rt get ((filename, url) :: items) st
        = (say (Downloading filename) st, Some e))
  /\ (forall filename url st,
        (forall line, print_fault rt line = None) ->
        archive_file rt get (filename, url) st
        = (let announced := say (Downloading filename) st in
           match get url with
           | FetchError e => say (ErrorDownloading filename e) announced
           | Fetched r =>
               if dl_status_code r =? 200 then
                 match dl_content r with
                 | Thrown e => say (ErrorDownloading filename e) announced
                 | Done content =>
                     match writestr rt filename content announced with
                     | (st2, None) => st2
                     | (st2, Some e) => say (ErrorDownloading filename e) st2
                     end
                 end
               else say (FailedToDownload filename) announced
           end, None)).
Proof.
  split_and!.
  - intros st0 st e. apply write_archive_aborts.
  - intros Hp.
    destruct (write_archive_printing rt get items empty_archive Hp)
      as (st & Hrun & _ & Hreport).
    by exists st.
  - intros filename url st e Hp. cbn [write_archive].
    unfold archive_file, print. by rewrite Hp.
  - intros filename url st e' e Hp Hbody Hp'. cbn [write_archive].
    unfold archive_file, print. rewrite Hp, Hbody. unfold print.
    by rewrite Hp'.
  - intros filename url st. apply archive_file_printing.
Qed.

(** X10. When every line can be printed and the zip library stores every
    entry under the name it is given, the archive written from a mapping
    (its items in any order) has no two entries of the same name, and it
    holds an entry exactly for the filenames of the mapping whose URL is
    answered with 200 and whose body can be read, with that body: a file
    that cannot be fetched is left out and the other files are still
    delivered. *)
Theorem write_archive_of_mapping rt get items (m : gmap string string) :
  (forall line, print_fault rt line = None) ->
  (forall entries name url content,
     (name, url) ∈ items ->
     zip_write rt entries name content = (entries ++ [(name, content)], None)) ->
  NoDup (items.*1) ->
  list_to_map items = m ->
  exists st,
    write_archive rt get items empty_archive = (st, None)
    /\ zip_entries st = omap (delivered get) items
    /\ NoDup ((zip_entries st).*1)
    /\ forall name content,
         (name, content) ∈ zip_entries st
         <-> exists url r,
               m !! name = Some url /\ get url = Fetched r
               /\ dl_status_code r = 200 /\ dl_content r = Done content.
Proof.
  intros Hp Hzip Hnd <-.
  destruct (write_archive_entries rt get items empty_archive Hp Hzip)
    as (st & Hrun & Hentries).
  cbn [empty_archive zip_entries app] in Hentries.
  exists st. split_and!; [done|done| |].
  - rewrite Hentries.
    eapply sublist_NoDup; [exact Hnd|apply delivered_names].
  - intros name content. rewrite Hentries, elem_of_delivered. split.
    + intros (url & r & Hin & Hrest). exists url, r. split; [|done].
      by apply elem_of_list_to_map.
    + intros (url & r & Hm & Hrest). exists url, r. split; [|done].
      by apply elem_of_list_to_map.
Qed.

(** Five files: one fetched, one answered with 404, one whose body
    breaks off, one whose host is unreachable; only the first is in the
    archive, and each of the others is reported. *)
Lemma write_archive_aborts_only_on_print_witness :
  exists st,
    write_archive obliging host
      [("sodium.jar", "url1"); ("lost.jar", "url3"); ("half.jar", "url4");
       ("gone.jar", "url9")]
      empty_archive = (st, None)
    /\ forall name url,
         (name, url)
           ∈ [("sodium.jar", "url1"); ("lost.jar", "url3");
              ("half.jar", "url4"); ("gone.jar", "url9")] ->
         Downloading name ∈ console st
         /\ match host url with
            | FetchError e => ErrorDownloading name e ∈ console st
            | Fetched r =>
                if dl_status_code r =? 200 then
                  match dl_content r with
                  | Thrown e => ErrorDownloading name e ∈ console st
                  | Done content =>
                      exists entries,
                        match (zip_write obliging entries name content).2 with
                        | Some e => ErrorDownloading name e ∈ console st
                        | None => True
                        end
                  end
                else FailedToDownload name ∈ console st
            end.
Proof.
  apply (proj1 (proj2 (write_archive_aborts_only_on_print obliging host
                         [("sodium.jar", "url1"); ("lost.jar", "url3");
                          ("half.jar", "url4"); ("gone.jar", "url9")]))).
  reflexivity.
Defined.

Lemma write_archive_of_mapping_witness :
  exists st,
    write_archive obliging host
      [("sodium.jar", "url1"); ("lost.jar", "url3"); ("gone.jar", "url9")]
      empty_archive = (st, None)
    /\ zip_entries st
       = omap (delivered host)
           [("sodium.jar", "url1"); ("lost.jar", "url3"); ("gone.jar", "url9")]
    /\ NoDup ((zip_entries st).*1)
    /\ forall name content,
         (name, content) ∈ zip_entries st
         <-> exists url r,
               ({[ "sodium.jar" := "url1"; "lost.jar" := "url3";
                   "gone.jar" := "url9" ]} : gmap string string) !! name
               = Some url
               /\ host url = Fetched r
               /\ dl_status_code r = 200 /\ dl_content r = Done content.
Proof.
  apply (write_archive_of_mapping obliging host
           [("sodium.jar", "url1"); ("lost.jar", "url3"); ("gone.jar", "url9")]).
  - reflexivity.
  - reflexivity.
  - apply (bool_decide_unpack _). vm_compute. reflexivity.
  - vm_compute. reflexivity.
Defined.

(** With libraries that refuse nothing, the files that cannot be fetched
    are reported and the loop goes on. *)
Example write_archive_runs :
  write_archive obliging host
    [("sodium.jar", "url1"); ("lost.jar", "url3"); ("half.jar", "url4");
     ("gone.jar", "url9")]
    empty_archive
  = ({| zip_entries := [("sodium.jar", "sodium-bytes")];
        console := [Downloading "sodium.jar";
                    Downloading "lost.jar"; FailedToDownload "lost.jar";
                    Downloading "half.jar";
                    ErrorDownloading "half.jar" (Fault "ChunkedEncodingError");
                    Downloading "gone.jar";
                    ErrorDownloading "gone.jar" (Fault "ConnectionError")] |},
     None).
Proof. reflexivity. Qed.

(** With libraries that refuse the empty name, a file of that name is
    answered with 200 and still not archived, and its error is reported;
    a name that cannot be printed aborts the loop, and the files after
    it are not even requested. *)
Example write_archive_stops :
  write_archive fussy host
    [(EmptyString, "url1"); ("fabric.jar", "url2")] empty_archive
  = ({| zip_entries := [("fabric.jar", "fabric-bytes")];
        console := [Downloading EmptyString;
                    ErrorDownloading EmptyString (Fault "IndexError");
                    Downloading "fabric.jar"] |},
     None)
  /\ write_archive fussy host
       [("sodium.jar", "url1"); ("bad.jar", "url2"); ("fabric.jar", "url2")]
       empty_archive
     = ({| zip_entries := [("sodium.jar", "sodium-bytes")];
           console := [Downloading "sodium.jar"] |},
        Some (Fault "UnicodeEncodeError")).
Proof. split; reflexivity. Qed.
